(** * AutoDestroy insertion: a shallow embedding of
      compiler/passes/insertAutoCopyAutoDestroy.cpp

    The pass tracks the "ownership" of record variables with four families of
    bit-vectors (GEN, KILL, IN, OUT), keeps a map from symbols to shared alias
    lists, and splices auto-destroy calls next to the last statement of each
    basic block.

    Conventions of the embedding.
    - Pointers are natural numbers.  A [Symbol*], an [Expr*] and a
      [SymbolVector*] are compared by address in the source; here they are
      compared by [sym_id], [exprId] and by the location itself.
    - The alias lists live in an explicit store ([lists]), because several map
      entries point at one list and [mergeAliases] frees lists.
    - A computation ends in [Done], in an internal error ([IntFatal], raised by
      INT_ASSERT), in [Undefined] (a dangling or null pointer is dereferenced,
      or [std::map::at] throws), or runs out of fuel ([OutOfFuel]).  Two loops
      take fuel: the loop of [mergeAliases], whose bound moves while it runs,
      and the fixpoint iteration of the flow analysis.
    - The headers of the IR, of the bit vectors and of the basic blocks, and
      the flow solver, are outside the file; what the pass uses of them is
      written here after the specification and marked as such. *)

From stdpp Require Import base option list gmap fin_maps sorting.

(** ** Outcomes *)

Inductive Failure : Type :=
| AssertGenClear        (* INT_ASSERT(gen->get(index) == false) *)
| AssertKillClear       (* INT_ASSERT(kill->get(index) == false) *)
| AssertFirstActual     (* INT_ASSERT(call->get(1) == se) *)
| AssertSymbolIndex     (* INT_ASSERT(symbols[symbolIndex[sym]] == sym) *)
| ListOutOfBounds       (* AList::get past the end, Expr not in a list *)
| BadPointer            (* dereference of a null or freed SymbolVector* *)
| MapAt                 (* SymbolIndexMap::at on a missing key *)
| VectorIndex.          (* symbols[j] past the end *)

Inductive Result (A : Type) : Type :=
| Done (a : A)
| IntFatal (f : Failure)
| Undefined (f : Failure)
| OutOfFuel.

Arguments Done {A} a.
Arguments IntFatal {A} f.
Arguments Undefined {A} f.
Arguments OutOfFuel {A}.

#[global] Instance Result_bind : MBind Result := λ A B k m,
  match m with
  | Done a => k a
  | IntFatal f => IntFatal f
  | Undefined f => Undefined f
  | OutOfFuel => OutOfFuel
  end.

#[global] Instance Result_ret : MRet Result := λ A a, Done a.

(** Modelled from the spec: the INT_ASSERT macro is declared outside the
    file.  Section 7: an internal invariant violation aborts the compilation
    with an internal-error diagnostic. *)
Definition INT_ASSERT (c : bool) (f : Failure) : Result unit :=
  if c then Done tt else IntFatal f.

(** ** Types and symbols *)

(** Modelled from the spec: type.h is not part of the file.  Section 6 names
    the predicates isRecordAggregate, isClassAggregate and hasExternFlag; a
    type is kept as its address, the kind of aggregate it is (if any) and its
    extern flag. *)
Inductive TypeTag : Type :=
| AggregateRecord | AggregateClass | AggregateUnion | PrimitiveType.

(** Modelled from the spec: the Type class of type.h, with the attributes
    listed above. *)
Record Type_ : Type := mkType {
  type_id : nat;
  type_tag : TypeTag;
  FLAG_EXTERN : bool                 (* type->symbol->hasFlag(FLAG_EXTERN) *)
}.

(** Modelled from the spec: the subclasses of Symbol in symbol.h, which
    toArgSymbol and toVarSymbol tell apart (section 6, isLocalOrParameter). *)
Inductive SymbolKind : Type :=
| ArgSymbol | VarSymbol | TypeSymbol | FnSymbolKind | OtherSymbol.

(** Modelled from the spec: the Symbol class of symbol.h, a handle with a
    stable identity, a type and a kind (section 3, Tracked Symbol). *)
Record Symbol : Type := mkSymbol {
  sym_id : nat;
  sym_kind : SymbolKind;
  sym_type : Type_
}.

#[global] Instance TypeTag_eq_dec : EqDecision TypeTag.
Proof. solve_decision. Defined.
#[global] Instance Type_eq_dec : EqDecision Type_.
Proof. solve_decision. Defined.
#[global] Instance SymbolKind_eq_dec : EqDecision SymbolKind.
Proof. solve_decision. Defined.
#[global] Instance Symbol_eq_dec : EqDecision Symbol.
Proof. solve_decision. Defined.

(** Modelled from the spec: toAggregateType(type) followed by isRecord()
    (section 6, isRecordAggregate). *)
Definition isRecord (t : Type_) : bool :=
  match type_tag t with AggregateRecord => true | _ => false end.

(** Modelled from the spec: toAggregateType(type) followed by isClass()
    (section 6, isClassAggregate). *)
Definition isClass (t : Type_) : bool :=
  match type_tag t with AggregateClass => true | _ => false end.

(** ** Bit vectors

    bitVec.h is not part of the file.  Section 3 of the specification: a
    fixed-length bit-vector over the symbol indices with the set operations
    union, intersection and difference, each producing a fresh vector.  A
    [BitVec] of length [n] is a list of [n] booleans. *)

Abbreviation BitVec := (list bool).

(** Modelled from the spec: new BitVec(size), all bits clear. *)
Definition BitVec_new (size : nat) : BitVec := replicate size false.

(** Modelled from the spec: BitVec::get.  The pass only reads indices below
    the size; a read past the end is given [false]. *)
Definition BitVec_get (v : BitVec) (i : nat) : bool := default false (v !! i).

(** Modelled from the spec: BitVec::set.  The pass only writes indices below
    the size; a write past the end leaves the list as it is. *)
Definition BitVec_set (v : BitVec) (i : nat) : BitVec := <[i := true]> v.

(** Modelled from the spec: operator+ of bitVec.h, the union. *)
Definition BitVec_union (a b : BitVec) : BitVec := zip_with orb a b.

(** Modelled from the spec: the intersection of bitVec.h. *)
Definition BitVec_intersection (a b : BitVec) : BitVec := zip_with andb a b.

(** Modelled from the spec: operator- of bitVec.h, the difference. *)
Definition BitVec_difference (a b : BitVec) : BitVec :=
  zip_with (λ x y, x && negb y) a b.

(** The number of bits that are set. *)
Definition popcount (v : BitVec) : nat := length (filter (λ b, b = true) v).

Infix "+ᵇ" := BitVec_union (at level 50, left associativity).
Infix "-ᵇ" := BitVec_difference (at level 50, left associativity).

Abbreviation FlowSet := (list (list bool)).

(** createFlowSet: a BitVec of length [size] for each block. *)
Definition createFlowSet (nbbs size : nat) : FlowSet :=
  replicate nbbs (BitVec_new size).

(** ** Symbol vector, index map and alias map *)

Abbreviation SymbolVector := (list Symbol).
Abbreviation SymbolIndexMap := (gmap nat nat).

(** SymbolIndexMap::at throws when the key is missing. *)
Definition symbolIndex_at (symbolIndex : SymbolIndexMap) (sym : Symbol)
  : Result nat :=
  match symbolIndex !! sym_id sym with
  | Some i => Done i
  | None => Undefined MapAt
  end.

(** A [SymbolVector*]: an address in the store of alias lists; 0 is NULL. *)
Abbreviation ListPtr := nat.
Definition NULL : ListPtr := 0.

(** std::map<Symbol*, SymbolVector*> together with the lists it points to.
    [entries] is the map proper, [lists] holds the live [SymbolVector]
    objects (a deleted list has no entry), [next_list] is the next address
    that [new SymbolVector()] returns. *)
Record AliasVectorMap : Type := mkAliases {
  entries : gmap nat ListPtr;
  lists : gmap ListPtr SymbolVector;
  next_list : ListPtr
}.

(** aliases[sym]: operator[] yields NULL for a key that is not in the map. *)
Definition aliases_at (aliases : AliasVectorMap) (sym : Symbol) : ListPtr :=
  default NULL (entries aliases !! sym_id sym).

(** *p for a [SymbolVector* p]. *)
Definition deref (store : gmap ListPtr SymbolVector) (p : ListPtr)
  : Result SymbolVector :=
  match store !! p with
  | Some v => Done v
  | None => Undefined BadPointer
  end.

(** members(s): the list that the map entry of [s] points to, as
    processDestructor reads it. *)
Definition members (aliases : AliasVectorMap) (sym : Symbol)
  : Result SymbolVector :=
  deref (lists aliases) (aliases_at aliases sym).

(** The loop of mergeAliases,
    [for (i = 0; i < aliasList->size(); ++i) origList->push_back(aliasList->at(i))].
    Both pointers are dereferenced afresh in every iteration, so that a
    push_back through [origList] is seen by [aliasList->size()] when the two
    pointers are equal. *)
Fixpoint mergeAliases_loop (fuel : nat) (origList aliasList : ListPtr)
    (i : nat) (store : gmap ListPtr SymbolVector)
  : Result (gmap ListPtr SymbolVector) :=
  match fuel with
  | O => OutOfFuel
  | S fuel' =>
      al ← deref store aliasList ;
      if decide (i < length al) then
        match al !! i with
        | Some sym =>
            ol ← deref store origList ;
            mergeAliases_loop fuel' origList aliasList (S i)
              (<[origList := ol ++ [sym]]> store)
        | None => Undefined VectorIndex
        end
      else Done store
  end.

(** Merge the alias lists of two symbols that have become aliases. *)
Definition mergeAliases (fuel : nat) (orig alias : Symbol)
    (aliases : AliasVectorMap) : Result AliasVectorMap :=
  let origList := aliases_at aliases orig in
  let aliasList := aliases_at aliases alias in
  store ← mergeAliases_loop fuel origList aliasList 0 (lists aliases) ;
  Done {| entries := <[sym_id alias := origList]> (entries aliases);
          lists := delete aliasList store;          (* delete aliasList *)
          next_list := next_list aliases |}.

(** ** Expressions and statements

    expr.h and stmt.h are not part of the file.  The kinds of node are the
    ones that the pass and the specification distinguish: symbol references,
    calls (resolved or primitive), definitions, goto statements (the
    unconditional branch), conditional statements (the conditional branch)
    and block statements.  Every node carries its address [id]. *)

(** Modelled from the spec: the primitive tags of primitive.h that the pass
    tests (section 6: isMove, isAssign, isReturn). *)
Inductive PrimitiveTag : Type :=
| PRIM_MOVE | PRIM_ASSIGN | PRIM_RETURN | PRIM_UNKNOWN.

#[global] Instance PrimitiveTag_eq_dec : EqDecision PrimitiveTag.
Proof. solve_decision. Defined.

(** Modelled from the spec: the FnSymbol class of symbol.h, with the
    attributes that the pass reads (section 6: destructor-flag predicate,
    isPrototypeFlag, return-type handle). *)
Record FnSymbol : Type := mkFnSymbol {
  fn_id : nat;
  FLAG_DESTRUCTOR : bool;
  FLAG_FUNCTION_PROTOTYPE : bool;
  retType : Type_
}.

(** Modelled from the spec: what a call invokes (section 6: resolved-function
    handle, or none for primitives).  A primitive has a tag and a result
    type. *)
Inductive Callee : Type :=
| Resolved (fn : FnSymbol)
| Primitive (tag : PrimitiveTag) (typeInfo : Type_).

(** Modelled from the spec: the SymExpr class of expr.h, a reference to a
    symbol. *)
Record SymExpr : Type := mkSymExpr {
  se_id : nat;
  var : Symbol
}.

(** Modelled from the spec: the Expr classes of expr.h and stmt.h.  The
    callee of a call is an attribute of the call node; the reference to the
    function symbol that stands for it in the source names no variable and is
    never tracked. *)
#[warnings="-register-all"]
Inductive Expr : Type :=
| ESym (se : SymExpr)
| ECall (id : nat) (callee : Callee) (actuals : list Expr)
| EDef (id : nat) (sym : Symbol)
| EGoto (id : nat) (label : nat)
| ECond (id : nat) (condExpr thenStmt elseStmt : Expr)
| EBlock (id : nat) (body : list Expr).

(** Modelled from the spec: the CallExpr class of expr.h, seen from a call
    node. *)
Record CallExpr : Type := mkCallExpr {
  call_id : nat;
  call_callee : Callee;
  call_actuals : list Expr
}.

(** Modelled from the spec: the DefExpr class of expr.h. *)
Record DefExpr : Type := mkDefExpr {
  def_id : nat;
  def_sym : Symbol
}.

(** The address of a node. *)
Definition exprId (e : Expr) : nat :=
  match e with
  | ESym se => se_id se
  | ECall id _ _ | EDef id _ | EGoto id _ | ECond id _ _ _ | EBlock id _ => id
  end.

(** Modelled from the spec: the cast toSymExpr of expr.h. *)
Definition toSymExpr (e : Expr) : option SymExpr :=
  match e with ESym se => Some se | _ => None end.

(** Modelled from the spec: the cast toCallExpr of expr.h. *)
Definition toCallExpr (e : Expr) : option CallExpr :=
  match e with
  | ECall id c a => Some (mkCallExpr id c a)
  | _ => None
  end.

(** Modelled from the spec: the test isGotoStmt of stmt.h; it holds of goto
    statements only. *)
Definition isGotoStmt (e : Expr) : bool :=
  match e with EGoto _ _ => true | _ => false end.

(** Modelled from the spec: the test IS_STMT of expr.h: block, conditional
    and goto statements. *)
Definition IS_STMT (e : Expr) : bool :=
  match e with
  | EBlock _ _ | ECond _ _ _ _ | EGoto _ _ => true
  | _ => false
  end.

(** Modelled from the spec: CallExpr::isResolved. *)
Definition isResolved (call : CallExpr) : option FnSymbol :=
  match call_callee call with Resolved fn => Some fn | Primitive _ _ => None end.

(** Modelled from the spec: CallExpr::isPrimitive(tag). *)
Definition isPrimitive (call : CallExpr) (tag : PrimitiveTag) : bool :=
  match call_callee call with
  | Primitive t _ => bool_decide (t = tag)
  | Resolved _ => false
  end.

(** Modelled from the spec: CallExpr::typeInfo, the result type. *)
Definition typeInfo (call : CallExpr) : Type_ :=
  match call_callee call with
  | Primitive _ t => t
  | Resolved fn => retType fn
  end.

(** Modelled from the spec: CallExpr::get(i), the i-th actual, counted from
    1 (section 6, operand accessors); indexing past the end of the list is an
    internal error. *)
Definition get (call : CallExpr) (i : nat) : Result Expr :=
  match i with
  | O => IntFatal ListOutOfBounds
  | S j =>
      match call_actuals call !! j with
      | Some e => Done e
      | None => IntFatal ListOutOfBounds
      end
  end.

(** The first result that [f] gives along [l]. *)
Definition firstSome {A B : Type} (f : A → option B) : list A → option B :=
  fix go (l : list A) : option B :=
    match l with
    | [] => None
    | x :: r => match f x with Some y => Some y | None => go r end
    end.

(** Modelled from the spec: collectSymExprsSTL of astutil.h (section 6:
    collect every symbol-reference node under a subtree), left to right. *)
Fixpoint collectSymExprsSTL (e : Expr) : list SymExpr :=
  match e with
  | ESym se => [se]
  | ECall _ _ actuals => flat_map collectSymExprsSTL actuals
  | EDef _ _ => []
  | EGoto _ _ => []
  | ECond _ c t f =>
      collectSymExprsSTL c ++ collectSymExprsSTL t ++ collectSymExprsSTL f
  | EBlock _ body => flat_map collectSymExprsSTL body
  end.

(** Modelled from the spec: collectDefExprsSTL of astutil.h (section 6:
    iteration over the definitions reachable from a function), in the same
    order. *)
Fixpoint collectDefExprsSTL (e : Expr) : list DefExpr :=
  match e with
  | ESym _ => []
  | ECall _ _ actuals => flat_map collectDefExprsSTL actuals
  | EDef id sym => [mkDefExpr id sym]
  | EGoto _ _ => []
  | ECond _ c t f =>
      collectDefExprsSTL c ++ collectDefExprsSTL t ++ collectDefExprsSTL f
  | EBlock _ body => flat_map collectDefExprsSTL body
  end.

(** Modelled from the spec: the parentExpr field of expr.h (section 6:
    enclosing-expression pointers).  [parentExprIn root id] is the parent of
    the node at address [id], found by walking down from [root]. *)
Fixpoint parentExprIn (root : Expr) (id : nat) : option Expr :=
  let child (c : Expr) : option Expr :=
    if decide (exprId c = id) then Some root else parentExprIn c id in
  let children (l : list Expr) : option Expr :=
    firstSome (λ c, if decide (exprId c = id) then Some root
                    else parentExprIn c id) l in
  match root with
  | ESym _ | EDef _ _ | EGoto _ _ => None
  | ECall _ _ actuals => children actuals
  | ECond _ c t f =>
      match child c with
      | Some p => Some p
      | None => match child t with Some p => Some p | None => child f end
      end
  | EBlock _ body => children body
  end.

(** Modelled from the spec: Expr::getStmtExpr of expr.h, which yields the
    statement that an expression of a block belongs to (section 4.5, the
    block's last statement): walking up from the node at [id], the first
    node that is a statement (IS_STMT) or whose parent is a block statement.
    [up] is the answer for the parent of [e] and [inBlock] tells whether that
    parent is a block statement. *)
Fixpoint getStmtExprIn (id : nat) (up : option Expr) (inBlock : bool)
    (e : Expr) : option Expr :=
  let me := if IS_STMT e || inBlock then Some e else up in
  if decide (exprId e = id) then me else
  match e with
  | ESym _ | EDef _ _ | EGoto _ _ => None
  | ECall _ _ actuals => firstSome (getStmtExprIn id me false) actuals
  | ECond _ c t f =>
      match getStmtExprIn id me false c with
      | Some s => Some s
      | None =>
          match getStmtExprIn id me false t with
          | Some s => Some s
          | None => getStmtExprIn id me false f
          end
      end
  | EBlock _ body => firstSome (getStmtExprIn id me true) body
  end.

(** Modelled from the spec: e->getStmtExpr(), in the tree [root]. *)
Definition getStmtExpr (root : Expr) (e : Expr) : option Expr :=
  getStmtExprIn (exprId e) None false root.

(** Modelled from the spec: the list splice behind Expr::insertBefore and
    Expr::insertAfter (section 6, IR mutation): in the first statement list
    that holds the statement at address [tgt], [new] becomes its immediate
    predecessor or successor. *)
Definition insertInList (rec : Expr → option Expr) (before : bool) (tgt : nat)
    (new : Expr) : list Expr → option (list Expr) :=
  fix go (l : list Expr) : option (list Expr) :=
    match l with
    | [] => None
    | s :: r =>
        if decide (exprId s = tgt)
        then Some (if before then new :: s :: r else s :: new :: r)
        else match rec s with
             | Some s' => Some (s' :: r)
             | None => match go r with
                       | Some r' => Some (s :: r')
                       | None => None
                       end
             end
    end.

(** Modelled from the spec: the same splice, looking for the statement list
    under [e]; [None] when no statement list under [e] holds [tgt]. *)
Fixpoint insertAt (before : bool) (tgt : nat) (new : Expr) (e : Expr)
  : option Expr :=
  match e with
  | ESym _ | EDef _ _ | EGoto _ _ | ECall _ _ _ => None
  | ECond id c t f =>
      match insertAt before tgt new t with
      | Some t' => Some (ECond id c t' f)
      | None =>
          match insertAt before tgt new f with
          | Some f' => Some (ECond id c t f')
          | None => None
          end
      end
  | EBlock id body =>
      match insertInList (insertAt before tgt new) before tgt new body with
      | Some body' => Some (EBlock id body')
      | None => None
      end
  end.

(** Modelled from the spec: stmt->insertBefore(new) for the statement at
    address [tgt]; a statement that is in no list is an internal error. *)
Definition insertBefore (tgt : nat) (new root : Expr) : Result Expr :=
  match insertAt true tgt new root with
  | Some root' => Done root'
  | None => IntFatal ListOutOfBounds
  end.

(** Modelled from the spec: stmt->insertAfter(new) for the statement at
    address [tgt]. *)
Definition insertAfter (tgt : nat) (new root : Expr) : Result Expr :=
  match insertAt false tgt new root with
  | Some root' => Done root'
  | None => IntFatal ListOutOfBounds
  end.

(** The statements before and after the statement at address [tgt] in a
    list, [pre] being the statements already passed. *)
Definition siblingsInList (rec : Expr → option (list Expr * list Expr))
    (tgt : nat) : list Expr → list Expr → option (list Expr * list Expr) :=
  fix go (pre l : list Expr) : option (list Expr * list Expr) :=
    match l with
    | [] => None
    | s :: r =>
        if decide (exprId s = tgt) then Some (pre, r)
        else match rec s with
             | Some res => Some res
             | None => go (pre ++ [s]) r
             end
    end.

(** The statements before and after the statement at address [tgt] in the
    list that holds it; the search visits the lists in the order of
    [insertAt].  This is how the theorems below observe where a call went. *)
Fixpoint siblingsOf (tgt : nat) (e : Expr) : option (list Expr * list Expr) :=
  match e with
  | ESym _ | EDef _ _ | EGoto _ _ | ECall _ _ _ => None
  | ECond _ _ t f =>
      match siblingsOf tgt t with
      | Some r => Some r
      | None => siblingsOf tgt f
      end
  | EBlock _ body => siblingsInList (siblingsOf tgt) tgt [] body
  end.

(** The number of statements in the statement lists under [e]. *)
Fixpoint stmtCount (e : Expr) : nat :=
  match e with
  | ESym _ | EDef _ _ | EGoto _ _ | ECall _ _ _ => 0
  | ECond _ _ t f => stmtCount t + stmtCount f
  | EBlock _ body => length body + sum_list (map stmtCount body)
  end.

(** ** Basic blocks *)

(** Modelled from the spec: the BasicBlock class of bb.h is not part of the
    file.  Section 3: a list of IR expressions in program order, plus
    predecessor and successor edges (held as block indices). *)
Record BasicBlock : Type := mkBB {
  exprs : list Expr;
  ins : list nat;
  outs : list nat
}.

(** Modelled from the spec: a function of the program, as the pass sees it:
    its symbol, its formals, its body.  [next_expr] is the address that the
    next [new CallExpr] receives (a call and its actual take two
    addresses). *)
Record Fn : Type := mkFn {
  fn_sym : FnSymbol;
  fn_formals : list Expr;
  fn_body : Expr;
  next_expr : nat
}.

(** Monadic iteration, the shape of every [for_vector] loop of the pass. *)
Fixpoint forEach {A S : Type} (f : S → A → Result S) (l : list A) (s : S)
  : Result S :=
  match l with
  | [] => Done s
  | x :: r => s' ← f s x ; forEach f r s'
  end.

(** std::map::insert: an existing key keeps its value. *)
Definition map_insert_new {V : Type} (k : nat) (v : V) (m : gmap nat V)
  : gmap nat V :=
  match m !! k with Some _ => m | None => <[k := v]> m end.

(** ** extractSymbols *)

(** What extractSymbols fills in: the vector of symbols, the index map and
    the alias map. *)
Record Extracted : Type := mkExtracted {
  symbols : SymbolVector;
  symbolIndex : SymbolIndexMap;
  aliases : AliasVectorMap
}.

(** The alias map and the extraction state before the first definition. *)
Definition emptyAliases : AliasVectorMap :=
  {| entries := ∅; lists := ∅; next_list := 1 |}.

Definition emptyExtracted : Extracted :=
  {| symbols := []; symbolIndex := ∅; aliases := emptyAliases |}.

(** The body of the loop of extractSymbols, for one definition. *)
Definition extractSymbols_step (st : Extracted) (def : DefExpr)
  : Result Extracted :=
  let sym := def_sym def in
  (* We are interested only in arguments and variables. *)
  if negb (match sym_kind sym with ArgSymbol | VarSymbol => true | _ => false end)
  then Done st else
  let type := sym_type sym in
  if FLAG_EXTERN type then Done st else
  (* We are concerned only with record types. *)
  if negb (isRecord type) then Done st else
  let symbolIndex' := map_insert_new (sym_id sym) (length (symbols st))
                        (symbolIndex st) in
  let symbols' := symbols st ++ [sym] in
  index ← symbolIndex_at symbolIndex' sym ;
  _ ← INT_ASSERT (bool_decide (sym_id <$> symbols' !! index = Some (sym_id sym)))
        AssertSymbolIndex ;
  (* aliasList = new SymbolVector(); aliasList->push_back(sym) *)
  let al := aliases st in
  let aliasList := next_list al in
  Done {| symbols := symbols';
          symbolIndex := symbolIndex';
          aliases := {| entries := map_insert_new (sym_id sym) aliasList (entries al);
                        lists := <[aliasList := [sym]]> (lists al);
                        next_list := S aliasList |} |}.

(** extractSymbols: scans the function and enters every variable and argument
    of record type into the vector, the index map and the alias map. *)
Definition extractSymbols (fn : Fn) : Result Extracted :=
  let defExprs := flat_map collectDefExprsSTL (fn_formals fn)
                  ++ collectDefExprsSTL (fn_body fn) in
  forEach extractSymbols_step defExprs emptyExtracted.

(** ** The recognizers *)

(** Returns true if this function returns a fully-constructed value. *)
Definition isConstructor (call : CallExpr) : bool :=
  match isResolved call with
  | Some fn => negb (isClass (retType fn))
  | None => negb (isClass (typeInfo call))
  end.

(** call->isPrimitive(PRIM_MOVE) || call->isPrimitive(PRIM_ASSIGN). *)
Definition isMoveOrAssign (call : CallExpr) : bool :=
  isPrimitive call PRIM_MOVE || isPrimitive call PRIM_ASSIGN.

(** processConstructor: ('move' lhs (construct <args>)) sets the GEN bit of
    the symbol of [se]. *)
Definition processConstructor (call : CallExpr) (se : SymExpr) (gen : BitVec)
    (symbolIndex : SymbolIndexMap) : Result BitVec :=
  if isMoveOrAssign call then
    rhs ← get call 2 ;
    match toCallExpr rhs with
    | Some rhsCall =>
        if isConstructor rhsCall then
          let sym := var se in
          index ← symbolIndex_at symbolIndex sym ;
          _ ← INT_ASSERT (negb (BitVec_get gen index)) AssertGenClear ;
          Done (BitVec_set gen index)
        else Done gen
    | None => Done gen
    end
  else Done gen.

Section Pass.

(** The process-wide warning switch, the table of auto-destroy functions
    (resolution.h) and the bound on the iterations of the loops that need
    one. *)
Variable fWarnOwnership : bool.
Variable autoDestroyMap : Type_ → FnSymbol.
Variable fuel : nat.

(** The state that processMove updates: the GEN vector of the block, the
    alias map, and the symbols at which USR_WARN reported
    "Uninitialized symbol is copied here". *)
Record MoveState : Type := mkMoveState {
  ms_gen : BitVec;
  ms_aliases : AliasVectorMap;
  ms_warnings : list Symbol
}.

(** processMove: a bitwise copy from one symbol to another. *)
Definition processMove (call : CallExpr) (se : SymExpr) (st : MoveState)
    (symbolIndex : SymbolIndexMap) : Result MoveState :=
  (* We only care about bitwise copies here. *)
  if isMoveOrAssign call then
    e1 ← get call 1 ;
    match toSymExpr e1 with
    | Some lhs =>
        if decide (se_id lhs = se_id se) then
          e2 ← get call 2 ;
          match toSymExpr e2 with
          | Some rhs =>
              let lsym := var lhs in
              let rsym := var rhs in
              lindex ← symbolIndex_at symbolIndex lsym ;
              rindex ← symbolIndex_at symbolIndex rsym ;
              let gen := ms_gen st in
              (* Copy ownership state from RHS. *)
              _ ← INT_ASSERT (negb (BitVec_get gen lindex)) AssertGenClear ;
              let '(gen', warnings') :=
                if negb (BitVec_get gen rindex)
                then (gen, if fWarnOwnership then ms_warnings st ++ [rsym]
                           else ms_warnings st)
                else (BitVec_set gen lindex, ms_warnings st) in
              (* Merge aliases whether or not they are live. *)
              aliases' ← mergeAliases fuel rsym lsym (ms_aliases st) ;
              Done {| ms_gen := gen'; ms_aliases := aliases';
                      ms_warnings := warnings' |}
          | None => Done st
          end
        else Done st
    | None => Done st
    end
  else Done st.

(** The body of the loop of processDestructor(se, kill, aliases,
    symbolIndex), for one member of the clique. *)
Definition processDestructor_step (symbolIndex : SymbolIndexMap)
    (kill : BitVec) (alias : Symbol) : Result BitVec :=
  index ← symbolIndex_at symbolIndex alias ;
  (* We expect a symbol to be live when it is killed. *)
  _ ← INT_ASSERT (negb (BitVec_get kill index)) AssertKillClear ;
  Done (BitVec_set kill index).

(** processDestructor(se, kill, aliases, symbolIndex): add all members of an
    alias clique to the kill set. *)
Definition processDestructor_clique (se : SymExpr) (kill : BitVec)
    (aliases : AliasVectorMap) (symbolIndex : SymbolIndexMap)
  : Result BitVec :=
  let sym := var se in
  aliasList ← members aliases sym ;
  forEach (processDestructor_step symbolIndex) aliasList kill.

(** processDestructor(call, se, kill, aliases, symbolIndex): if this call
    acts like a destructor, add the symbols it affects to the kill set. *)
Definition processDestructor (call : CallExpr) (se : SymExpr) (kill : BitVec)
    (aliases : AliasVectorMap) (symbolIndex : SymbolIndexMap)
  : Result BitVec :=
  match isResolved call with
  | Some fn =>
      (* The only one we're interested in right now is a destructor call. *)
      if FLAG_DESTRUCTOR fn then
        e1 ← get call 1 ;
        _ ← INT_ASSERT (bool_decide (exprId e1 = se_id se)) AssertFirstActual ;
        processDestructor_clique se kill aliases symbolIndex
      else Done kill
  | None =>
      if isPrimitive call PRIM_RETURN then
        (* Returns act like destructors. *)
        processDestructor_clique se kill aliases symbolIndex
      else Done kill
  end.

(** ** computeTransitions *)

(** What the scan of a block updates: the GEN and KILL vectors of the block,
    the alias map and the warning log. *)
Record Transitions : Type := mkTransitions {
  gen : BitVec;
  kill : BitVec;
  tr_aliases : AliasVectorMap;
  warnings : list Symbol
}.

(** The body of the loop of computeTransitions(symExprs, ...). *)
Definition computeTransitions_symExpr (root : Expr)
    (symbolIndex : SymbolIndexMap) (st : Transitions) (se : SymExpr)
  : Result Transitions :=
  let sym := var se in
  (* We are only interested in local symbols. *)
  match symbolIndex !! sym_id sym with
  | None => Done st
  | Some _ =>
      match parentExprIn root (se_id se) ≫= toCallExpr with
      | Some call =>
          gen1 ← processConstructor call se (gen st) symbolIndex ;
          ms ← processMove call se
                 {| ms_gen := gen1; ms_aliases := tr_aliases st;
                    ms_warnings := warnings st |} symbolIndex ;
          kill' ← processDestructor call se (kill st) (ms_aliases ms)
                    symbolIndex ;
          Done {| gen := ms_gen ms; kill := kill';
                  tr_aliases := ms_aliases ms; warnings := ms_warnings ms |}
      | None => Done st
      end
  end.

(** computeTransitions(symExprs, gen, kill, aliases, symbolIndex). *)
Definition computeTransitions_symExprs (root : Expr)
    (symExprs : list SymExpr) (symbolIndex : SymbolIndexMap)
    (st : Transitions) : Result Transitions :=
  forEach (computeTransitions_symExpr root symbolIndex) symExprs st.

(** computeTransitions(bb, gen, kill, aliases, symbolIndex). *)
Definition computeTransitions_bb (root : Expr) (bb : BasicBlock)
    (symbolIndex : SymbolIndexMap) (st : Transitions) : Result Transitions :=
  forEach (λ st expr,
             computeTransitions_symExprs root (collectSymExprsSTL expr)
               symbolIndex st)
          (exprs bb) st.

(** The flow sets and the alias map after the scan of some blocks. *)
Record FnTransitions : Type := mkFnTransitions {
  GEN : FlowSet;
  KILL : FlowSet;
  fn_aliases : AliasVectorMap;
  fn_warnings : list Symbol
}.

(** F[i] for a flow set. *)
Definition flowSet_at (F : FlowSet) (i : nat) : Result BitVec :=
  match F !! i with Some v => Done v | None => Undefined VectorIndex end.

(** computeTransitions(fn, GEN, KILL, aliases, symbolIndex). *)
Definition computeTransitions_fn (root : Expr) (bbs : list BasicBlock)
    (symbolIndex : SymbolIndexMap) (st : FnTransitions)
  : Result FnTransitions :=
  forEach (λ st i,
             bb ← match bbs !! i with
                  | Some bb => Done bb
                  | None => Undefined VectorIndex
                  end ;
             g ← flowSet_at (GEN st) i ;
             k ← flowSet_at (KILL st) i ;
             t ← computeTransitions_bb root bb symbolIndex
                   {| gen := g; kill := k; tr_aliases := fn_aliases st;
                      warnings := fn_warnings st |} ;
             Done {| GEN := <[i := gen t]> (GEN st);
                     KILL := <[i := kill t]> (KILL st);
                     fn_aliases := tr_aliases t;
                     fn_warnings := warnings t |})
          (seq 0 (length bbs)) st.

(** ** Forward flow

    BasicBlock::forwardFlowAnalysis (bb.cpp) is not part of the file.
    Section 4.4 of the specification: IN[entry] = ∅, IN[b] = ⋂ OUT[p] over
    the predecessors p of b (∅ when there is none),
    OUT[b] = (IN[b] \ KILL[b]) ∪ GEN[b], iterated to a fixpoint. *)

(** Modelled from the spec: the IN equation of forwardFlowAnalysis.  Block 0
    is the entry block. *)
Definition flow_in (OUT : FlowSet) (size : nat) (i : nat) (bb : BasicBlock)
  : BitVec :=
  if decide (i = 0) then BitVec_new size else
  match ins bb with
  | [] => BitVec_new size
  | preds =>
      foldr (λ p acc, BitVec_intersection (default [] (OUT !! p)) acc)
            (replicate size true) preds
  end.

(** Modelled from the spec: the OUT equation of forwardFlowAnalysis,
    OUT = (IN \ KILL) ∪ GEN. *)
Definition flow_out (in_ : BitVec) (kill_gen : BitVec * BitVec) : BitVec :=
  (in_ -ᵇ kill_gen.1) +ᵇ kill_gen.2.

(** Modelled from the spec: one round of forwardFlowAnalysis over all the
    blocks. *)
Definition flow_sweep (bbs : list BasicBlock) (GEN KILL : FlowSet)
    (IN OUT : FlowSet) : FlowSet * FlowSet :=
  let IN' := imap (λ i bb, flow_in OUT (length (default [] (IN !! i))) i bb)
                  bbs in
  (IN', zip_with flow_out IN' (zip KILL GEN)).

(** Modelled from the spec: forwardFlowAnalysis iterates until a round
    changes nothing. *)
Fixpoint forwardFlowAnalysis_iter (n : nat) (bbs : list BasicBlock)
    (GEN KILL IN OUT : FlowSet) : Result (FlowSet * FlowSet) :=
  match n with
  | O => OutOfFuel
  | S n' =>
      let '(IN', OUT') := flow_sweep bbs GEN KILL IN OUT in
      if decide (IN' = IN ∧ OUT' = OUT) then Done (IN, OUT)
      else forwardFlowAnalysis_iter n' bbs GEN KILL IN' OUT'
  end.

(** Modelled from the spec: BasicBlock::forwardFlowAnalysis(fn, GEN, KILL,
    IN, OUT, true) of bb.cpp, which is not part of the file. *)
Definition forwardFlowAnalysis (bbs : list BasicBlock)
    (GEN KILL IN OUT : FlowSet) : Result (FlowSet * FlowSet) :=
  forwardFlowAnalysis_iter fuel bbs GEN KILL IN OUT.

(** ** Placement *)

(** This predicate determines if the given statement is a jump. *)
Definition isJump (stmt : Expr) : bool :=
  (* A goto is definitely a jump. *)
  if isGotoStmt stmt then true else
  (* A return primitive works like a jump. *)
  match toCallExpr stmt with
  | Some call => if isPrimitive call PRIM_RETURN then true else false
  | None => false
  end.

(** Modelled from the spec: the constructor of CallExpr (section 6:
    call-expression construction from a function handle and a symbol
    reference), here new CallExpr(autoDestroyMap.get(sym->type), sym),
    allocated at [next]. *)
Definition newAutoDestroyCall (next : nat) (sym : Symbol) : Expr :=
  ECall next (Resolved (autoDestroyMap (sym_type sym)))
        [ESym {| se_id := S next; var := sym |}].

(** symbols[j]. *)
Definition vector_at (symbols : SymbolVector) (j : nat) : Result Symbol :=
  match symbols !! j with Some s => Done s | None => Undefined VectorIndex end.

(** One iteration of the loop over the bits of [to_kill]. *)
Definition insertAutoDestroy_bit (stmt : option Expr) (isjump : bool)
    (to_kill : BitVec) (symbols : SymbolVector) (fn : Fn) (j : nat)
  : Result Fn :=
  if BitVec_get to_kill j then
    sym ← vector_at symbols j ;
    let autoDestroyCall := newAutoDestroyCall (next_expr fn) sym in
    match stmt with
    | None => Undefined BadPointer
    | Some s =>
        body' ← (if isjump then insertBefore (exprId s) autoDestroyCall
                 else insertAfter (exprId s) autoDestroyCall) (fn_body fn) ;
        Done {| fn_sym := fn_sym fn; fn_formals := fn_formals fn;
                fn_body := body'; next_expr := S (S (next_expr fn)) |}
    end
  else Done fn.

(** insertAutoDestroy(bb, to_kill, symbols): at the end of this basic block,
    insert an autodestroy for each symbol specified by the bit-vector. *)
Definition insertAutoDestroy_bb (bb : BasicBlock) (to_kill : BitVec)
    (symbols : SymbolVector) (fn : Fn) : Result Fn :=
  (* Skip degenerate basic blocks. *)
  match last (exprs bb) with
  | None => Done fn
  | Some last_ =>
      (* Find the last statement in the block. *)
      let stmt := getStmtExpr (fn_body fn) last_ in
      let isjump := match stmt with Some s => isJump s | None => false end in
      forEach (insertAutoDestroy_bit stmt isjump to_kill symbols)
              (seq 0 (length to_kill)) fn
  end.

(** The body of the loop of insertAutoDestroy(fn, GEN, KILL, IN, OUT,
    symbols), for block [i]. *)
Definition insertAutoDestroy_block (bbs : list BasicBlock)
    (GEN KILL IN OUT : FlowSet) (symbols : SymbolVector) (fn : Fn) (i : nat)
  : Result Fn :=
  bb ← match bbs !! i with
       | Some bb => Done bb
       | None => Undefined VectorIndex
       end ;
  in_ ← flowSet_at IN i ;
  g ← flowSet_at GEN i ;
  k ← flowSet_at KILL i ;
  out ← flowSet_at OUT i ;
  let to_kill := in_ +ᵇ g -ᵇ k -ᵇ out in
  insertAutoDestroy_bb bb to_kill symbols fn.

(** insertAutoDestroy(fn, GEN, KILL, IN, OUT, symbols). *)
Definition insertAutoDestroy_flow (bbs : list BasicBlock)
    (GEN KILL IN OUT : FlowSet) (symbols : SymbolVector) (fn : Fn)
  : Result Fn :=
  forEach (insertAutoDestroy_block bbs GEN KILL IN OUT symbols)
          (seq 0 (length bbs)) fn.

(** ** Tear-down and orchestration *)

(** The body of the loop of destroyAliasVectorMap, for one key. *)
Definition destroyAliasVectorMap_step (al : AliasVectorMap) (key : nat)
  : Result AliasVectorMap :=
  let p := default NULL (entries al !! key) in
  if decide (p = NULL) then Done al else
  aliasList ← deref (lists al) p ;
  Done {| entries := foldr (λ sym m, <[sym_id sym := NULL]> m) (entries al)
                       aliasList;
          lists := delete p (lists al);
          next_list := next_list al |}.

(** destroyAliasVectorMap: for every entry that is not NULL, detach the list
    from all the entries of its members, then delete it.  The map is walked in
    the order of its keys. *)
Definition destroyAliasVectorMap (al : AliasVectorMap) : Result AliasVectorMap :=
  forEach destroyAliasVectorMap_step
          (merge_sort (≤) (elements (dom (entries al)))) al.

(** The basic-block builder (bb.cpp), which is outside the file. *)
Variable buildBasicBlocks : Fn → list BasicBlock.

(** The first half of insertAutoDestroy(fn): symbols, transitions and flow
    sets, before the function is touched. *)
Record Analysis : Type := mkAnalysis {
  an_symbols : SymbolVector;
  an_GEN : FlowSet;
  an_KILL : FlowSet;
  an_IN : FlowSet;
  an_OUT : FlowSet;
  an_aliases : AliasVectorMap;
  an_warnings : list Symbol
}.

Definition analyse (fn : Fn) : Result Analysis :=
  let bbs := buildBasicBlocks fn in
  let nbbs := length bbs in
  ex ← extractSymbols fn ;
  let size := length (symbols ex) in
  t ← computeTransitions_fn (fn_body fn) bbs (symbolIndex ex)
        {| GEN := createFlowSet nbbs size; KILL := createFlowSet nbbs size;
           fn_aliases := aliases ex; fn_warnings := [] |} ;
  '(IN, OUT) ← forwardFlowAnalysis bbs (GEN t) (KILL t)
                 (createFlowSet nbbs size) (createFlowSet nbbs size) ;
  Done {| an_symbols := symbols ex; an_GEN := GEN t; an_KILL := KILL t;
          an_IN := IN; an_OUT := OUT; an_aliases := fn_aliases t;
          an_warnings := fn_warnings t |}.

(** need[b] = (IN[b] ∪ GEN[b]) \ KILL[b] \ OUT[b], the vector [to_kill]. *)
Definition need (a : Analysis) (i : nat) : Result BitVec :=
  in_ ← flowSet_at (an_IN a) i ;
  g ← flowSet_at (an_GEN a) i ;
  k ← flowSet_at (an_KILL a) i ;
  out ← flowSet_at (an_OUT a) i ;
  Done (in_ +ᵇ g -ᵇ k -ᵇ out).

(** What one run of insertAutoDestroy(fn) leaves behind: the function and the
    warnings that were reported. *)
Definition insertAutoDestroy_fn (fn : Fn) : Result (Fn * list Symbol) :=
  a ← analyse fn ;
  fn' ← insertAutoDestroy_flow (buildBasicBlocks fn) (an_GEN a) (an_KILL a)
          (an_IN a) (an_OUT a) (an_symbols a) fn ;
  _ ← destroyAliasVectorMap (an_aliases a) ;
  Done (fn', an_warnings a).

(** insertAutoDestroy(): every function of the program that has a body. *)
Definition insertAutoDestroy (gFnSymbols : list Fn)
  : Result (list Fn * list Symbol) :=
  forEach (λ acc fn,
             (* Function prototypes have no body, so we skip them. *)
             if FLAG_FUNCTION_PROTOTYPE (fn_sym fn)
             then Done (acc.1 ++ [fn], acc.2)
             else
               '(fn', w) ← insertAutoDestroy_fn fn ;
               Done (acc.1 ++ [fn'], acc.2 ++ w))
          gFnSymbols ([], []).

(** insertAutoCopyAutoDestroy: first of all, just insert autoDestroy calls. *)
Definition insertAutoCopyAutoDestroy (gFnSymbols : list Fn)
  : Result (list Fn * list Symbol) :=
  insertAutoDestroy gFnSymbols.

End Pass.

(** ** Vocabulary of the statements below *)

(** The call resolves to a function flagged as a destructor. *)
Definition isDestructorCall (call : CallExpr) : bool :=
  match isResolved call with
  | Some fn => FLAG_DESTRUCTOR fn
  | None => false
  end.

(** The call is the return primitive. *)
Definition isReturnCall (call : CallExpr) : bool :=
  match isResolved call with
  | Some _ => false
  | None => isPrimitive call PRIM_RETURN
  end.

(** The reference [se] is the first actual of [call]. *)
Definition firstActualIs (call : CallExpr) (se : SymExpr) : Prop :=
  ∃ e1, get call 1 = Done e1 ∧ exprId e1 = se_id se.

(** [idxs] are the indices of the symbols [ms], in order. *)
Definition indexedBy (symbolIndex : SymbolIndexMap) (ms : list Symbol)
    (idxs : list nat) : Prop :=
  Forall2 (λ s i, symbolIndex !! sym_id s = Some i) ms idxs.

(** [v'] is [v] with the bits [idxs] switched on. *)
Definition bitsSet (v v' : BitVec) (idxs : list nat) : Prop :=
  length v' = length v
  ∧ ∀ j, BitVec_get v' j = BitVec_get v j || bool_decide (j ∈ idxs).

(** The indices of the bits that are set, in ascending order. *)
Definition needIndices (to_kill : BitVec) : list nat :=
  filter (λ j, BitVec_get to_kill j = true) (seq 0 (length to_kill)).

(** [e] is a freshly built auto-destroy call on [symbols[j]]. *)
Definition isAutoDestroyCallAt (autoDestroyMap : Type_ → FnSymbol)
    (symbols : SymbolVector) (j : nat) (e : Expr) : Prop :=
  ∃ sym id, symbols !! j = Some sym
            ∧ e = newAutoDestroyCall autoDestroyMap id sym.




(** Induction over expressions, with the hypothesis available for every
    element of a list of actuals or of statements. *)
Section ExprInduction.

Variable P : Expr → Prop.
Hypothesis HSym : ∀ se, P (ESym se).
Hypothesis HCall : ∀ id callee actuals, Forall P actuals → P (ECall id callee actuals).
Hypothesis HDef : ∀ id sym, P (EDef id sym).
Hypothesis HGoto : ∀ id label, P (EGoto id label).
Hypothesis HCond : ∀ id c t f, P c → P t → P f → P (ECond id c t f).
Hypothesis HBlock : ∀ id body, Forall P body → P (EBlock id body).

Fixpoint Expr_nested_ind (e : Expr) : P e :=
  let all := fix all (l : list Expr) : Forall P l :=
    match l with
    | [] => Forall_nil_2 P
    | x :: r => Forall_cons_2 P x r (Expr_nested_ind x) (all r)
    end in
  match e with
  | ESym se => HSym se
  | ECall id callee actuals => HCall id callee actuals (all actuals)
  | EDef id sym => HDef id sym
  | EGoto id label => HGoto id label
  | ECond id c t f =>
      HCond id c t f (Expr_nested_ind c) (Expr_nested_ind t) (Expr_nested_ind f)
  | EBlock id body => HBlock id body (all body)
  end.

End ExprInduction.

(** What an insertion does to the neighbours of the target, and to the number
    of statements. *)
Definition insertAt_spec (before : bool) (tgt : nat) (new e : Expr) : Prop :=
  (siblingsOf tgt e = None → insertAt before tgt new e = None)
  ∧ ∀ pre post, siblingsOf tgt e = Some (pre, post) →
      ∃ e', insertAt before tgt new e = Some e'
            ∧ siblingsOf tgt e'
              = Some (if before then (pre ++ [new], post)
                      else (pre, new :: post))
            ∧ stmtCount e' = S (stmtCount e + stmtCount new).

(** The nodes whose parentExpr is [e]. *)
Definition childrenOf (e : Expr) : list Expr :=
  match e with
  | ESym _ | EDef _ _ | EGoto _ _ => []
  | ECall _ _ actuals => actuals
  | ECond _ c t f => [c; t; f]
  | EBlock _ body => body
  end.

(** ** Vocabulary of the further properties *)

(** The test that extractSymbols applies to the symbol of a definition:
    an argument or a variable, of a type that is not extern and is a
    record. *)
Definition admitted (sym : Symbol) : bool :=
  match sym_kind sym with ArgSymbol | VarSymbol => true | _ => false end
  && negb (FLAG_EXTERN (sym_type sym))
  && isRecord (sym_type sym).

(** The definitions that extractSymbols walks over. *)
Definition defExprsOf (fn : Fn) : list DefExpr :=
  flat_map collectDefExprsSTL (fn_formals fn) ++ collectDefExprsSTL (fn_body fn).

(** Every entry that is not NULL points at a live list, the list holds the
    symbol of the entry, and the entries of all the members of the list point
    at that same list. *)
Definition cliquesConsistent (a : AliasVectorMap) : Prop :=
  ∀ k p, entries a !! k = Some p → p ≠ NULL →
    ∃ l, lists a !! p = Some l
         ∧ (∃ s, s ∈ l ∧ sym_id s = k)
         ∧ ∀ s, s ∈ l → entries a !! sym_id s = Some p.

(** What holds of the three structures while extractSymbols fills them. *)
Definition extractedInv (ex : Extracted) : Prop :=
  (∀ k i, symbolIndex ex !! k = Some i →
          ∃ s, symbols ex !! i = Some s ∧ sym_id s = k)
  ∧ (∀ s, s ∈ symbols ex → is_Some (symbolIndex ex !! sym_id s))
  ∧ (∀ k p, entries (aliases ex) !! k = Some p →
            p ≠ NULL ∧ p < next_list (aliases ex)
            ∧ ∃ s, lists (aliases ex) !! p = Some [s] ∧ sym_id s = k
                   ∧ s ∈ symbols ex)
  ∧ (∀ k, is_Some (symbolIndex ex !! k) →
          is_Some (entries (aliases ex) !! k))
  ∧ 0 < next_list (aliases ex).

(** [v'] has the length of [v] and every bit that is set in [v]. *)
Definition grows (v v' : BitVec) : Prop :=
  length v' = length v
  ∧ ∀ j, BitVec_get v j = true → BitVec_get v' j = true.

(** How destroyAliasVectorMap may change an alias map: no key comes or goes,
    an entry is either kept or set to NULL, the list of an entry that was set
    to NULL is deleted, and only lists that an entry pointed at are
    deleted. *)
Definition detaches (a a' : AliasVectorMap) : Prop :=
  (∀ k, entries a' !! k = None ↔ entries a !! k = None)
  ∧ (∀ k, entries a !! k = Some NULL → entries a' !! k = Some NULL)
  ∧ (∀ k p, entries a' !! k = Some p → p ≠ NULL → entries a !! k = Some p)
  ∧ (∀ k p, entries a !! k = Some p → p ≠ NULL →
            entries a' !! k = Some NULL → lists a' !! p = None)
  ∧ (∀ q, lists a' !! q = None ∨ lists a' !! q = lists a !! q)
  ∧ (∀ q, lists a' !! q = None →
          lists a !! q = None ∨ (q ≠ NULL ∧ ∃ k, entries a !! k = Some q)).

(** What a scan may do to GEN, KILL and the warning log: set bits and append
    warnings, the latter only when the flag is on. *)
Definition advances (flag : bool) (st st' : Transitions) : Prop :=
  grows (gen st) (gen st') ∧ grows (kill st) (kill st')
  ∧ ∃ w, warnings st' = warnings st ++ w ∧ (flag = false → w = []).

(** The same for the flow sets of a function. *)
Definition advancesFn (flag : bool) (st st' : FnTransitions) : Prop :=
  Forall2 grows (GEN st) (GEN st') ∧ Forall2 grows (KILL st) (KILL st')
  ∧ ∃ w, fn_warnings st' = fn_warnings st ++ w ∧ (flag = false → w = []).

(** The outcome of a computation with [f] applied to what it returns. *)
Definition Result_map {A B : Type} (f : A → B) (r : Result A) : Result B :=
  match r with
  | Done a => Done (f a)
  | IntFatal e => IntFatal e
  | Undefined e => Undefined e
  | OutOfFuel => OutOfFuel
  end.

(** Two computations end the same way, and in values related by [R] when
    they return. *)
Definition sameOutcome {A B : Type} (R : A → B → Prop)
    (r1 : Result A) (r2 : Result B) : Prop :=
  match r1, r2 with
  | Done a, Done b => R a b
  | IntFatal e1, IntFatal e2 => e1 = e2
  | Undefined e1, Undefined e2 => e1 = e2
  | OutOfFuel, OutOfFuel => True
  | _, _ => False
  end.

(** Two states of a scan that differ in the warning log at most. *)
Definition sameButWarnings (s1 s2 : Transitions) : Prop :=
  gen s1 = gen s2 ∧ kill s1 = kill s2 ∧ tr_aliases s1 = tr_aliases s2.

(** The number of calls that block [i] receives: the number of set bits of
    its need vector, and none when the block is empty. *)
Definition insertedIn (bbs : list BasicBlock) (GEN KILL IN OUT : FlowSet)
    (i : nat) : nat :=
  match bbs !! i, IN !! i, GEN !! i, KILL !! i, OUT !! i with
  | Some bb, Some in_, Some g, Some k, Some out =>
      match last (exprs bb) with
      | Some _ => popcount (in_ +ᵇ g -ᵇ k -ᵇ out)
      | None => 0
      end
  | _, _, _, _, _ => 0
  end.



(** The call returns a value of a class type: the return type of the
    function it resolves to, or the result type of the primitive, is a
    class. *)
Definition returnsClass (callee : Callee) : bool :=
  match callee with
  | Resolved fn =>
      match type_tag (retType fn) with AggregateClass => true | _ => false end
  | Primitive _ ty =>
      match type_tag ty with AggregateClass => true | _ => false end
  end.

(** ** Concrete inputs

    A record type [tR] with constructor [ctor], destructor [dtorR] and
    auto-destroy function [D_R]; three record variables. *)
Module Scenario.

Definition tVoid : Type_ := mkType 0 PrimitiveType false.
Definition tR : Type_ := mkType 1 AggregateRecord false.
Definition tC : Type_ := mkType 2 AggregateClass false.

Definition x : Symbol := mkSymbol 10 VarSymbol tR.
Definition y : Symbol := mkSymbol 11 VarSymbol tR.
Definition z : Symbol := mkSymbol 12 VarSymbol tR.
Definition c : Symbol := mkSymbol 13 VarSymbol tC.

Definition ctor : FnSymbol := mkFnSymbol 100 false false tR.
Definition dtorR : FnSymbol := mkFnSymbol 101 true false tVoid.
Definition D_R : FnSymbol := mkFnSymbol 102 false false tVoid.
Definition autoDestroyMap (t : Type_) : FnSymbol := D_R.

Definition ref (id : nat) (s : Symbol) : Expr := ESym (mkSymExpr id s).
Definition move (id : nat) (lhs rhs : Expr) : Expr :=
  ECall id (Primitive PRIM_MOVE tVoid) [lhs; rhs].
Definition construct (id : nat) : Expr := ECall id (Resolved ctor) [].
Definition destruct_ (id : nat) (arg : Expr) : Expr :=
  ECall id (Resolved dtorR) [arg].
Definition return_ (id : nat) : Expr := ECall id (Primitive PRIM_RETURN tVoid) [].

Definition fnOf (stmts : list Expr) : Fn :=
  mkFn (mkFnSymbol 200 false false tVoid) [] (EBlock 0 stmts) 50.

(** A builder for straight-line bodies: one block holding every statement. *)
Definition oneBlock (fn : Fn) : list BasicBlock :=
  match fn_body fn with
  | EBlock _ stmts => [mkBB stmts [] []]
  | _ => []
  end.

Definition defs : list Expr := [EDef 1 x; EDef 2 y; EDef 3 z].

(** The alias map that extractSymbols builds for [x], [y], [z]. *)
Definition singletons : AliasVectorMap :=
  {| entries := {[ 10 := 1; 11 := 2; 12 := 3 ]};
     lists := {[ 1 := [x]; 2 := [y]; 3 := [z] ]};
     next_list := 4 |}.

Definition index3 : SymbolIndexMap := {[ 10 := 0; 11 := 1; 12 := 2 ]}.

(** Scenario F: [move y, x] where x has not been constructed. *)
Definition copyF : Expr := move 20 (ref 21 y) (ref 22 x).
Definition stmtsF : list Expr := [EDef 1 x; EDef 2 y; EDef 3 z; copyF; return_ 7].

(** The alias map once x and y have been merged. *)
Definition merged_xy : AliasVectorMap :=
  {| entries := {[ 10 := 1; 11 := 1; 12 := 3 ]};
     lists := {[ 1 := [x; y]; 3 := [z] ]};
     next_list := 4 |}.

(** [move y, x; move y, z; ~R(x)], none of the three being constructed in the
    block. *)
Definition stmtsStrand : list Expr :=
  [EDef 1 x; EDef 2 y; EDef 3 z; copyF; move 23 (ref 24 y) (ref 25 z);
   destruct_ 26 (ref 27 x)].

(** [move y, ctor(); move y, x]: the left operand is already owned. *)
Definition stmtsOwnedLhs : list Expr :=
  [EDef 1 x; EDef 2 y; EDef 3 z; move 30 (ref 31 y) (construct 32); copyF].

(** [move x, x]: both operands are in one clique. *)
Definition stmtsSelfCopy : list Expr :=
  [EDef 1 x; EDef 2 y; EDef 3 z; move 40 (ref 41 x) (ref 42 x)].

Definition index1 : SymbolIndexMap := {[ 10 := 0 ]}.

(** The alias map that extractSymbols builds for [x] alone. *)
Definition singleton1 : AliasVectorMap :=
  {| entries := {[ 10 := 1 ]}; lists := {[ 1 := [x] ]}; next_list := 2 |}.

(** The state of the scan at the start of a block over x alone. *)
Definition start1 : Transitions :=
  {| gen := [false]; kill := [false]; tr_aliases := singleton1;
     warnings := [] |}.

(** What the analysis computes on scenario B. *)
Definition analysisB : Analysis :=
  {| an_symbols := [x];
     an_GEN := [[true]]; an_KILL := [[true]];
     an_IN := [[false]]; an_OUT := [[true]];
     an_aliases := singleton1; an_warnings := [] |}.

(** The state of the scan at the start of a block over x, y, z. *)
Definition start3 : Transitions :=
  {| gen := [false; false; false]; kill := [false; false; false];
     tr_aliases := singletons; warnings := [] |}.


(** A block that ends in a return, and one that ends in a plain call. *)
Definition stmtsJump : list Expr :=
  [EDef 1 x; EDef 2 y; move 3 (ref 4 x) (construct 5);
   move 6 (ref 7 y) (construct 8); return_ 9].
Definition stmtsFall : list Expr :=
  [EDef 1 x; EDef 2 y; move 3 (ref 4 x) (construct 5);
   move 6 (ref 7 y) (construct 8)].
Definition D (id : nat) (s : Symbol) : Expr :=
  newAutoDestroyCall autoDestroyMap id s.

(** Scenario A: [move x, ctor(); return]. *)
Definition stmtsA : list Expr :=
  [EDef 1 x; move 2 (ref 3 x) (construct 4); return_ 7].

(** Scenario B: [move x, ctor(); ~R(x); return]. *)
Definition stmtsB : list Expr :=
  [EDef 1 x; move 2 (ref 3 x) (construct 4); destruct_ 5 (ref 6 x); return_ 7].

(** Scenario E: [move x, ctor(); ~R(x); move x, ctor(); return]. *)
Definition stmtsE : list Expr :=
  [EDef 1 x; move 2 (ref 3 x) (construct 4); destruct_ 5 (ref 6 x);
   move 8 (ref 9 x) (construct 10); return_ 7].

(** Scenario E up to and including the destruction. *)
Definition prefixE : list Expr := take 3 stmtsE.


(** The flow sets before the scan of a one-block function over x, y, z. *)
Definition startFn3 : FnTransitions :=
  {| GEN := [[false; false; false]]; KILL := [[false; false; false]];
     fn_aliases := singletons; fn_warnings := [] |}.

(** [move x, ctor(); move y, x; ~R(x)]: x is constructed, copied into y and
    destroyed. *)
Definition stmtsOwnedCopy : list Expr :=
  [EDef 1 x; EDef 2 y; EDef 3 z; move 30 (ref 31 x) (construct 32); copyF;
   destruct_ 26 (ref 27 x)].

(** [move x, c] and [move c, x], where [c] has a class type and is not
    tracked. *)
Definition stmtsFromClass : list Expr :=
  [EDef 1 x; EDef 4 c; move 70 (ref 71 x) (ref 72 c)].
Definition stmtsIntoClass : list Expr :=
  [EDef 1 x; EDef 4 c; move 80 (ref 81 c) (ref 82 x)].

(** [D_R(x)]: a call of a function that is not flagged as a destructor. *)
Definition stmtsPlainCall : list Expr :=
  [EDef 1 x; ECall 90 (Resolved D_R) [ref 91 x]].

(** [move y, x; ~R(x); ~R(y)]: both copies are destroyed. *)
Definition stmtsDouble : list Expr :=
  [EDef 1 x; EDef 2 y; EDef 3 z; copyF; destruct_ 26 (ref 27 x);
   destruct_ 28 (ref 29 y)].

(** A prototype: a function symbol with the prototype flag and no body to
    speak of. *)
Definition protoFn : Fn :=
  mkFn (mkFnSymbol 201 false true tVoid) [] (EBlock 0 []) 1.


(** A function that returns a class, and [move x, newC()]. *)
Definition newC : FnSymbol := mkFnSymbol 103 false false tC.
Definition stmtsClassCall : list Expr :=
  [EDef 1 x; move 2 (ref 3 x) (ECall 4 (Resolved newC) [])].

(** [move y, x; move y, z; move z, x]: a third copy after the two copies of
    [stmtsStrand], from x, whose entry the second merge left behind. *)
Definition stmtsStrandCopy : list Expr :=
  [EDef 1 x; EDef 2 y; EDef 3 z; copyF; move 23 (ref 24 y) (ref 25 z);
   move 33 (ref 34 z) (ref 35 x)].

End Scenario.

(** * Properties *)

Ltac unbind := unfold mbind, mret, Result_bind, Result_ret; cbv beta iota.
Tactic Notation "unbind" "in" hyp(H) :=
  unfold mbind, mret, Result_bind, Result_ret in H; cbv beta iota in H.

(** ** The alias map *)

Lemma extractSymbols_singletons :
  extractSymbols (Scenario.fnOf Scenario.defs)
  = Done {| symbols := [Scenario.x; Scenario.y; Scenario.z];
            symbolIndex := Scenario.index3;
            aliases := Scenario.singletons |}.
Proof. vm_compute. reflexivity. Qed.

(** When both pointers are the same live list, every push_back moves the end
    of the list one step further: the loop never gets there. *)
Lemma mergeAliases_loop_same fuel p i store l :
  store !! p = Some l → i < length l →
  mergeAliases_loop fuel p p i store = OutOfFuel.
Proof.
  revert i store l. induction fuel as [|n IH]; intros i store l Hl Hi; [done|].
  cbn [mergeAliases_loop]. unfold deref. rewrite Hl. unbind.
  destruct (decide (i < length l)) as [_|]; [|lia].
  destruct (l !! i) as [sym|] eqn:Hsym.
  - apply (IH (S i) _ (l ++ [sym])).
    + apply lookup_insert_eq.
    + rewrite length_app. simpl. lia.
  - apply lookup_ge_None in Hsym. lia.
Qed.

Lemma mergeAliases_same_list fuel orig alias al l :
  aliases_at al orig = aliases_at al alias →
  lists al !! aliases_at al orig = Some l → l ≠ [] →
  mergeAliases fuel orig alias al = OutOfFuel.
Proof.
  intros Heq Hl Hne. unfold mergeAliases. rewrite <- Heq.
  rewrite (mergeAliases_loop_same fuel _ 0 _ l Hl); [done|].
  destruct l; [done|simpl; lia].
Qed.

(** With two different live lists the loop appends the rest of the alias list
    to the original list. *)
Lemma mergeAliases_loop_distinct fuel p q i store ol al :
  p ≠ q → store !! p = Some ol → store !! q = Some al →
  length al - i < fuel →
  mergeAliases_loop fuel p q i store = Done (<[p := ol ++ drop i al]> store).
Proof.
  intros Hpq. revert i store ol.
  induction fuel as [|n IH]; intros i store ol Hp Hq Hfuel; [lia|].
  cbn [mergeAliases_loop]. unfold deref. rewrite Hq. unbind.
  destruct (decide (i < length al)) as [Hi|Hi].
  - destruct (al !! i) as [sym|] eqn:Hsym.
    2:{ apply lookup_ge_None in Hsym. lia. }
    rewrite Hp.
    rewrite (IH (S i) _ (ol ++ [sym])).
    + rewrite insert_insert_eq. f_equal. f_equal.
      rewrite <- app_assoc. simpl. f_equal.
      symmetry. by apply drop_S.
    + apply lookup_insert_eq.
    + by rewrite lookup_insert_ne.
    + lia.
  - rewrite drop_ge by lia. rewrite app_nil_r.
    by rewrite insert_id.
Qed.

Lemma mergeAliases_distinct fuel orig alias a ol al :
  aliases_at a orig ≠ aliases_at a alias →
  lists a !! aliases_at a orig = Some ol →
  lists a !! aliases_at a alias = Some al →
  length al < fuel →
  mergeAliases fuel orig alias a
  = Done {| entries := <[sym_id alias := aliases_at a orig]> (entries a);
            lists := delete (aliases_at a alias)
                       (<[aliases_at a orig := ol ++ al]> (lists a));
            next_list := next_list a |}.
Proof.
  intros Hne Ho Ha Hfuel. unfold mergeAliases.
  rewrite (mergeAliases_loop_distinct fuel _ _ 0 _ ol al); try done; lia.
Qed.

(** [members] after a merge of two different live lists: the symbol that was
    merged in and the symbols that keep their entry at the original list all
    read the concatenation. *)
Lemma members_mergeAliases_distinct fuel orig alias a ol al a' :
  aliases_at a orig ≠ aliases_at a alias →
  lists a !! aliases_at a orig = Some ol →
  lists a !! aliases_at a alias = Some al →
  length al < fuel →
  mergeAliases fuel orig alias a = Done a' →
  members a' orig = Done (ol ++ al) ∧ members a' alias = Done (ol ++ al).
Proof.
  intros Hne Ho Ha Hfuel Hm.
  rewrite (mergeAliases_distinct fuel orig alias a ol al) in Hm by done.
  injection Hm as <-.
  assert (Hal : aliases_at
            {| entries := <[sym_id alias := aliases_at a orig]> (entries a);
               lists := delete (aliases_at a alias)
                          (<[aliases_at a orig := ol ++ al]> (lists a));
               next_list := next_list a |} alias = aliases_at a orig).
  { unfold aliases_at at 1. simpl. by rewrite lookup_insert_eq. }
  assert (Hor : aliases_at
            {| entries := <[sym_id alias := aliases_at a orig]> (entries a);
               lists := delete (aliases_at a alias)
                          (<[aliases_at a orig := ol ++ al]> (lists a));
               next_list := next_list a |} orig = aliases_at a orig).
  { unfold aliases_at at 1. simpl.
    destruct (decide (sym_id alias = sym_id orig)) as [Heq|Hneq].
    - rewrite Heq. by rewrite lookup_insert_eq.
    - by rewrite lookup_insert_ne. }
  unfold members. rewrite Hal, Hor. simpl. unfold deref.
  rewrite lookup_delete_ne by done. by rewrite lookup_insert_eq.
Qed.

(** C2 (the code at the failing input).  From the singletons {x}, {y}, {z}:
    merge(x, y) makes x and y share [x; y]; merge(z, y) then appends that
    list to the list of z, deletes it, and re-points the entry of y only.
    z and y read [z; x; y]; the entry of x, the other member of the old
    clique of y, still points at the deleted list.  The scan of
    [move y, x; move y, z; ~R(x)] performs these two merges and then reads
    the deleted list. *)
Theorem mergeAliases_strands_old_clique_member :
  (a1 ← mergeAliases 10 Scenario.x Scenario.y Scenario.singletons ;
   a2 ← mergeAliases 10 Scenario.z Scenario.y a1 ;
   Done (members a1 Scenario.x, members a1 Scenario.y,
         members a2 Scenario.z, members a2 Scenario.y, members a2 Scenario.x))
  = Done (Done [Scenario.x; Scenario.y], Done [Scenario.x; Scenario.y],
          Done [Scenario.z; Scenario.x; Scenario.y],
          Done [Scenario.z; Scenario.x; Scenario.y],
          Undefined BadPointer)
  ∧ computeTransitions_bb false 10 (EBlock 0 Scenario.stmtsStrand)
      (mkBB Scenario.stmtsStrand [] []) Scenario.index3 Scenario.start3
    = Undefined BadPointer.
Proof. split; vm_compute; reflexivity. Qed.

(** ** Bit vectors *)

Lemma BitVec_set_length v i : length (BitVec_set v i) = length v.
Proof. apply length_insert. Qed.

Lemma BitVec_get_set_eq v i : i < length v → BitVec_get (BitVec_set v i) i = true.
Proof.
  intros Hi. unfold BitVec_get, BitVec_set.
  by rewrite list_lookup_insert_eq.
Qed.

Lemma BitVec_get_set_ne v i j : i ≠ j → BitVec_get (BitVec_set v i) j = BitVec_get v j.
Proof.
  intros Hne. unfold BitVec_get, BitVec_set.
  by rewrite list_lookup_insert_ne.
Qed.

Lemma BitVec_get_true_lt v j : BitVec_get v j = true → j < length v.
Proof.
  unfold BitVec_get. intros H.
  destruct (v !! j) eqn:E; [|done]. by eapply lookup_lt_Some.
Qed.

(** ** The destructor recognizer *)

Lemma processDestructor_step_eq symbolIndex kill s i :
  symbolIndex !! sym_id s = Some i →
  processDestructor_step symbolIndex kill s
  = if BitVec_get kill i then IntFatal AssertKillClear
    else Done (BitVec_set kill i).
Proof.
  intros Hs. unfold processDestructor_step, symbolIndex_at. rewrite Hs.
  unbind. by destruct (BitVec_get kill i).
Qed.

Lemma processDestructor_loop_done symbolIndex ms idxs kill :
  indexedBy symbolIndex ms idxs → NoDup idxs →
  (∀ i, i ∈ idxs → i < length kill ∧ BitVec_get kill i = false) →
  ∃ kill', forEach (processDestructor_step symbolIndex) ms kill = Done kill'
           ∧ bitsSet kill kill' idxs.
Proof.
  intros Hidx. revert kill.
  induction Hidx as [|s i ms idxs Hs _ IH]; intros kill Hnd Hclear.
  - exists kill. split; [done|]. split; [done|].
    intros j. rewrite bool_decide_eq_false_2; [by rewrite orb_false_r|].
    apply not_elem_of_nil.
  - apply NoDup_cons in Hnd as [Hni Hnd].
    destruct (Hclear i) as [Hlt Hget]; [left|].
    cbn [forEach]. rewrite (processDestructor_step_eq _ _ _ _ Hs), Hget.
    unbind.
    destruct (IH (BitVec_set kill i) Hnd) as (kill' & Hrun & Hlen & Hbits).
    { intros j Hj. rewrite BitVec_set_length.
      destruct (Hclear j) as [Hjlt Hjget]; [by right|].
      split; [done|]. rewrite BitVec_get_set_ne; [done|].
      intros ->. done. }
    exists kill'. split; [exact Hrun|]. split.
    + by rewrite Hlen, BitVec_set_length.
    + intros j. rewrite Hbits.
      destruct (decide (i = j)) as [<-|Hne].
      * rewrite BitVec_get_set_eq by done.
        rewrite (bool_decide_eq_true_2 (i ∈ i :: idxs)) by left.
        by rewrite orb_true_r.
      * rewrite BitVec_get_set_ne by done. f_equal.
        apply bool_decide_ext. rewrite elem_of_cons.
        split; [by right|]. by intros [Heq|Hin]; [symmetry in Heq|].
Qed.

Lemma processDestructor_loop_abort symbolIndex ms idxs kill :
  indexedBy symbolIndex ms idxs →
  (∃ i, i ∈ idxs ∧ BitVec_get kill i = true) →
  forEach (processDestructor_step symbolIndex) ms kill
  = IntFatal AssertKillClear.
Proof.
  intros Hidx. revert kill.
  induction Hidx as [|s i ms idxs Hs _ IH]; intros kill (i0 & Hin & Hset).
  - by apply elem_of_nil in Hin.
  - cbn [forEach]. rewrite (processDestructor_step_eq _ _ _ _ Hs).
    destruct (BitVec_get kill i) eqn:Hi; [done|]. unbind.
    apply IH. exists i0.
    apply elem_of_cons in Hin as [->|Hin]; [congruence|].
    split; [done|]. rewrite BitVec_get_set_ne; [done|]. congruence.
Qed.

Lemma isDestructorCall_not_move call :
  isDestructorCall call = true → isMoveOrAssign call = false.
Proof.
  unfold isDestructorCall, isMoveOrAssign, isResolved, isPrimitive.
  by destruct (call_callee call).
Qed.

Lemma isReturnCall_not_move call :
  isReturnCall call = true → isMoveOrAssign call = false.
Proof.
  unfold isReturnCall, isMoveOrAssign, isResolved, isPrimitive.
  destruct (call_callee call) as [|tag ?]; [done|].
  by destruct tag.
Qed.

Lemma processDestructor_loop_repeat symbolIndex ms idxs kill :
  indexedBy symbolIndex ms idxs → (∀ i, i ∈ idxs → i < length kill) →
  ¬ NoDup idxs →
  forEach (processDestructor_step symbolIndex) ms kill
  = IntFatal AssertKillClear.
Proof.
  intros Hidx. revert kill.
  induction Hidx as [|s i ms idxs Hs Hrest IH]; intros kill Hlt Hdup.
  { destruct Hdup. constructor. }
  cbn [forEach]. rewrite (processDestructor_step_eq _ _ _ _ Hs).
  destruct (BitVec_get kill i) eqn:Hi; [done|]. unbind.
  destruct (decide (i ∈ idxs)) as [Hin|Hni].
  - apply (processDestructor_loop_abort _ _ idxs); [done|].
    exists i. split; [done|]. apply BitVec_get_set_eq, Hlt. left.
  - apply IH.
    + intros j Hj. rewrite BitVec_set_length. apply Hlt. by right.
    + intros Hnd. apply Hdup. by constructor.
Qed.

(** The parent that the search returns has the node among its children. *)
Lemma parentExprIn_child root id p :
  parentExprIn root id = Some p →
  ∃ c, c ∈ childrenOf p ∧ exprId c = id.
Proof.
  revert p. induction root as [|i callee actuals IH| | |i c t f IHc IHt IHf
                              |i body IH] using Expr_nested_ind;
    intros p; try done; cbn [parentExprIn].
  - assert (Hgen : ∀ l, Forall (λ e, ∀ p, parentExprIn e id = Some p →
                                  ∃ c, c ∈ childrenOf p ∧ exprId c = id) l →
                        (∀ e, e ∈ l → e ∈ actuals) →
                        firstSome (λ c, if decide (exprId c = id)
                                        then Some (ECall i callee actuals)
                                        else parentExprIn c id) l = Some p →
                        ∃ c, c ∈ childrenOf p ∧ exprId c = id).
    { induction 1 as [|e l He _ IHl]; intros Hsub; [done|].
      cbn [firstSome]. destruct (decide (exprId e = id)) as [Heq|Hne].
      - intros [= <-]. exists e. split; [apply Hsub; left|done].
      - destruct (parentExprIn e id) as [q|] eqn:Hq.
        + intros [= <-]. by apply He.
        + apply IHl. intros e' He'. apply Hsub. by right. }
    by apply Hgen.
  - destruct (decide (exprId c = id)) as [Heq|_].
    { intros [= <-]. exists c. split; [left|done]. }
    destruct (parentExprIn c id) as [q|] eqn:Hq.
    { intros [= <-]. by apply IHc. }
    destruct (decide (exprId t = id)) as [Heq|_].
    { intros [= <-]. exists t. split; [right; left|done]. }
    destruct (parentExprIn t id) as [q|] eqn:Hq'.
    { intros [= <-]. by apply IHt. }
    destruct (decide (exprId f = id)) as [Heq|_].
    { intros [= <-]. exists f. split; [right; right; left|done]. }
    apply IHf.
  - assert (Hgen : ∀ l, Forall (λ e, ∀ p, parentExprIn e id = Some p →
                                  ∃ c, c ∈ childrenOf p ∧ exprId c = id) l →
                        (∀ e, e ∈ l → e ∈ body) →
                        firstSome (λ c, if decide (exprId c = id)
                                        then Some (EBlock i body)
                                        else parentExprIn c id) l = Some p →
                        ∃ c, c ∈ childrenOf p ∧ exprId c = id).
    { induction 1 as [|e l He _ IHl]; intros Hsub; [done|].
      cbn [firstSome]. destruct (decide (exprId e = id)) as [Heq|Hne].
      - intros [= <-]. exists e. split; [apply Hsub; left|done].
      - destruct (parentExprIn e id) as [q|] eqn:Hq.
        + intros [= <-]. by apply He.
        + apply IHl. intros e' He'. apply Hsub. by right. }
    by apply Hgen.
Qed.

(** A reference whose parent is a call is one of its actuals, so the call
    has a first actual. *)
Lemma parent_call_has_first_actual root id call :
  parentExprIn root id ≫= toCallExpr = Some call →
  ∃ e1, get call 1 = Done e1.
Proof.
  destruct (parentExprIn root id) as [p|] eqn:Hp; [|done].
  apply parentExprIn_child in Hp as (c & Hc & _).
  destruct p as [|i callee actuals| | | |]; try done.
  intros [= <-]. unfold get. cbn [call_actuals childrenOf] in *.
  destruct actuals as [|e1 ?]; [by apply elem_of_nil in Hc|].
  by exists e1.
Qed.

(** The destructor recognizer where the alias list of the reference is
    live.  Let r be a tracked reference whose parent call either resolves to
    a function flagged as a destructor or is the return primitive, and let
    the entry of r.sym point at a live list [ms], with indices [idxs].
    - A destructor call whose first actual is not r stops in the assertion
      on the first actual.
    - Otherwise, if some bit of [idxs] is already set in KILL, or an index
      occurs twice, the scan stops in the assertion on the KILL bit;
    - if all of them are clear, the scan of r sets exactly the KILL bits
      [idxs] and changes nothing else. *)
Theorem destructor_recognizer_kills_clique
    (fWarnOwnership : bool) (fuel : nat) (root : Expr)
    (symbolIndex : SymbolIndexMap) (st : Transitions) (se : SymExpr)
    (call : CallExpr) (ms : list Symbol) (idxs : list nat) :
  is_Some (symbolIndex !! sym_id (var se)) →
  parentExprIn root (se_id se) ≫= toCallExpr = Some call →
  isDestructorCall call = true ∨ isReturnCall call = true →
  members (tr_aliases st) (var se) = Done ms →
  indexedBy symbolIndex ms idxs →
  (∀ i, i ∈ idxs → i < length (kill st)) →
  let scan := computeTransitions_symExpr fWarnOwnership fuel root symbolIndex
                st se in
  (isDestructorCall call = true → ¬ firstActualIs call se →
     scan = IntFatal AssertFirstActual)
  ∧ (isReturnCall call = true ∨ firstActualIs call se →
     (∃ i, i ∈ idxs ∧ BitVec_get (kill st) i = true) ∨ ¬ NoDup idxs →
     scan = IntFatal AssertKillClear)
  ∧ (isReturnCall call = true ∨ firstActualIs call se →
     (∀ i, i ∈ idxs → BitVec_get (kill st) i = false) → NoDup idxs →
     ∃ kill', scan = Done {| gen := gen st; kill := kill';
                             tr_aliases := tr_aliases st;
                             warnings := warnings st |}
              ∧ bitsSet (kill st) kill' idxs).
Proof.
  intros [ix Hix] Hparent Hkind Hms Hidx Hlt scan.
  assert (Hnm : isMoveOrAssign call = false).
  { destruct Hkind; [by apply isDestructorCall_not_move
                    |by apply isReturnCall_not_move]. }
  assert (Hscan : scan = kill' ← processDestructor call se (kill st)
                                   (tr_aliases st) symbolIndex ;
                         Done {| gen := gen st; kill := kill';
                                 tr_aliases := tr_aliases st;
                                 warnings := warnings st |}).
  { unfold scan, computeTransitions_symExpr. rewrite Hix, Hparent.
    unfold processConstructor, processMove. rewrite Hnm. by unbind. }
  assert (Hclique : processDestructor_clique se (kill st) (tr_aliases st)
                      symbolIndex
                    = forEach (processDestructor_step symbolIndex) ms (kill st)).
  { unfold processDestructor_clique. rewrite Hms. by unbind. }
  assert (Hpd : isReturnCall call = true ∨ firstActualIs call se →
                processDestructor call se (kill st) (tr_aliases st) symbolIndex
                = forEach (processDestructor_step symbolIndex) ms (kill st)).
  { intros Hok. unfold processDestructor.
    unfold isDestructorCall, isReturnCall in *.
    destruct (isResolved call) as [fn|] eqn:Hres.
    - destruct Hkind as [Hd|?]; [|done]. rewrite Hd.
      destruct Hok as [?|(e1 & Hget & Hid)]; [done|].
      rewrite Hget. unbind. rewrite bool_decide_eq_true_2 by done.
      simpl. exact Hclique.
    - destruct Hkind as [?|Hr]; [done|]. rewrite Hr. exact Hclique. }
  split; [|split].
  - intros Hd Hnot. rewrite Hscan. unfold processDestructor.
    unfold isDestructorCall in Hd.
    destruct (isResolved call) as [fn|]; [|done]. rewrite Hd.
    destruct (parent_call_has_first_actual _ _ _ Hparent) as [e1 Hget].
    rewrite Hget. unbind. rewrite bool_decide_eq_false_2; [done|].
    intros Hid. apply Hnot. by exists e1.
  - intros Hok Hbad. rewrite Hscan, (Hpd Hok).
    destruct Hbad as [Hset|Hdup].
    + by rewrite (processDestructor_loop_abort _ _ idxs).
    + by rewrite (processDestructor_loop_repeat _ _ idxs).
  - intros Hok Hclear Hnd.
    destruct (processDestructor_loop_done symbolIndex ms idxs (kill st))
      as (kill' & Hrun & Hbits); [done|done| |].
    { intros i Hi. split; [by apply Hlt|by apply Hclear]. }
    exists kill'. rewrite Hscan, (Hpd Hok), Hrun. by unbind.
Qed.

Lemma destructor_recognizer_kills_clique_witness :
  ∃ kill',
    computeTransitions_symExpr true 10 (EBlock 0 Scenario.stmtsB)
      Scenario.index1
      {| gen := [true]; kill := [false]; tr_aliases := Scenario.singleton1;
         warnings := [] |} (mkSymExpr 6 Scenario.x)
    = Done {| gen := [true]; kill := kill';
              tr_aliases := Scenario.singleton1; warnings := [] |}
    ∧ bitsSet [false] kill' [0].
Proof.
  destruct (destructor_recognizer_kills_clique true 10
              (EBlock 0 Scenario.stmtsB) Scenario.index1
              {| gen := [true]; kill := [false];
                 tr_aliases := Scenario.singleton1; warnings := [] |}
              (mkSymExpr 6 Scenario.x)
              (mkCallExpr 5 (Resolved Scenario.dtorR)
                 [Scenario.ref 6 Scenario.x])
              [Scenario.x] [0]) as (_ & _ & Hdone).
  - by exists 0.
  - reflexivity.
  - by left.
  - reflexivity.
  - repeat constructor.
  - intros i Hi. apply list_elem_of_singleton in Hi as ->. simpl. lia.
  - apply Hdone.
    + right. by exists (Scenario.ref 6 Scenario.x).
    + intros i Hi. by apply list_elem_of_singleton in Hi as ->.
    + apply NoDup_singleton.
Defined.

(** C4 (the code at the failing input).  In [move y, x; move y, z; ~R(x)]
    the two copies leave y and z on the list [z; x; y] and the entry of x at
    the list that the second merge deleted.  When the scan reaches the
    destructor call, x is tracked and is the first actual of the call, and
    no KILL bit is set; the clique that holds x is {z, x, y}.  The scan of
    the reference dereferences the deleted list: no KILL bit is set for x, y
    or z, and the scan of the block ends there. *)
Theorem destructor_on_stranded_symbol_reads_deleted_list :
  ∃ st,
    computeTransitions_bb false 10 (EBlock 0 Scenario.stmtsStrand)
      (mkBB (take 5 Scenario.stmtsStrand) [] []) Scenario.index3
      Scenario.start3 = Done st
    ∧ kill st = [false; false; false]
    ∧ Scenario.index3 !! sym_id Scenario.x = Some 0
    ∧ parentExprIn (EBlock 0 Scenario.stmtsStrand) 27 ≫= toCallExpr
      = Some (mkCallExpr 26 (Resolved Scenario.dtorR)
                [Scenario.ref 27 Scenario.x])
    ∧ isDestructorCall (mkCallExpr 26 (Resolved Scenario.dtorR)
                          [Scenario.ref 27 Scenario.x]) = true
    ∧ firstActualIs (mkCallExpr 26 (Resolved Scenario.dtorR)
                       [Scenario.ref 27 Scenario.x])
        (mkSymExpr 27 Scenario.x)
    ∧ members (tr_aliases st) Scenario.y
      = Done [Scenario.z; Scenario.x; Scenario.y]
    ∧ members (tr_aliases st) Scenario.z
      = Done [Scenario.z; Scenario.x; Scenario.y]
    ∧ members (tr_aliases st) Scenario.x = Undefined BadPointer
    ∧ computeTransitions_symExpr false 10 (EBlock 0 Scenario.stmtsStrand)
        Scenario.index3 st (mkSymExpr 27 Scenario.x)
      = Undefined BadPointer
    ∧ computeTransitions_bb false 10 (EBlock 0 Scenario.stmtsStrand)
        (mkBB Scenario.stmtsStrand [] []) Scenario.index3 Scenario.start3
      = Undefined BadPointer.
Proof.
  eexists. split; [vm_compute; reflexivity|].
  split; [reflexivity|]. split; [reflexivity|]. split; [reflexivity|].
  split; [reflexivity|].
  split; [by exists (Scenario.ref 27 Scenario.x)|].
  repeat split; vm_compute; reflexivity.
Qed.

(** ** The bitwise-move recognizer *)

Lemma copy_isMoveOrAssign id tag ty actuals :
  tag = PRIM_MOVE ∨ tag = PRIM_ASSIGN →
  isMoveOrAssign (mkCallExpr id (Primitive tag ty) actuals) = true.
Proof. by intros [-> | ->]. Qed.

Lemma copy_not_return id tag ty actuals :
  tag = PRIM_MOVE ∨ tag = PRIM_ASSIGN →
  isPrimitive (mkCallExpr id (Primitive tag ty) actuals) PRIM_RETURN = false.
Proof. by intros [-> | ->]. Qed.

Lemma copy_processConstructor id tag ty lhs rhs se g symbolIndex :
  tag = PRIM_MOVE ∨ tag = PRIM_ASSIGN →
  processConstructor (mkCallExpr id (Primitive tag ty) [ESym lhs; ESym rhs])
    se g symbolIndex = Done g.
Proof.
  intros Htag. unfold processConstructor.
  by rewrite copy_isMoveOrAssign.
Qed.

Lemma copy_processDestructor id tag ty actuals se k a symbolIndex :
  tag = PRIM_MOVE ∨ tag = PRIM_ASSIGN →
  processDestructor (mkCallExpr id (Primitive tag ty) actuals) se k a
    symbolIndex = Done k.
Proof.
  intros Htag. unfold processDestructor.
  change (isResolved (mkCallExpr id (Primitive tag ty) actuals))
    with (@None FnSymbol).
  by rewrite copy_not_return.
Qed.

(** The scan of the right operand of a bitwise copy changes nothing. *)
Lemma scan_rhs_of_copy fWarnOwnership fuel root symbolIndex id tag ty lhs rhs
    ri st :
  tag = PRIM_MOVE ∨ tag = PRIM_ASSIGN →
  parentExprIn root (se_id rhs)
    = Some (ECall id (Primitive tag ty) [ESym lhs; ESym rhs]) →
  symbolIndex !! sym_id (var rhs) = Some ri →
  se_id lhs ≠ se_id rhs →
  computeTransitions_symExpr fWarnOwnership fuel root symbolIndex st rhs
  = Done st.
Proof.
  intros Htag Hpr Hri Hids.
  unfold computeTransitions_symExpr. rewrite Hri, Hpr.
  change (Some (ECall id (Primitive tag ty) [ESym lhs; ESym rhs])
          ≫= toCallExpr)
    with (Some (mkCallExpr id (Primitive tag ty) [ESym lhs; ESym rhs])).
  cbv beta iota.
  rewrite copy_processConstructor by done. unbind.
  unfold processMove. rewrite copy_isMoveOrAssign by done.
  change (get (mkCallExpr id (Primitive tag ty) [ESym lhs; ESym rhs]) 1)
    with (Done (ESym lhs)).
  unbind. cbn [toSymExpr].
  rewrite decide_False by done.
  rewrite copy_processDestructor by done. by destruct st.
Qed.

(** The scan of the left operand, up to the call of mergeAliases. *)
Lemma scan_lhs_of_copy fWarnOwnership fuel root symbolIndex id tag ty lhs rhs
    li ri st :
  tag = PRIM_MOVE ∨ tag = PRIM_ASSIGN →
  parentExprIn root (se_id lhs)
    = Some (ECall id (Primitive tag ty) [ESym lhs; ESym rhs]) →
  symbolIndex !! sym_id (var lhs) = Some li →
  symbolIndex !! sym_id (var rhs) = Some ri →
  BitVec_get (gen st) li = false →
  computeTransitions_symExpr fWarnOwnership fuel root symbolIndex st lhs
  = aliases' ← mergeAliases fuel (var rhs) (var lhs) (tr_aliases st) ;
    Done {| gen := if BitVec_get (gen st) ri
                   then BitVec_set (gen st) li else gen st;
            kill := kill st;
            tr_aliases := aliases';
            warnings := if BitVec_get (gen st) ri then warnings st
                        else if fWarnOwnership then warnings st ++ [var rhs]
                             else warnings st |}.
Proof.
  intros Htag Hpl Hli Hri Hgl.
  unfold computeTransitions_symExpr. rewrite Hli, Hpl.
  change (Some (ECall id (Primitive tag ty) [ESym lhs; ESym rhs])
          ≫= toCallExpr)
    with (Some (mkCallExpr id (Primitive tag ty) [ESym lhs; ESym rhs])).
  cbv beta iota.
  rewrite copy_processConstructor by done. unbind.
  unfold processMove. rewrite copy_isMoveOrAssign by done.
  change (get (mkCallExpr id (Primitive tag ty) [ESym lhs; ESym rhs]) 1)
    with (Done (ESym lhs)).
  unbind. cbn [toSymExpr].
  rewrite decide_True by done.
  change (get (mkCallExpr id (Primitive tag ty) [ESym lhs; ESym rhs]) 2)
    with (Done (ESym rhs)).
  unbind. cbn [toSymExpr].
  unfold symbolIndex_at. rewrite Hli, Hri. cbn [ms_gen ms_warnings ms_aliases].
  rewrite Hgl. cbn [negb INT_ASSERT]. unbind.
  destruct (BitVec_get (gen st) ri); cbn [negb];
    destruct (mergeAliases fuel (var rhs) (var lhs) (tr_aliases st));
    try done; cbn [ms_gen ms_warnings ms_aliases];
    by rewrite copy_processDestructor.
Qed.

(** C7 (the code at the failing input).  Merging a symbol with itself, or
    repeating a merge, runs the loop on one list through both pointers: no
    amount of fuel lets mergeAliases return.  A block that holds [move y, x]
    after another block has merged x and y makes the scan do just that. *)
Theorem mergeAliases_same_clique_never_returns :
  ∀ fuel : nat,
    mergeAliases fuel Scenario.x Scenario.x Scenario.singletons = OutOfFuel
    ∧ mergeAliases 10 Scenario.x Scenario.y Scenario.singletons
      = Done Scenario.merged_xy
    ∧ mergeAliases fuel Scenario.x Scenario.y Scenario.merged_xy = OutOfFuel
    ∧ computeTransitions_symExprs false fuel (EBlock 0 Scenario.stmtsF)
        (collectSymExprsSTL Scenario.copyF) Scenario.index3
        {| gen := [false; false; false]; kill := [false; false; false];
           tr_aliases := Scenario.merged_xy; warnings := [] |}
      = OutOfFuel.
Proof.
  intros fuel. split; [|split; [|split]].
  - by apply (mergeAliases_same_list fuel _ _ _ [Scenario.x]).
  - vm_compute. reflexivity.
  - by apply (mergeAliases_same_list fuel _ _ _ [Scenario.x; Scenario.y]).
  - unfold computeTransitions_symExprs.
    change (collectSymExprsSTL Scenario.copyF)
      with [mkSymExpr 21 Scenario.y; mkSymExpr 22 Scenario.x].
    cbn [forEach].
    rewrite (scan_lhs_of_copy false fuel _ Scenario.index3 20 PRIM_MOVE
               Scenario.tVoid (mkSymExpr 21 Scenario.y)
               (mkSymExpr 22 Scenario.x) 1 0);
      [|by left|reflexivity|reflexivity|reflexivity|reflexivity].
    cbn [tr_aliases var].
    by rewrite (mergeAliases_same_list fuel _ _ _ [Scenario.x; Scenario.y]).
Qed.

(** C9 (amended).  Let [move y, x] (or [assign y, x]) copy a tracked x whose
    GEN bit is clear into a tracked y whose own GEN bit is clear, the
    entries of x and y in the alias map pointing at two different live
    lists.  The scan of the statement completes: GEN and KILL are unchanged
    (the bit of y stays clear), x and y both read the list of x followed by
    the list of y, and the warning log grows by exactly one entry, at x,
    when the ownership-warning flag is on, and by none when it is off. *)
Theorem uninitialized_copy_merges_and_warns
    (fWarnOwnership : bool) (fuel : nat) (root : Expr)
    (symbolIndex : SymbolIndexMap) (st : Transitions)
    (id : nat) (tag : PrimitiveTag) (ty : Type_) (lhs rhs : SymExpr)
    (li ri : nat) (ol al : list Symbol) :
  tag = PRIM_MOVE ∨ tag = PRIM_ASSIGN →
  parentExprIn root (se_id lhs)
    = Some (ECall id (Primitive tag ty) [ESym lhs; ESym rhs]) →
  parentExprIn root (se_id rhs)
    = Some (ECall id (Primitive tag ty) [ESym lhs; ESym rhs]) →
  se_id lhs ≠ se_id rhs →
  symbolIndex !! sym_id (var lhs) = Some li →
  symbolIndex !! sym_id (var rhs) = Some ri →
  BitVec_get (gen st) ri = false →
  BitVec_get (gen st) li = false →
  aliases_at (tr_aliases st) (var rhs) ≠ aliases_at (tr_aliases st) (var lhs) →
  lists (tr_aliases st) !! aliases_at (tr_aliases st) (var rhs) = Some ol →
  lists (tr_aliases st) !! aliases_at (tr_aliases st) (var lhs) = Some al →
  length al < fuel →
  ∃ aliases',
    computeTransitions_symExprs fWarnOwnership fuel root
      (collectSymExprsSTL (ECall id (Primitive tag ty) [ESym lhs; ESym rhs]))
      symbolIndex st
    = Done {| gen := gen st; kill := kill st; tr_aliases := aliases';
              warnings := if fWarnOwnership then warnings st ++ [var rhs]
                          else warnings st |}
    ∧ members aliases' (var rhs) = Done (ol ++ al)
    ∧ members aliases' (var lhs) = Done (ol ++ al).
Proof.
  intros Htag Hpl Hpr Hids Hli Hri Hgr Hgl Hne Hol Hal Hfuel.
  destruct (mergeAliases fuel (var rhs) (var lhs) (tr_aliases st))
    as [aliases'| | |] eqn:Hmerge;
    try (rewrite (mergeAliases_distinct fuel _ _ _ ol al) in Hmerge by done;
         discriminate).
  destruct (members_mergeAliases_distinct fuel _ _ _ ol al aliases'
              Hne Hol Hal Hfuel Hmerge) as [Hmr Hml].
  exists aliases'. split; [|done].
  unfold computeTransitions_symExprs.
  change (collectSymExprsSTL (ECall id (Primitive tag ty) [ESym lhs; ESym rhs]))
    with [lhs; rhs].
  cbn [forEach].
  rewrite (scan_lhs_of_copy fWarnOwnership fuel root symbolIndex id tag ty
             lhs rhs li ri st Htag Hpl Hli Hri Hgl).
  rewrite Hmerge, Hgr. unbind.
  rewrite (scan_rhs_of_copy fWarnOwnership fuel root symbolIndex id tag ty
             lhs rhs ri _ Htag Hpr Hri Hids).
  done.
Qed.

Lemma uninitialized_copy_merges_and_warns_witness :
  ∃ aliases',
    computeTransitions_symExprs true 10 (EBlock 0 Scenario.stmtsF)
      (collectSymExprsSTL Scenario.copyF) Scenario.index3 Scenario.start3
    = Done {| gen := [false; false; false]; kill := [false; false; false];
              tr_aliases := aliases'; warnings := [Scenario.x] |}
    ∧ members aliases' Scenario.x = Done [Scenario.x; Scenario.y]
    ∧ members aliases' Scenario.y = Done [Scenario.x; Scenario.y].
Proof.
  apply (uninitialized_copy_merges_and_warns true 10
           (EBlock 0 Scenario.stmtsF) Scenario.index3 Scenario.start3
           20 PRIM_MOVE Scenario.tVoid
           (mkSymExpr 21 Scenario.y) (mkSymExpr 22 Scenario.x) 1 0
           [Scenario.x] [Scenario.y]).
  - by left.
  - reflexivity.
  - reflexivity.
  - vm_compute. lia.
  - reflexivity.
  - reflexivity.
  - reflexivity.
  - reflexivity.
  - vm_compute. lia.
  - reflexivity.
  - reflexivity.
  - vm_compute. lia.
Defined.

(** C9 as stated fails.  With the flag on, [move y, ctor(); move y, x] stops
    in the assertion on the GEN bit of y before any warning is logged; the
    scan of [move x, x] never returns, whatever the fuel; and in
    [move y, x; move y, z; move z, x] the third copy, from an x whose GEN bit
    is clear into a z whose GEN bit is clear, dereferences the list that the
    second merge deleted. *)
Lemma uninitialized_copy_can_abort_or_hang :
  computeTransitions_bb true 10 (EBlock 0 Scenario.stmtsOwnedLhs)
    (mkBB Scenario.stmtsOwnedLhs [] []) Scenario.index3 Scenario.start3
  = IntFatal AssertGenClear
  ∧ (¬ ∃ fuel st',
         computeTransitions_bb true fuel (EBlock 0 Scenario.stmtsSelfCopy)
           (mkBB Scenario.stmtsSelfCopy [] []) Scenario.index3 Scenario.start3
         = Done st')
  ∧ computeTransitions_bb true 10 (EBlock 0 Scenario.stmtsStrandCopy)
      (mkBB Scenario.stmtsStrandCopy [] []) Scenario.index3 Scenario.start3
    = Undefined BadPointer.
Proof.
  split; [by vm_compute|]. split; [|by vm_compute].
  intros (fuel & st' & Hrun).
  assert (Hhang : computeTransitions_bb true fuel
                    (EBlock 0 Scenario.stmtsSelfCopy)
                    (mkBB Scenario.stmtsSelfCopy [] []) Scenario.index3
                    Scenario.start3 = OutOfFuel).
  { unfold computeTransitions_bb, Scenario.stmtsSelfCopy. cbn [exprs forEach].
    change (collectSymExprsSTL (EDef 1 Scenario.x)) with (@nil SymExpr).
    change (collectSymExprsSTL (EDef 2 Scenario.y)) with (@nil SymExpr).
    change (collectSymExprsSTL (EDef 3 Scenario.z)) with (@nil SymExpr).
    unfold computeTransitions_symExprs at 1 2 3. cbn [forEach]. unbind.
    change (collectSymExprsSTL
              (Scenario.move 40 (Scenario.ref 41 Scenario.x)
                 (Scenario.ref 42 Scenario.x)))
      with [mkSymExpr 41 Scenario.x; mkSymExpr 42 Scenario.x].
    unfold computeTransitions_symExprs. cbn [forEach].
    rewrite (scan_lhs_of_copy true fuel _ Scenario.index3 40 PRIM_MOVE
               Scenario.tVoid (mkSymExpr 41 Scenario.x)
               (mkSymExpr 42 Scenario.x) 0 0);
      [|by left|reflexivity|reflexivity|reflexivity|reflexivity].
    rewrite (mergeAliases_same_list fuel _ _ _ [Scenario.x]); done. }
  congruence.
Qed.

(** ** Forward flow and the need set *)

Lemma forEach_fixed {A S : Type} (f : S → A → Result S) (l : list A) (s r : S) :
  (∀ s x r, f s x = Done r → r = s) →
  forEach f l s = Done r → r = s.
Proof.
  intros Hf. revert s. induction l as [|x l IH]; intros s Hrun.
  - by injection Hrun.
  - cbn [forEach] in Hrun. destruct (f s x) as [s'| | |] eqn:Hx; try done.
    apply Hf in Hx as ->. by apply IH.
Qed.

(** Whatever the number of sweeps, the vectors that the flow analysis returns
    satisfy OUT[b] = (IN[b] \ KILL[b]) ∪ GEN[b]. *)
Lemma forwardFlowAnalysis_iter_sound n bbs GEN KILL IN OUT IN' OUT' :
  forwardFlowAnalysis_iter n bbs GEN KILL IN OUT = Done (IN', OUT') →
  OUT' = zip_with flow_out IN' (zip KILL GEN).
Proof.
  revert IN OUT. induction n as [|n IH]; intros IN OUT Hrun; [done|].
  cbn [forwardFlowAnalysis_iter] in Hrun.
  destruct (flow_sweep bbs GEN KILL IN OUT) as [IN1 OUT1] eqn:Hsweep.
  destruct (decide (IN1 = IN ∧ OUT1 = OUT)) as [[-> ->]|_].
  - injection Hrun as <- <-. unfold flow_sweep in Hsweep.
    injection Hsweep as Hin Hout. by rewrite Hin in Hout.
  - by apply IH in Hrun.
Qed.

(** (IN ∪ GEN) \ KILL \ OUT is empty when OUT = (IN \ KILL) ∪ GEN. *)
Lemma need_of_flow_out_empty (in_ g k : BitVec) (j : nat) :
  BitVec_get (in_ +ᵇ g -ᵇ k -ᵇ flow_out in_ (k, g)) j = false.
Proof.
  unfold BitVec_get, flow_out, BitVec_union, BitVec_difference. simpl.
  rewrite !lookup_zip_with.
  destruct (in_ !! j) as [a|]; [|done].
  destruct (g !! j) as [b|]; [|done].
  destruct (k !! j) as [c|]; [|done].
  simpl. by destruct a, b, c.
Qed.

Lemma insertAutoDestroy_bb_empty_need autoDestroyMap bb to_kill symbols fn :
  (∀ j, BitVec_get to_kill j = false) →
  insertAutoDestroy_bb autoDestroyMap bb to_kill symbols fn = Done fn.
Proof.
  intros Hclear. unfold insertAutoDestroy_bb.
  destruct (last (exprs bb)) as [last_|]; [|done].
  generalize (seq 0 (length to_kill)). intros js.
  induction js as [|j js IH]; [done|].
  cbn [forEach].
  assert (Hbit : insertAutoDestroy_bit autoDestroyMap
                   (getStmtExpr (fn_body fn) last_)
                   match getStmtExpr (fn_body fn) last_ with
                   | Some s => isJump s
                   | None => false
                   end to_kill symbols fn j = Done fn).
  { unfold insertAutoDestroy_bit. by rewrite Hclear. }
  by rewrite Hbit.
Qed.

Lemma insertAutoDestroy_flow_fixed autoDestroyMap bbs GEN KILL IN symbols
    fn fn' :
  insertAutoDestroy_flow autoDestroyMap bbs GEN KILL IN
    (zip_with flow_out IN (zip KILL GEN)) symbols fn = Done fn' →
  fn' = fn.
Proof.
  unfold insertAutoDestroy_flow. apply forEach_fixed.
  intros s i r. unfold insertAutoDestroy_block, flowSet_at.
  destruct (bbs !! i) as [bb|]; [|done].
  rewrite lookup_zip_with, lookup_zip_with.
  destruct (IN !! i) as [in_|]; [|done].
  destruct (GEN !! i) as [g|]; [|done].
  destruct (KILL !! i) as [k|]; [|done].
  unbind. simpl.
  rewrite insertAutoDestroy_bb_empty_need.
  - by intros [= <-].
  - apply need_of_flow_out_empty.
Qed.

Lemma analyse_flow_sound fWarnOwnership fuel buildBasicBlocks fn a :
  analyse fWarnOwnership fuel buildBasicBlocks fn = Done a →
  an_OUT a = zip_with flow_out (an_IN a) (zip (an_KILL a) (an_GEN a)).
Proof.
  unfold analyse.
  destruct (extractSymbols fn) as [ex| | |]; try done. unbind.
  destruct (computeTransitions_fn _ _ _ _ _ _) as [t| | |]; try done.
  destruct (forwardFlowAnalysis _ _ _ _ _ _) as [[IN OUT]| | |] eqn:Hflow;
    try done.
  intros [= <-]. simpl.
  by apply forwardFlowAnalysis_iter_sound in Hflow.
Qed.

(** Whatever the function, the need set is empty in every block, because
    the OUT sets satisfy OUT = (IN \ KILL) ∪ GEN.  So if a run of the pass
    on a function completes, the function it leaves is the function it was
    given, and a second run on that output completes with the same output:
    no run inserts anything. *)
Theorem second_run_inserts_nothing
    (fWarnOwnership : bool) (autoDestroyMap : Type_ → FnSymbol) (fuel : nat)
    (buildBasicBlocks : Fn → list BasicBlock) (fn fn' : Fn)
    (w : list Symbol) :
  insertAutoDestroy_fn fWarnOwnership autoDestroyMap fuel buildBasicBlocks fn
    = Done (fn', w) →
  fn' = fn
  ∧ insertAutoDestroy_fn fWarnOwnership autoDestroyMap fuel buildBasicBlocks
      fn' = Done (fn', w).
Proof.
  intros Hrun.
  assert (Hsame : fn' = fn).
  { unfold insertAutoDestroy_fn in Hrun.
    destruct (analyse _ _ _ fn) as [a| | |] eqn:Ha; try done.
    unbind in Hrun. apply analyse_flow_sound in Ha. rewrite Ha in Hrun.
    destruct (insertAutoDestroy_flow _ _ _ _ _ _ _ fn) as [fn1| | |] eqn:Hins;
      try done.
    apply insertAutoDestroy_flow_fixed in Hins as ->.
    destruct (destroyAliasVectorMap _); congruence. }
  subst fn'. by split.
Qed.

Lemma second_run_inserts_nothing_witness :
  insertAutoDestroy_fn true Scenario.autoDestroyMap 10 Scenario.oneBlock
    (Scenario.fnOf Scenario.stmtsA) = Done (Scenario.fnOf Scenario.stmtsA, [])
  ∧ Scenario.fnOf Scenario.stmtsA = Scenario.fnOf Scenario.stmtsA
  ∧ insertAutoDestroy_fn true Scenario.autoDestroyMap 10 Scenario.oneBlock
      (Scenario.fnOf Scenario.stmtsA) = Done (Scenario.fnOf Scenario.stmtsA, []).
Proof.
  assert (Hrun : insertAutoDestroy_fn true Scenario.autoDestroyMap 10
                   Scenario.oneBlock (Scenario.fnOf Scenario.stmtsA)
                 = Done (Scenario.fnOf Scenario.stmtsA, []))
    by (vm_compute; reflexivity).
  split; [exact Hrun|].
  exact (second_run_inserts_nothing true Scenario.autoDestroyMap 10
           Scenario.oneBlock _ _ _ Hrun).
Defined.

(** C10 (the code at the failing input).  On scenario A,
    [move x, ctor(); return], the need set of the block is empty and the
    first run returns the function as it was: no call that destroys x stands
    before the return, and x is still owned where the block ends (the OUT
    set of the block holds x).  The second run finds the same function and
    does the same. *)
Theorem first_run_leaves_symbol_owned :
  insertAutoDestroy_fn true Scenario.autoDestroyMap 10 Scenario.oneBlock
    (Scenario.fnOf Scenario.stmtsA) = Done (Scenario.fnOf Scenario.stmtsA, [])
  ∧ (a ← analyse true 10 Scenario.oneBlock (Scenario.fnOf Scenario.stmtsA) ;
     Done (an_symbols a, an_OUT a)) = Done ([Scenario.x], [[true]])
  ∧ (a ← analyse true 10 Scenario.oneBlock (Scenario.fnOf Scenario.stmtsA) ;
     need a 0) = Done [false]
  ∧ (r ← insertAutoDestroy_fn true Scenario.autoDestroyMap 10
           Scenario.oneBlock (Scenario.fnOf Scenario.stmtsA) ;
     insertAutoDestroy_fn true Scenario.autoDestroyMap 10 Scenario.oneBlock
       r.1) = Done (Scenario.fnOf Scenario.stmtsA, []).
Proof. repeat split; vm_compute; reflexivity. Qed.

(** ** Scenarios B and E *)

Lemma scenario_B_analysis fWarnOwnership n :
  analyse fWarnOwnership (S (S n)) Scenario.oneBlock
    (Scenario.fnOf Scenario.stmtsB) = Done Scenario.analysisB.
Proof. vm_compute. reflexivity. Qed.

(** C6 (the code at the failing input).  On [move x, ctor(); ~R(x); return]
    the scan sets the GEN bit of x at the construction and leaves it set at
    the destruction, so that the analysis yields GEN = {x}, KILL = {x},
    IN = ∅ and OUT = {x} (GEN takes precedence over KILL): x counts as owned
    where the block ends, although it was destroyed.  need = ∅, and the pass
    returns the function as it was: no auto-destroy call is inserted. *)
Theorem scenario_B_no_insertion_out_owned :
  ∀ (fWarnOwnership : bool) (n : nat),
    analyse fWarnOwnership (S (S n)) Scenario.oneBlock
      (Scenario.fnOf Scenario.stmtsB)
    = Done Scenario.analysisB
    ∧ (a ← analyse fWarnOwnership (S (S n)) Scenario.oneBlock
             (Scenario.fnOf Scenario.stmtsB) ; need a 0) = Done [false]
    ∧ insertAutoDestroy_fn fWarnOwnership Scenario.autoDestroyMap (S (S n))
        Scenario.oneBlock (Scenario.fnOf Scenario.stmtsB)
      = Done (Scenario.fnOf Scenario.stmtsB, []).
Proof.
  intros flag n. split; [apply scenario_B_analysis|].
  rewrite scenario_B_analysis. split; vm_compute; reflexivity.
Qed.

(** No run of the analysis on scenario B yields GEN = {x}, KILL = {x}
    together with OUT = ∅. *)
Lemma scenario_B_out_is_not_empty :
  ¬ ∃ (fWarnOwnership : bool) (fuel : nat) (a : Analysis),
      analyse fWarnOwnership fuel Scenario.oneBlock
        (Scenario.fnOf Scenario.stmtsB) = Done a
      ∧ an_GEN a = [[true]] ∧ an_KILL a = [[true]] ∧ an_OUT a = [[false]]
      ∧ need a 0 = Done [false].
Proof.
  intros (flag & fuel & a & Hrun & _ & _ & Hout & _).
  destruct fuel as [|[|n]].
  - vm_compute in Hrun. discriminate.
  - vm_compute in Hrun. discriminate.
  - rewrite scenario_B_analysis in Hrun. injection Hrun as <-. discriminate.
Qed.

Lemma scenario_E_run fWarnOwnership fuel :
  insertAutoDestroy_fn fWarnOwnership Scenario.autoDestroyMap fuel
    Scenario.oneBlock (Scenario.fnOf Scenario.stmtsE)
  = IntFatal AssertGenClear.
Proof. vm_compute. reflexivity. Qed.

(** C5 (amended).  On [move x, ctor(); ~R(x); move x, ctor(); return] the
    scan reaches the second construction with GEN = {x} and KILL = {x}: the
    destruction has set the KILL bit and left the GEN bit as it was.  The
    construction recognizer then stops in its assertion on the GEN bit, and
    so does the whole run; nothing is inserted. *)
Theorem scenario_E_second_construction_aborts :
  ∀ (fWarnOwnership : bool) (fuel : nat),
    computeTransitions_bb fWarnOwnership fuel (EBlock 0 Scenario.stmtsE)
      (mkBB Scenario.prefixE [] []) Scenario.index1 Scenario.start1
    = Done {| gen := [true]; kill := [true];
              tr_aliases := Scenario.singleton1; warnings := [] |}
    ∧ processConstructor
        (mkCallExpr 8 (Primitive PRIM_MOVE Scenario.tVoid)
           [Scenario.ref 9 Scenario.x; Scenario.construct 10])
        (mkSymExpr 9 Scenario.x) [true] Scenario.index1
      = IntFatal AssertGenClear
    ∧ insertAutoDestroy_fn fWarnOwnership Scenario.autoDestroyMap fuel
        Scenario.oneBlock (Scenario.fnOf Scenario.stmtsE)
      = IntFatal AssertGenClear.
Proof.
  intros flag fuel. split; [by vm_compute|]. split; [by vm_compute|].
  apply scenario_E_run.
Qed.

(** C5 as stated fails: no run of the pass on scenario E completes. *)
Lemma scenario_E_never_completes :
  ¬ ∃ (fWarnOwnership : bool) (fuel : nat) (r : Fn * list Symbol),
      insertAutoDestroy_fn fWarnOwnership Scenario.autoDestroyMap fuel
        Scenario.oneBlock (Scenario.fnOf Scenario.stmtsE) = Done r.
Proof.
  intros (flag & fuel & r & Hrun). by rewrite scenario_E_run in Hrun.
Qed.

(** ** Insertion into statement lists *)

Lemma insertAt_exprId before tgt new e e' :
  insertAt before tgt new e = Some e' → exprId e' = exprId e.
Proof.
  destruct e as [| | | |id c t f|id body]; try done; cbn [insertAt].
  - destruct (insertAt before tgt new t); [by intros [= <-]|].
    destruct (insertAt before tgt new f); [by intros [= <-]|done].
  - destruct (insertInList _ _ _ _ body); [by intros [= <-]|done].
Qed.

Lemma insertInList_spec before tgt new l :
  exprId new ≠ tgt → siblingsOf tgt new = None →
  Forall (insertAt_spec before tgt new) l →
  ∀ acc,
    (siblingsInList (siblingsOf tgt) tgt acc l = None →
     insertInList (insertAt before tgt new) before tgt new l = None)
    ∧ ∀ pre post,
        siblingsInList (siblingsOf tgt) tgt acc l = Some (pre, post) →
        ∃ l', insertInList (insertAt before tgt new) before tgt new l = Some l'
              ∧ siblingsInList (siblingsOf tgt) tgt acc l'
                = Some (if before then (pre ++ [new], post)
                        else (pre, new :: post))
              ∧ length l' + sum_list (map stmtCount l')
                = S (length l + sum_list (map stmtCount l) + stmtCount new).
Proof.
  intros Hid Hnew Hall. induction Hall as [|s r [Hs1 Hs2] _ IH]; intros acc.
  { split; [done|]. by intros pre post. }
  cbn [siblingsInList insertInList].
  destruct (decide (exprId s = tgt)) as [Heq|Hne].
  - split; [done|]. intros pre post [= <- <-].
    destruct before.
    + eexists. split; [done|]. split.
      * cbn [siblingsInList]. rewrite decide_False by done.
        rewrite Hnew. by rewrite decide_True by done.
      * simpl. lia.
    + eexists. split; [done|]. split.
      * cbn [siblingsInList]. by rewrite decide_True by done.
      * simpl. lia.
  - destruct (siblingsOf tgt s) as [[p q]|] eqn:Hsib.
    + split; [done|]. intros pre post [= <- <-].
      destruct (Hs2 p q eq_refl) as (s' & Hins & Hsib' & Hcount).
      rewrite Hins. eexists. split; [done|]. split.
      * cbn [siblingsInList].
        rewrite (insertAt_exprId _ _ _ _ _ Hins).
        rewrite decide_False by done. by rewrite Hsib'.
      * simpl. lia.
    + rewrite (Hs1 eq_refl).
      destruct (IH (acc ++ [s])) as [IH1 IH2]. split.
      * intros Hnone. by rewrite (IH1 Hnone).
      * intros pre post Hsome.
        destruct (IH2 pre post Hsome) as (r' & Hins & Hsib' & Hcount).
        rewrite Hins. eexists. split; [done|]. split.
        -- cbn [siblingsInList]. rewrite decide_False by done.
           by rewrite Hsib.
        -- simpl. simpl in Hcount. lia.
Qed.

Lemma insertAt_siblings before tgt new e :
  exprId new ≠ tgt → siblingsOf tgt new = None →
  insertAt_spec before tgt new e.
Proof.
  intros Hid Hnew. induction e as [| | | |id c t f _ IHt IHf|id body IH]
    using Expr_nested_ind; try (split; [done|by intros pre post]).
  - destruct IHt as [IHt1 IHt2], IHf as [IHf1 IHf2].
    unfold insertAt_spec. cbn [siblingsOf insertAt stmtCount]. split.
    + destruct (siblingsOf tgt t); [done|]. intros Hf.
      by rewrite (IHt1 eq_refl), (IHf1 Hf).
    + intros pre post.
      destruct (siblingsOf tgt t) as [[p q]|] eqn:Ht.
      * intros [= <- <-].
        destruct (IHt2 p q eq_refl) as (t' & Hins & Hsib & Hcount).
        rewrite Hins. eexists. split; [done|].
        cbn [siblingsOf stmtCount]. rewrite Hsib. split; [done|lia].
      * intros Hf. rewrite (IHt1 eq_refl).
        destruct (IHf2 pre post Hf) as (f' & Hins & Hsib & Hcount).
        rewrite Hins. eexists. split; [done|].
        cbn [siblingsOf stmtCount]. rewrite Ht, Hsib. split; [done|lia].
  - destruct (insertInList_spec before tgt new body Hid Hnew IH [])
      as [H1 H2].
    unfold insertAt_spec. cbn [siblingsOf insertAt stmtCount]. split.
    + intros Hnone. by rewrite (H1 Hnone).
    + intros pre post Hsome.
      destruct (H2 pre post Hsome) as (l' & Hins & Hsib & Hcount).
      rewrite Hins. eexists. split; [done|].
      cbn [siblingsOf stmtCount]. by split.
Qed.


Lemma siblingsOf_newAutoDestroyCall autoDestroyMap tgt id sym :
  siblingsOf tgt (newAutoDestroyCall autoDestroyMap id sym) = None.
Proof. done. Qed.

Lemma insertAutoDestroy_bit_clear autoDestroyMap stmt isjump to_kill symbols
    fn j :
  BitVec_get to_kill j = false →
  insertAutoDestroy_bit autoDestroyMap stmt isjump to_kill symbols fn j
  = Done fn.
Proof. intros Hbit. unfold insertAutoDestroy_bit. by rewrite Hbit. Qed.

Lemma insertAutoDestroy_bit_set autoDestroyMap s isjump to_kill symbols fn j
    sym body' :
  BitVec_get to_kill j = true → symbols !! j = Some sym →
  insertAt isjump (exprId s)
    (newAutoDestroyCall autoDestroyMap (next_expr fn) sym) (fn_body fn)
    = Some body' →
  insertAutoDestroy_bit autoDestroyMap (Some s) isjump to_kill symbols fn j
  = Done {| fn_sym := fn_sym fn; fn_formals := fn_formals fn;
            fn_body := body'; next_expr := S (S (next_expr fn)) |}.
Proof.
  intros Hbit Hsym Hbody. unfold insertAutoDestroy_bit, vector_at.
  rewrite Hbit, Hsym. unbind.
  unfold insertBefore, insertAfter. destruct isjump; by rewrite Hbody.
Qed.

(** The loop over the bits, for a statement [s] that sits in a list. *)
Lemma insertAutoDestroy_bits_layout autoDestroyMap s isjump to_kill symbols js :
  ∀ fn pre post,
    siblingsOf (exprId s) (fn_body fn) = Some (pre, post) →
    exprId s < next_expr fn →
    (∀ j, j ∈ js → BitVec_get to_kill j = true → is_Some (symbols !! j)) →
    ∃ fn' calls,
      forEach (insertAutoDestroy_bit autoDestroyMap (Some s) isjump to_kill
                 symbols) js fn = Done fn'
      ∧ siblingsOf (exprId s) (fn_body fn')
        = Some (if isjump then (pre ++ calls, post)
                else (pre, reverse calls ++ post))
      ∧ Forall2 (isAutoDestroyCallAt autoDestroyMap symbols)
          (filter (λ j, BitVec_get to_kill j = true) js) calls
      ∧ stmtCount (fn_body fn') = stmtCount (fn_body fn) + length calls.
Proof.
  induction js as [|j js IH]; intros fn pre post Hsib Hfresh Hsyms.
  { exists fn, []. split; [done|]. split.
    - rewrite Hsib. destruct isjump; by rewrite ?app_nil_r.
    - split; [constructor|simpl; lia]. }
  cbn [forEach]. rewrite filter_cons.
  assert (Hrest : ∀ j', j' ∈ js → BitVec_get to_kill j' = true →
                        is_Some (symbols !! j')).
  { intros j' Hj'. apply Hsyms. by right. }
  destruct (BitVec_get to_kill j) eqn:Hbit.
  2:{ rewrite insertAutoDestroy_bit_clear by done.
      rewrite decide_False by done. unbind. by apply IH. }
  rewrite decide_True by done.
  destruct (Hsyms j) as [sym Hsym]; [left|done|].
  set (call := newAutoDestroyCall autoDestroyMap (next_expr fn) sym).
  destruct (insertAt_siblings isjump (exprId s) call (fn_body fn))
    as [_ Hins]; [simpl; lia|done|].
  destruct (Hins pre post Hsib) as (body' & Hbody & Hsib' & Hcount).
  rewrite (insertAutoDestroy_bit_set _ _ _ _ _ _ _ sym body') by done.
  unbind.
  destruct (IH {| fn_sym := fn_sym fn; fn_formals := fn_formals fn;
                  fn_body := body'; next_expr := S (S (next_expr fn)) |}
              (if isjump then pre ++ [call] else pre)
              (if isjump then post else call :: post))
    as (fn' & calls & Hrun & Hfinal & Hcalls & Hn).
  { cbn [fn_body]. rewrite Hsib'. by destruct isjump. }
  { cbn [next_expr]. lia. }
  { exact Hrest. }
  exists fn', (call :: calls). split; [exact Hrun|]. split; [|split].
  - rewrite Hfinal. destruct isjump.
    + by rewrite <- app_assoc.
    + by rewrite reverse_cons, <- app_assoc.
  - constructor; [|done]. by exists sym, (next_expr fn).
  - rewrite Hn. cbn [fn_body length]. rewrite Hcount.
    change (stmtCount call) with 0. lia.
Qed.

Lemma needIndices_have_symbols to_kill (symbols : SymbolVector) j :
  length to_kill ≤ length symbols →
  BitVec_get to_kill j = true → is_Some (symbols !! j).
Proof.
  intros Hlen Hbit. apply BitVec_get_true_lt in Hbit.
  apply lookup_lt_is_Some. lia.
Qed.

(** What insertAutoDestroy(bb, to_kill, symbols) does to the neighbours of
    the last statement of a non-empty block. *)
Lemma insertAutoDestroy_bb_layout autoDestroyMap bb to_kill symbols fn
    last_ stmt pre post :
  last (exprs bb) = Some last_ →
  getStmtExpr (fn_body fn) last_ = Some stmt →
  siblingsOf (exprId stmt) (fn_body fn) = Some (pre, post) →
  exprId stmt < next_expr fn →
  length to_kill ≤ length symbols →
  ∃ fn' calls,
    insertAutoDestroy_bb autoDestroyMap bb to_kill symbols fn = Done fn'
    ∧ siblingsOf (exprId stmt) (fn_body fn')
      = Some (if isJump stmt then (pre ++ calls, post)
              else (pre, reverse calls ++ post))
    ∧ Forall2 (isAutoDestroyCallAt autoDestroyMap symbols)
        (needIndices to_kill) calls
    ∧ stmtCount (fn_body fn') = stmtCount (fn_body fn) + length calls.
Proof.
  intros Hlast Hstmt Hsib Hfresh Hlen.
  unfold insertAutoDestroy_bb. rewrite Hlast, Hstmt.
  apply insertAutoDestroy_bits_layout; try done.
  intros j _. by apply needIndices_have_symbols.
Qed.

(** ** The need set as a list of indices *)

Lemma popcount_app v w : popcount (v ++ w) = popcount v + popcount w.
Proof. unfold popcount. by rewrite filter_app, length_app. Qed.

Lemma length_needIndices_app v w :
  length (filter (λ j, BitVec_get (v ++ w) j = true) (seq 0 (length v)))
  = popcount v.
Proof.
  revert w. induction v as [|b v IH] using rev_ind; intros w; [done|].
  rewrite length_app. cbn [length]. rewrite seq_app, filter_app, length_app.
  rewrite <- app_assoc. rewrite IH, popcount_app. f_equal.
  cbn [seq Nat.add]. rewrite filter_cons, filter_nil.
  change ([b] ++ w) with (b :: w).
  unfold BitVec_get. rewrite list_lookup_middle by done. simpl.
  unfold popcount. rewrite filter_cons, filter_nil.
  by destruct b.
Qed.

Lemma length_needIndices v : length (needIndices v) = popcount v.
Proof.
  unfold needIndices. rewrite <- (length_needIndices_app v []).
  by rewrite app_nil_r.
Qed.



Lemma StronglySorted_seq j n : StronglySorted lt (seq j n).
Proof.
  revert j. induction n as [|n IH]; intros j; [constructor|].
  cbn [seq]. constructor; [apply IH|].
  apply Forall_forall. intros k Hk. apply elem_of_seq in Hk. lia.
Qed.

Lemma StronglySorted_filter {A} (R : A → A → Prop) (P : A → Prop)
    `{∀ x, Decision (P x)} l :
  StronglySorted R l → StronglySorted R (filter P l).
Proof.
  induction 1 as [|x l Hl IH Hx]; [constructor|].
  rewrite filter_cons. destruct (decide (P x)); [|done].
  constructor; [done|].
  apply Forall_forall. intros y Hy. apply list_elem_of_filter in Hy as [_ Hy].
  rewrite Forall_forall in Hx. by apply Hx.
Qed.

Lemma StronglySorted_needIndices v : StronglySorted lt (needIndices v).
Proof. apply StronglySorted_filter, StronglySorted_seq. Qed.





Lemma StronglySorted_reverse_lt (l : list nat) :
  StronglySorted lt l → StronglySorted (λ a b, b < a) (reverse l).
Proof.
  induction 1 as [|x l Hl IH Hx]; [constructor|].
  rewrite reverse_cons. apply StronglySorted_app. split; [|split].
  - intros a b Ha Hb. apply list_elem_of_singleton in Hb as ->.
    rewrite elem_of_reverse in Ha. rewrite Forall_forall in Hx.
    cbv beta. by apply Hx.
  - exact IH.
  - repeat constructor.
Qed.

(** ** Placement *)




(** C8 (amended).  The calls are built in ascending index order.  Before a
    jump they stand in that order; after a statement that is not a jump each
    new call goes between that statement and the calls inserted so far, so
    that they stand in descending index order. *)
Theorem placement_order_ascending_before_descending_after
    (autoDestroyMap : Type_ → FnSymbol) (bb : BasicBlock) (to_kill : BitVec)
    (symbols : SymbolVector) (fn : Fn) (last_ stmt : Expr)
    (pre post : list Expr) :
  last (exprs bb) = Some last_ →
  getStmtExpr (fn_body fn) last_ = Some stmt →
  siblingsOf (exprId stmt) (fn_body fn) = Some (pre, post) →
  exprId stmt < next_expr fn →
  length to_kill ≤ length symbols →
  ∃ fn' inOrder idxs,
    insertAutoDestroy_bb autoDestroyMap bb to_kill symbols fn = Done fn'
    ∧ Forall2 (isAutoDestroyCallAt autoDestroyMap symbols) idxs inOrder
    ∧ (isJump stmt = true →
       siblingsOf (exprId stmt) (fn_body fn') = Some (pre ++ inOrder, post)
       ∧ idxs = needIndices to_kill
       ∧ StronglySorted lt idxs)
    ∧ (isJump stmt = false →
       siblingsOf (exprId stmt) (fn_body fn') = Some (pre, inOrder ++ post)
       ∧ idxs = reverse (needIndices to_kill)
       ∧ StronglySorted (λ a b, b < a) idxs).
Proof.
  intros Hlast Hstmt Hsib Hfresh Hlen.
  destruct (insertAutoDestroy_bb_layout autoDestroyMap bb to_kill symbols fn
              last_ stmt pre post Hlast Hstmt Hsib Hfresh Hlen)
    as (fn' & calls & Hdone & Hsib' & Hcalls & _).
  destruct (isJump stmt).
  - exists fn', calls, (needIndices to_kill).
    split; [done|]. split; [done|]. split; [|done].
    intros _. split; [done|]. split; [done|].
    apply StronglySorted_needIndices.
  - exists fn', (reverse calls), (reverse (needIndices to_kill)).
    split; [done|]. split; [by apply Forall2_reverse|]. split; [done|].
    intros _. split; [done|]. split; [done|].
    apply StronglySorted_reverse_lt, StronglySorted_needIndices.
Qed.

Lemma placement_order_ascending_before_descending_after_witness :
  ∃ fn' inOrder idxs,
    insertAutoDestroy_bb Scenario.autoDestroyMap
      (mkBB Scenario.stmtsFall [] []) [true; true] [Scenario.x; Scenario.y]
      (Scenario.fnOf Scenario.stmtsFall) = Done fn'
    ∧ Forall2 (isAutoDestroyCallAt Scenario.autoDestroyMap
                 [Scenario.x; Scenario.y]) idxs inOrder
    ∧ siblingsOf 6 (fn_body fn')
      = Some (take 3 Scenario.stmtsFall, inOrder ++ [])
    ∧ idxs = [1; 0].
Proof.
  destruct (placement_order_ascending_before_descending_after
              Scenario.autoDestroyMap (mkBB Scenario.stmtsFall [] [])
              [true; true] [Scenario.x; Scenario.y]
              (Scenario.fnOf Scenario.stmtsFall)
              (Scenario.move 6 (Scenario.ref 7 Scenario.y)
                 (Scenario.construct 8))
              (Scenario.move 6 (Scenario.ref 7 Scenario.y)
                 (Scenario.construct 8))
              (take 3 Scenario.stmtsFall) [])
    as (fn' & inOrder & idxs & Hrun & Hcalls & _ & Hfall).
  - reflexivity.
  - reflexivity.
  - reflexivity.
  - vm_compute. lia.
  - vm_compute. lia.
  - destruct (Hfall eq_refl) as (Hsib & Hidx & _).
    exists fn', inOrder, idxs. split; [exact Hrun|]. split; [exact Hcalls|].
    split; [exact Hsib|]. rewrite Hidx. reflexivity.
Defined.

(** C8 as stated fails.  The block ends in [move y, ctor()], which is not a
    jump; x has index 0 and y has index 1, and the call on y stands before
    the call on x. *)
Lemma placement_after_plain_statement_is_descending :
  (fn' ← insertAutoDestroy_bb Scenario.autoDestroyMap
           (mkBB Scenario.stmtsFall [] []) [true; true]
           [Scenario.x; Scenario.y] (Scenario.fnOf Scenario.stmtsFall) ;
   Done (fn_body fn'))
  = Done (EBlock 0 (Scenario.stmtsFall
                    ++ [Scenario.D 52 Scenario.y; Scenario.D 50 Scenario.x])).
Proof. vm_compute. reflexivity. Qed.

(** * Further properties of the pass *)

(** ** extractSymbols *)

Lemma extractedInv_empty : extractedInv emptyExtracted.
Proof.
  unfold extractedInv, emptyExtracted, emptyAliases. simpl.
  split; [|split; [|split; [|split]]].
  - intros k i H. by rewrite lookup_empty in H.
  - intros s Hs. by apply elem_of_nil in Hs.
  - intros k p H. by rewrite lookup_empty in H.
  - intros k [? H]. by rewrite lookup_empty in H.
  - lia.
Qed.

Lemma extractSymbols_step_skip st def :
  admitted (def_sym def) = false → extractSymbols_step st def = Done st.
Proof.
  unfold admitted, extractSymbols_step. intros H.
  destruct (sym_kind (def_sym def)); simpl in *; try done;
    destruct (FLAG_EXTERN (sym_type (def_sym def))); simpl in *; try done;
    by rewrite H.
Qed.

Lemma extractSymbols_step_admit st def :
  admitted (def_sym def) = true → extractedInv st →
  ∃ st', extractSymbols_step st def = Done st'
         ∧ symbols st' = symbols st ++ [def_sym def]
         ∧ extractedInv st'.
Proof.
  intros Hadm (Ha & Hb & Hc & Hd & He).
  set (sym := def_sym def) in *.
  assert (Hstep : extractSymbols_step st def
    = (let symbolIndex' := map_insert_new (sym_id sym) (length (symbols st))
                             (symbolIndex st) in
       let symbols' := symbols st ++ [sym] in
       index ← symbolIndex_at symbolIndex' sym ;
       _ ← INT_ASSERT (bool_decide (sym_id <$> symbols' !! index
                                    = Some (sym_id sym))) AssertSymbolIndex ;
       Done {| symbols := symbols';
               symbolIndex := symbolIndex';
               aliases :=
                 {| entries := map_insert_new (sym_id sym)
                                 (next_list (aliases st))
                                 (entries (aliases st));
                    lists := <[next_list (aliases st) := [sym]]>
                               (lists (aliases st));
                    next_list := S (next_list (aliases st)) |} |})).
  { unfold admitted in Hadm. unfold extractSymbols_step. fold sym.
    destruct (sym_kind sym); simpl in *; try done;
      destruct (FLAG_EXTERN (sym_type sym)); simpl in *; try done;
      by rewrite Hadm. }
  rewrite Hstep. clear Hstep. cbv zeta.
  unfold map_insert_new, symbolIndex_at.
  destruct (symbolIndex st !! sym_id sym) as [i0|] eqn:Hidx.
  - (* the symbol is already in the index *)
    rewrite Hidx. unbind.
    destruct (Ha _ _ Hidx) as (s0 & Hs0 & Hid0).
    rewrite (lookup_app_l_Some _ _ _ _ Hs0). simpl. rewrite Hid0.
    rewrite bool_decide_eq_true_2 by done. simpl.
    destruct (Hd (sym_id sym)) as [p0 Hp0]; [by eexists|].
    rewrite Hp0.
    eexists. split; [done|]. split; [done|]. simpl.
    split; [|split; [|split; [|split]]]; simpl.
    + intros k i Hk. destruct (Ha _ _ Hk) as (s & Hs & Hid).
      exists s. split; [by apply lookup_app_l_Some|done].
    + intros s Hs. apply elem_of_app in Hs as [Hs|Hs]; [by apply Hb|].
      apply list_elem_of_singleton in Hs as ->. by eexists.
    + intros k p Hk. destruct (Hc _ _ Hk) as (Hnn & Hlt & s & Hl & Hid & Hin).
      split; [done|]. split; [lia|]. exists s.
      split; [|split; [done|]].
      * rewrite lookup_insert_ne by lia. done.
      * apply elem_of_app. by left.
    + done.
    + lia.
  - (* a new symbol *)
    rewrite lookup_insert_eq. unbind.
    rewrite list_lookup_middle by done. simpl.
    rewrite bool_decide_eq_true_2 by done. simpl.
    assert (Hnone : entries (aliases st) !! sym_id sym = None).
    { destruct (entries (aliases st) !! sym_id sym) as [p|] eqn:Hp; [|done].
      destruct (Hc _ _ Hp) as (_ & _ & s & _ & Hid & Hin).
      destruct (Hb _ Hin) as [i Hi]. rewrite Hid in Hi. congruence. }
    rewrite Hnone.
    eexists. split; [done|]. split; [done|]. simpl.
    split; [|split; [|split; [|split]]]; simpl.
    + intros k i Hk.
      destruct (decide (sym_id sym = k)) as [<-|Hne].
      * rewrite lookup_insert_eq in Hk. injection Hk as <-.
        exists sym. split; [by apply list_lookup_middle|done].
      * rewrite lookup_insert_ne in Hk by done.
        destruct (Ha _ _ Hk) as (s & Hs & Hid).
        exists s. split; [by apply lookup_app_l_Some|done].
    + intros s Hs.
      destruct (decide (sym_id sym = sym_id s)) as [Heq|Hne].
      * rewrite <- Heq. rewrite lookup_insert_eq. by eexists.
      * rewrite lookup_insert_ne by done.
        apply elem_of_app in Hs as [Hs|Hs]; [by apply Hb|].
        apply list_elem_of_singleton in Hs as ->. done.
    + intros k p Hk.
      destruct (decide (sym_id sym = k)) as [<-|Hne].
      * rewrite lookup_insert_eq in Hk. injection Hk as <-.
        split; [unfold NULL; lia|]. split; [lia|]. exists sym.
        split; [by rewrite lookup_insert_eq|]. split; [done|].
        apply elem_of_app. right. by apply list_elem_of_singleton.
      * rewrite lookup_insert_ne in Hk by done.
        destruct (Hc _ _ Hk) as (Hnn & Hlt & s & Hl & Hid & Hin).
        split; [done|]. split; [lia|]. exists s.
        split; [|split; [done|]].
        -- rewrite lookup_insert_ne by lia. done.
        -- apply elem_of_app. by left.
    + intros k Hk.
      destruct (decide (sym_id sym = k)) as [<-|Hne].
      * rewrite lookup_insert_eq. by eexists.
      * rewrite lookup_insert_ne in Hk by done.
        rewrite lookup_insert_ne by done. by apply Hd.
    + lia.
Qed.

Lemma extractSymbols_loop defs st :
  extractedInv st →
  ∃ st', forEach extractSymbols_step defs st = Done st'
         ∧ symbols st' = symbols st ++ filter (λ s, admitted s = true)
                                         (def_sym <$> defs)
         ∧ extractedInv st'.
Proof.
  revert st. induction defs as [|def defs IH]; intros st Hinv.
  { exists st. split; [done|]. split; [by rewrite app_nil_r|done]. }
  cbn [forEach]. rewrite fmap_cons, filter_cons.
  destruct (admitted (def_sym def)) eqn:Hadm.
  - destruct (extractSymbols_step_admit st def Hadm Hinv)
      as (st1 & Hstep & Hsyms & Hinv1).
    rewrite Hstep. unbind.
    destruct (IH st1 Hinv1) as (st' & Hrun & Hsyms' & Hinv').
    exists st'. split; [done|]. split; [|done].
    rewrite decide_True by done.
    rewrite Hsyms', Hsyms, <- app_assoc. done.
  - rewrite (extractSymbols_step_skip st def Hadm). unbind.
    rewrite decide_False by (by intros ?).
    by apply IH.
Qed.

Lemma extractSymbols_inv fn :
  ∃ ex, extractSymbols fn = Done ex
        ∧ symbols ex = filter (λ s, admitted s = true)
                         (def_sym <$> defExprsOf fn)
        ∧ extractedInv ex.
Proof.
  destruct (extractSymbols_loop (defExprsOf fn) emptyExtracted
              extractedInv_empty) as (ex & Hrun & Hsyms & Hinv).
  by exists ex.
Qed.

Lemma extractedInv_consistent ex :
  extractedInv ex → cliquesConsistent (aliases ex).
Proof.
  intros (_ & _ & Hc & _ & _) k p Hk _.
  destruct (Hc _ _ Hk) as (_ & _ & s & Hl & Hid & _).
  exists [s]. split; [done|]. split.
  - exists s. split; [by apply list_elem_of_singleton|done].
  - intros s' Hs'. apply list_elem_of_singleton in Hs' as ->. by rewrite Hid.
Qed.

(** X1.  extractSymbols completes on every function, whatever its
    definitions are (its assertion on the index never fires, even when a
    symbol is defined twice), and the vector it builds holds, in order,
    exactly the defined symbols that are arguments or variables of a record
    type that is not extern. *)
Theorem extractSymbols_selects_record_variables (fn : Fn) :
  ∃ ex, extractSymbols fn = Done ex
        ∧ symbols ex = filter (λ s, admitted s = true)
                         (def_sym <$> defExprsOf fn).
Proof.
  destruct (extractSymbols_inv fn) as (ex & Hrun & Hsyms & _).
  by exists ex.
Qed.

(** X2.  In what extractSymbols returns, the index of a symbol is a position
    of the vector that holds a symbol with that address, every symbol of the
    vector has an index, and when no address occurs twice in the vector the
    index of the symbol at position i is i. *)
Theorem extractSymbols_index_agrees_with_vector (fn : Fn) (ex : Extracted) :
  extractSymbols fn = Done ex →
  (∀ k i, symbolIndex ex !! k = Some i →
          ∃ s, symbols ex !! i = Some s ∧ sym_id s = k)
  ∧ (∀ s, s ∈ symbols ex → is_Some (symbolIndex ex !! sym_id s))
  ∧ (NoDup (sym_id <$> symbols ex) →
     ∀ i s, symbols ex !! i = Some s → symbolIndex ex !! sym_id s = Some i).
Proof.
  intros Hrun.
  destruct (extractSymbols_inv fn) as (ex' & Hrun' & _ & Ha & Hb & _).
  rewrite Hrun in Hrun'. injection Hrun' as <-.
  split; [done|]. split; [done|].
  intros Hnd i s Hs.
  destruct (Hb s) as [j Hj]; [by eapply list_elem_of_lookup_2|].
  destruct (Ha _ _ Hj) as (s' & Hs' & Hid).
  rewrite Hj. f_equal.
  eapply (NoDup_lookup (sym_id <$> symbols ex)); [done| |].
  - rewrite list_lookup_fmap, Hs'. simpl. by rewrite Hid.
  - by rewrite list_lookup_fmap, Hs.
Qed.

Lemma extractSymbols_index_agrees_with_vector_witness :
  Scenario.index3 !! sym_id Scenario.y = Some 1.
Proof.
  destruct (extractSymbols_index_agrees_with_vector
              (Scenario.fnOf Scenario.defs)
              {| symbols := [Scenario.x; Scenario.y; Scenario.z];
                 symbolIndex := Scenario.index3;
                 aliases := Scenario.singletons |})
    as (_ & _ & Hidx).
  - vm_compute. reflexivity.
  - assert (Hnd : NoDup [10; 11; 12]).
    { apply (bool_decide_unpack (NoDup [10; 11; 12])). vm_compute. exact I. }
    apply (Hidx Hnd 1 Scenario.y). reflexivity.
Defined.

(** X3.  In what extractSymbols returns, the alias map is consistent, the
    entry of every symbol of the vector points at a live list of one symbol
    with the address of that symbol, and when no address occurs twice in the
    vector that one symbol is the symbol itself: every tracked symbol starts
    as a singleton clique. *)
Theorem extractSymbols_singleton_cliques (fn : Fn) (ex : Extracted) :
  extractSymbols fn = Done ex →
  cliquesConsistent (aliases ex)
  ∧ (∀ s, s ∈ symbols ex →
          ∃ s', members (aliases ex) s = Done [s'] ∧ sym_id s' = sym_id s)
  ∧ (NoDup (sym_id <$> symbols ex) →
     ∀ s, s ∈ symbols ex → members (aliases ex) s = Done [s]).
Proof.
  intros Hrun.
  destruct (extractSymbols_inv fn) as (ex' & Hrun' & _ & Hinv).
  rewrite Hrun in Hrun'. injection Hrun' as <-.
  split; [by apply extractedInv_consistent|].
  destruct Hinv as (Ha & Hb & Hc & Hd & He).
  assert (Hmem : ∀ s, s ∈ symbols ex →
            ∃ s', members (aliases ex) s = Done [s'] ∧ sym_id s' = sym_id s
                  ∧ s' ∈ symbols ex).
  { intros s Hs. destruct (Hd (sym_id s) (Hb s Hs)) as [p Hp].
    destruct (Hc _ _ Hp) as (_ & _ & s' & Hl & Hid & Hin).
    exists s'. unfold members, aliases_at, deref. rewrite Hp. simpl.
    by rewrite Hl. }
  split.
  - intros s Hs. destruct (Hmem s Hs) as (s' & ? & ? & _). by exists s'.
  - intros Hnd s Hs. destruct (Hmem s Hs) as (s' & Hm & Hid & Hin).
    rewrite Hm. do 2 f_equal.
    apply list_elem_of_lookup in Hs as [i Hi].
    apply list_elem_of_lookup in Hin as [j Hj].
    assert (i = j) as ->; [|congruence].
    eapply (NoDup_lookup (sym_id <$> symbols ex)); [done| |].
    + by rewrite list_lookup_fmap, Hi.
    + rewrite list_lookup_fmap, Hj. simpl. by rewrite Hid.
Qed.

Lemma extractSymbols_singleton_cliques_witness :
  members Scenario.singletons Scenario.y = Done [Scenario.y].
Proof.
  destruct (extractSymbols_singleton_cliques
              (Scenario.fnOf Scenario.defs)
              {| symbols := [Scenario.x; Scenario.y; Scenario.z];
                 symbolIndex := Scenario.index3;
                 aliases := Scenario.singletons |})
    as (_ & _ & Hone).
  - vm_compute. reflexivity.
  - assert (Hnd : NoDup [10; 11; 12]).
    { apply (bool_decide_unpack (NoDup [10; 11; 12])). vm_compute. exact I. }
    apply (Hone Hnd Scenario.y).
    apply (bool_decide_unpack
             (Scenario.y ∈ [Scenario.x; Scenario.y; Scenario.z])).
    vm_compute. exact I.
Defined.

(** ** mergeAliases on consistent maps *)

Lemma mergeAliases_live fuel orig alias a po pa ol al :
  entries a !! sym_id orig = Some po →
  entries a !! sym_id alias = Some pa →
  po ≠ pa → lists a !! po = Some ol → lists a !! pa = Some al →
  length al < fuel →
  mergeAliases fuel orig alias a
  = Done {| entries := <[sym_id alias := po]> (entries a);
            lists := delete pa (<[po := ol ++ al]> (lists a));
            next_list := next_list a |}.
Proof.
  intros Ho Ha Hne Hol Hal Hfuel.
  assert (Hpo : aliases_at a orig = po) by (unfold aliases_at; by rewrite Ho).
  assert (Hpa : aliases_at a alias = pa) by (unfold aliases_at; by rewrite Ha).
  rewrite (mergeAliases_distinct fuel orig alias a ol al);
    rewrite ?Hpo, ?Hpa; done.
Qed.

Lemma mergeAliases_consistent a po pa ol al (orig alias : Symbol) :
  cliquesConsistent a →
  entries a !! sym_id orig = Some po → po ≠ NULL →
  entries a !! sym_id alias = Some pa → pa ≠ NULL →
  po ≠ pa → lists a !! po = Some ol → lists a !! pa = Some al →
  (∀ m, m ∈ al → sym_id m = sym_id alias) →
  cliquesConsistent {| entries := <[sym_id alias := po]> (entries a);
                       lists := delete pa (<[po := ol ++ al]> (lists a));
                       next_list := next_list a |}.
Proof.
  intros Hcons Ho Hpo Ha Hpa Hne Hol Hal Hone k p. simpl.
  destruct (Hcons _ _ Ha Hpa) as (al' & Hal' & (s0 & Hs0 & Hid0) & _).
  rewrite Hal in Hal'. injection Hal' as <-.
  destruct (Hcons _ _ Ho Hpo) as (ol' & Hol' & _ & Hallo).
  rewrite Hol in Hol'. injection Hol' as <-.
  assert (Hmem : ∀ m, m ∈ ol ++ al →
            <[sym_id alias := po]> (entries a) !! sym_id m = Some po).
  { intros m Hm.
    destruct (decide (sym_id alias = sym_id m)) as [<-|Hm'].
    { apply lookup_insert_eq. }
    rewrite lookup_insert_ne by done.
    apply elem_of_app in Hm as [Hm|Hm]; [by apply Hallo|].
    apply Hone in Hm. congruence. }
  destruct (decide (sym_id alias = k)) as [<-|Hk].
  - rewrite lookup_insert_eq. intros [= <-] _.
    exists (ol ++ al). split.
    { rewrite lookup_delete_ne by done. apply lookup_insert_eq. }
    split; [|done].
    exists s0. split; [|done]. apply elem_of_app. by right.
  - rewrite lookup_insert_ne by done. intros Hkp Hp.
    destruct (Hcons _ _ Hkp Hp) as (l & Hl & (s & Hs & Hid) & Hall).
    assert (Hppa : p ≠ pa).
    { intros ->. rewrite Hal in Hl. injection Hl as <-.
      apply Hone in Hs. congruence. }
    destruct (decide (p = po)) as [->|Hppo].
    + rewrite Hol in Hl. injection Hl as <-.
      exists (ol ++ al). split.
      { rewrite lookup_delete_ne by done. apply lookup_insert_eq. }
      split; [|done].
      exists s. split; [|done]. apply elem_of_app. by left.
    + exists l. split.
      { rewrite lookup_delete_ne by done. by rewrite lookup_insert_ne. }
      split; [by exists s|].
      intros m Hm. rewrite lookup_insert_ne; [by apply Hall|].
      intros Heq. specialize (Hall m Hm). rewrite <- Heq, Ha in Hall.
      congruence.
Qed.

(** X4.  Let the alias map be consistent and let orig and alias have two
    different live lists.  With fuel for one round more than the list of
    alias is long, mergeAliases completes, and the map it leaves is
    consistent exactly when the list of alias held no symbol other than
    alias: any other member keeps its entry at the list that was deleted. *)
Theorem mergeAliases_consistent_iff_alias_alone
    (fuel : nat) (orig alias : Symbol) (a : AliasVectorMap)
    (po pa : ListPtr) (ol al : SymbolVector) :
  cliquesConsistent a →
  entries a !! sym_id orig = Some po → po ≠ NULL →
  entries a !! sym_id alias = Some pa → pa ≠ NULL →
  po ≠ pa → lists a !! po = Some ol → lists a !! pa = Some al →
  length al < fuel →
  ∃ a', mergeAliases fuel orig alias a = Done a'
        ∧ (cliquesConsistent a' ↔ ∀ m, m ∈ al → sym_id m = sym_id alias).
Proof.
  intros Hcons Ho Hpo Ha Hpa Hne Hol Hal Hfuel.
  rewrite (mergeAliases_live fuel orig alias a po pa ol al) by done.
  eexists. split; [done|]. split.
  - intros Hcons' m Hm.
    destruct (decide (sym_id m = sym_id alias)) as [|Hid]; [done|]. exfalso.
    destruct (Hcons _ _ Ha Hpa) as (al' & Hal' & _ & Hall).
    rewrite Hal in Hal'. injection Hal' as <-.
    destruct (Hcons' (sym_id m) pa) as (l & Hl & _); [|done|].
    + simpl. rewrite lookup_insert_ne by done. by apply Hall.
    + simpl in Hl. by rewrite lookup_delete_eq in Hl.
  - intros Hone. by eapply mergeAliases_consistent.
Qed.

(** X5.  mergeAliases strands every other member of the clique it merges
    in.  On a consistent alias map, for orig and alias with two different
    live lists, a member m of the list of alias other than alias keeps its
    entry at the list that mergeAliases deletes: after the merge, reading
    the clique of m, as the destructor recognizer does, dereferences a
    deleted list. *)
Theorem mergeAliases_strands_every_other_member
    (fuel : nat) (orig alias m : Symbol) (a : AliasVectorMap)
    (po pa : ListPtr) (ol al : SymbolVector) :
  cliquesConsistent a →
  entries a !! sym_id orig = Some po →
  entries a !! sym_id alias = Some pa → pa ≠ NULL →
  po ≠ pa → lists a !! po = Some ol → lists a !! pa = Some al →
  length al < fuel →
  m ∈ al → sym_id m ≠ sym_id alias →
  ∃ a', mergeAliases fuel orig alias a = Done a'
        ∧ aliases_at a' m = pa ∧ lists a' !! pa = None
        ∧ members a' m = Undefined BadPointer.
Proof.
  intros Hcons Ho Ha Hpa Hne Hol Hal Hfuel Hm Hid.
  rewrite (mergeAliases_live fuel orig alias a po pa ol al) by done.
  eexists. split; [done|].
  destruct (Hcons _ _ Ha Hpa) as (al' & Hal' & _ & Hall).
  rewrite Hal in Hal'. injection Hal' as <-.
  assert (Hent : aliases_at
            {| entries := <[sym_id alias := po]> (entries a);
               lists := delete pa (<[po := ol ++ al]> (lists a));
               next_list := next_list a |} m = pa).
  { unfold aliases_at. simpl. rewrite lookup_insert_ne by done.
    by rewrite (Hall m Hm). }
  split; [done|]. split; [apply lookup_delete_eq|].
  unfold members. rewrite Hent. unfold deref. simpl.
  by rewrite lookup_delete_eq.
Qed.

Lemma singletons_consistent : cliquesConsistent Scenario.singletons.
Proof.
  destruct (extractSymbols_inv (Scenario.fnOf Scenario.defs))
    as (ex & Hrun & _ & Hinv).
  rewrite extractSymbols_singletons in Hrun. injection Hrun as <-.
  by apply extractedInv_consistent in Hinv.
Qed.

Lemma merged_xy_consistent : cliquesConsistent Scenario.merged_xy.
Proof.
  assert (Heq : Scenario.merged_xy
                = {| entries := <[sym_id Scenario.y := 1]>
                                  (entries Scenario.singletons);
                     lists := delete 2 (<[1 := [Scenario.x] ++ [Scenario.y]]>
                                          (lists Scenario.singletons));
                     next_list := next_list Scenario.singletons |})
    by (vm_compute; reflexivity).
  rewrite Heq.
  apply (mergeAliases_consistent Scenario.singletons 1 2
           [Scenario.x] [Scenario.y] Scenario.x Scenario.y);
    try reflexivity; try (unfold NULL; lia).
  - apply singletons_consistent.
  - intros m Hm. by apply list_elem_of_singleton in Hm as ->.
Qed.

Lemma mergeAliases_consistent_iff_alias_alone_witness :
  ∃ a', mergeAliases 10 Scenario.z Scenario.y Scenario.merged_xy = Done a'
        ∧ (cliquesConsistent a'
           ↔ ∀ m, m ∈ [Scenario.x; Scenario.y] → sym_id m = sym_id Scenario.y).
Proof.
  apply (mergeAliases_consistent_iff_alias_alone 10 Scenario.z Scenario.y
           Scenario.merged_xy 3 1 [Scenario.z] [Scenario.x; Scenario.y]).
  - apply merged_xy_consistent.
  - reflexivity.
  - unfold NULL. lia.
  - reflexivity.
  - unfold NULL. lia.
  - lia.
  - reflexivity.
  - reflexivity.
  - simpl. lia.
Defined.

(** X6.  Let the alias map be consistent, let orig and alias have two
    different live lists, and let the list of alias hold one symbol.  Then
    mergeAliases completes with fuel 2, every symbol of the list of orig and
    the symbol that was merged in read the list of orig with that symbol
    appended, and every symbol outside the two cliques reads what it read
    before. *)
Theorem mergeAliases_joins_lone_alias
    (fuel : nat) (orig alias s : Symbol) (a : AliasVectorMap)
    (po pa : ListPtr) (ol : SymbolVector) :
  cliquesConsistent a →
  entries a !! sym_id orig = Some po → po ≠ NULL →
  entries a !! sym_id alias = Some pa → pa ≠ NULL →
  po ≠ pa → lists a !! po = Some ol → lists a !! pa = Some [s] →
  1 < fuel →
  ∃ a', mergeAliases fuel orig alias a = Done a'
        ∧ (∀ m, m ∈ ol ++ [s] → members a' m = Done (ol ++ [s]))
        ∧ (∀ t, aliases_at a t ≠ po → aliases_at a t ≠ pa →
                members a' t = members a t).
Proof.
  intros Hcons Ho Hpo Ha Hpa Hne Hol Hal Hfuel.
  rewrite (mergeAliases_live fuel orig alias a po pa ol [s]) by done.
  eexists. split; [done|].
  destruct (Hcons _ _ Ha Hpa) as (al' & Hal' & (s0 & Hs0 & Hid0) & _).
  rewrite Hal in Hal'. injection Hal' as <-.
  apply list_elem_of_singleton in Hs0 as ->.
  destruct (Hcons _ _ Ho Hpo) as (ol' & Hol' & _ & Hallo).
  rewrite Hol in Hol'. injection Hol' as <-.
  split.
  - intros m Hm. unfold members, aliases_at, deref. simpl.
    assert (Hent : <[sym_id alias := po]> (entries a) !! sym_id m = Some po).
    { destruct (decide (sym_id alias = sym_id m)) as [<-|Hm'].
      { apply lookup_insert_eq. }
      rewrite lookup_insert_ne by done.
      apply elem_of_app in Hm as [Hm|Hm]; [by apply Hallo|].
      apply list_elem_of_singleton in Hm as ->. congruence. }
    rewrite Hent. simpl.
    rewrite lookup_delete_ne by done. by rewrite lookup_insert_eq.
  - intros t Hto Hta. unfold members.
    assert (Hsame : aliases_at
              {| entries := <[sym_id alias := po]> (entries a);
                 lists := delete pa (<[po := ol ++ [s]]> (lists a));
                 next_list := next_list a |} t = aliases_at a t).
    { unfold aliases_at in *. simpl.
      rewrite lookup_insert_ne; [done|].
      intros Heq. apply Hta. by rewrite <- Heq, Ha. }
    rewrite Hsame. simpl. unfold deref.
    rewrite lookup_delete_ne by done. by rewrite lookup_insert_ne.
Qed.

Lemma mergeAliases_joins_lone_alias_witness :
  ∃ a', mergeAliases 10 Scenario.x Scenario.z Scenario.merged_xy = Done a'
        ∧ (∀ m, m ∈ [Scenario.x; Scenario.y] ++ [Scenario.z] →
                members a' m = Done ([Scenario.x; Scenario.y] ++ [Scenario.z]))
        ∧ (∀ t, aliases_at Scenario.merged_xy t ≠ 1 →
                aliases_at Scenario.merged_xy t ≠ 3 →
                members a' t = members Scenario.merged_xy t).
Proof.
  apply (mergeAliases_joins_lone_alias 10 Scenario.x Scenario.z Scenario.z
           Scenario.merged_xy 1 3 [Scenario.x; Scenario.y]).
  - apply merged_xy_consistent.
  - reflexivity.
  - unfold NULL. lia.
  - reflexivity.
  - unfold NULL. lia.
  - lia.
  - reflexivity.
  - reflexivity.
  - lia.
Defined.

Lemma mergeAliases_strands_every_other_member_witness :
  ∃ a', mergeAliases 10 Scenario.z Scenario.y Scenario.merged_xy = Done a'
        ∧ aliases_at a' Scenario.x = 1 ∧ lists a' !! 1 = None
        ∧ members a' Scenario.x = Undefined BadPointer.
Proof.
  apply (mergeAliases_strands_every_other_member 10 Scenario.z Scenario.y
           Scenario.x Scenario.merged_xy 3 1 [Scenario.z]
           [Scenario.x; Scenario.y]).
  - apply merged_xy_consistent.
  - reflexivity.
  - reflexivity.
  - unfold NULL. lia.
  - lia.
  - reflexivity.
  - reflexivity.
  - simpl. lia.
  - apply (bool_decide_unpack (Scenario.x ∈ [Scenario.x; Scenario.y])).
    vm_compute. exact I.
  - vm_compute. lia.
Defined.

(** ** destroyAliasVectorMap *)

Lemma lookup_detach (l : SymbolVector) (m : gmap nat ListPtr) (k : nat) :
  foldr (λ sym m, <[sym_id sym := NULL]> m) m l !! k
  = if decide (k ∈ sym_id <$> l) then Some NULL else m !! k.
Proof.
  induction l as [|s l IH].
  { destruct (decide (k ∈ sym_id <$> [])) as [Hin|_]; [|done].
    by apply elem_of_nil in Hin. }
  cbn [foldr]. rewrite fmap_cons.
  destruct (decide (sym_id s = k)) as [<-|Hne].
  - rewrite lookup_insert_eq. rewrite decide_True; [done|]. left.
  - rewrite lookup_insert_ne by done. rewrite IH.
    destruct (decide (k ∈ sym_id <$> l)) as [Hin|Hni].
    + rewrite decide_True; [done|]. by right.
    + rewrite decide_False; [done|].
      intros Hin. apply elem_of_cons in Hin as [->|Hin]; done.
Qed.

Lemma detaches_refl a : detaches a a.
Proof.
  split; [done|]. split; [done|]. split; [done|].
  split; [intros k p H1 Hp H2; congruence|].
  split; [by right|by left].
Qed.

Lemma detaches_trans a a1 a' : detaches a a1 → detaches a1 a' → detaches a a'.
Proof.
  intros (Ha1 & Hb1 & Hc1 & Hd1 & He1 & Hf1) (Ha2 & Hb2 & Hc2 & Hd2 & He2 & Hf2).
  split; [|split; [|split; [|split; [|split]]]].
  - intros k. by rewrite Ha2.
  - intros k Hk. by apply Hb2, Hb1.
  - intros k p Hk Hp. apply Hc1; [|done]. by apply Hc2.
  - intros k p Hk Hp Hk'.
    destruct (entries a1 !! k) as [p1|] eqn:Hk1.
    2:{ apply Ha1 in Hk1. congruence. }
    destruct (decide (p1 = NULL)) as [->|Hp1].
    + destruct (He2 p) as [Hn|Heq]; [done|].
      rewrite Heq. by apply (Hd1 k).
    + assert (p1 = p) as -> by (apply Hc1 in Hk1; [congruence|done]).
      by apply (Hd2 k).
  - intros q. destruct (He2 q) as [Hn|Heq]; [by left|].
    rewrite Heq. apply He1.
  - intros q Hq. destruct (Hf2 q Hq) as [Hn|(Hqn & k & Hk)].
    + by apply Hf1.
    + right. split; [done|]. exists k. by apply Hc1.
Qed.

Lemma destroyAliasVectorMap_step_null al k :
  default NULL (entries al !! k) = NULL →
  destroyAliasVectorMap_step al k = Done al.
Proof.
  intros Hk. unfold destroyAliasVectorMap_step. by rewrite decide_True.
Qed.

Lemma destroyAliasVectorMap_step_live al k p :
  cliquesConsistent al → entries al !! k = Some p → p ≠ NULL →
  ∃ al', destroyAliasVectorMap_step al k = Done al'
         ∧ cliquesConsistent al' ∧ detaches al al'
         ∧ entries al' !! k = Some NULL.
Proof.
  intros Hcons Hk Hp.
  destruct (Hcons k p Hk Hp) as (l & Hl & (s0 & Hs0 & Hid0) & Hall).
  unfold destroyAliasVectorMap_step. rewrite Hk. simpl.
  rewrite decide_False by done. unfold deref. rewrite Hl. unbind.
  eexists. split; [done|].
  assert (Hin : ∀ k', k' ∈ sym_id <$> l → entries al !! k' = Some p).
  { intros k' Hk'. apply list_elem_of_fmap in Hk' as (s & -> & Hs).
    by apply Hall. }
  split; [|split].
  - (* the cliques that are left are as they were *)
    intros k' p'. simpl. rewrite lookup_detach.
    destruct (decide (k' ∈ sym_id <$> l)) as [Hk'|Hk'].
    { intros [= <-] Hnn. done. }
    intros Hk'p Hp'.
    destruct (Hcons k' p' Hk'p Hp') as (l' & Hl' & (s' & Hs' & Hid') & Hall').
    assert (Hne : p' ≠ p).
    { intros ->. rewrite Hl in Hl'. injection Hl' as <-.
      apply Hk'. apply list_elem_of_fmap. by exists s'. }
    exists l'. split; [by rewrite lookup_delete_ne|].
    split; [by exists s'|].
    intros s Hs. rewrite lookup_detach.
    rewrite decide_False; [by apply Hall'|].
    intros Hmem. apply Hin in Hmem. rewrite (Hall' s Hs) in Hmem. congruence.
  - split; [|split; [|split; [|split; [|split]]]]; simpl.
    + intros k'. rewrite lookup_detach.
      destruct (decide (k' ∈ sym_id <$> l)) as [Hk'|Hk']; [|done].
      rewrite (Hin _ Hk'). done.
    + intros k'. rewrite lookup_detach. by destruct (decide _).
    + intros k' p'. rewrite lookup_detach.
      destruct (decide (k' ∈ sym_id <$> l)) as [Hk'|Hk']; [|done].
      intros [= <-] Hnn. done.
    + intros k' p' Hk'p Hp'. rewrite lookup_detach.
      destruct (decide (k' ∈ sym_id <$> l)) as [Hk'|Hk'].
      * intros _. rewrite (Hin _ Hk') in Hk'p. injection Hk'p as <-.
        apply lookup_delete_eq.
      * intros Hnull. rewrite Hk'p in Hnull. congruence.
    + intros q. destruct (decide (q = p)) as [->|Hq].
      * left. apply lookup_delete_eq.
      * right. by apply lookup_delete_ne.
    + intros q. destruct (decide (q = p)) as [->|Hq].
      * intros _. right. split; [done|]. by exists k.
      * rewrite lookup_delete_ne by done. by left.
  - simpl. rewrite lookup_detach. rewrite decide_True; [done|].
    apply list_elem_of_fmap. by exists s0.
Qed.

Lemma destroyAliasVectorMap_loop ks al :
  cliquesConsistent al →
  ∃ al', forEach destroyAliasVectorMap_step ks al = Done al'
         ∧ cliquesConsistent al' ∧ detaches al al'
         ∧ ∀ k, k ∈ ks → is_Some (entries al !! k) →
                entries al' !! k = Some NULL.
Proof.
  revert al. induction ks as [|k ks IH]; intros al Hcons.
  { exists al. split; [done|]. split; [done|]. split; [apply detaches_refl|].
    intros k Hk. by apply elem_of_nil in Hk. }
  cbn [forEach].
  assert (Hstep : ∃ al1, destroyAliasVectorMap_step al k = Done al1
                         ∧ cliquesConsistent al1 ∧ detaches al al1
                         ∧ (is_Some (entries al !! k) →
                            entries al1 !! k = Some NULL)).
  { destruct (entries al !! k) as [p|] eqn:Hk.
    - destruct (decide (p = NULL)) as [->|Hp].
      + exists al. split; [apply destroyAliasVectorMap_step_null; by rewrite Hk|].
        split; [done|]. split; [apply detaches_refl|done].
      + destruct (destroyAliasVectorMap_step_live al k p Hcons Hk Hp)
          as (al1 & Hrun & Hc1 & Hd1 & Hnull).
        exists al1. split; [done|]. split; [done|]. split; [done|]. done.
    - exists al. split; [apply destroyAliasVectorMap_step_null; by rewrite Hk|].
      split; [done|]. split; [apply detaches_refl|].
      intros [? ?]. done. }
  destruct Hstep as (al1 & Hrun1 & Hc1 & Hd1 & Hnull1).
  rewrite Hrun1. unbind.
  destruct (IH al1 Hc1) as (al' & Hrun & Hc' & Hd' & Hnull').
  exists al'. split; [done|]. split; [done|].
  split; [by eapply detaches_trans|].
  intros k' Hk' Hsome. apply elem_of_cons in Hk' as [->|Hk'].
  - destruct Hd' as (_ & Hb & _). apply Hb. by apply Hnull1.
  - apply Hnull'; [done|].
    destruct Hd1 as (Ha & _).
    destruct (entries al1 !! k') eqn:E; [by eexists|].
    apply Ha in E. destruct Hsome as [? Hsome]. congruence.
Qed.

Lemma destroyAliasVectorMap_consistent al :
  cliquesConsistent al →
  ∃ al', destroyAliasVectorMap al = Done al' ∧ detaches al al'
         ∧ ∀ k, is_Some (entries al !! k) → entries al' !! k = Some NULL.
Proof.
  intros Hcons. unfold destroyAliasVectorMap.
  destruct (destroyAliasVectorMap_loop
              (merge_sort (≤) (elements (dom (entries al)))) al Hcons)
    as (al' & Hrun & _ & Hd & Hnull).
  exists al'. split; [done|]. split; [done|].
  intros k Hk. apply Hnull; [|done].
  rewrite merge_sort_Permutation. apply elem_of_elements.
  by apply elem_of_dom.
Qed.

(** X7.  On an alias map whose cliques are consistent, destroyAliasVectorMap
    completes without reading or deleting a deleted list: afterwards every
    key of the map is still a key and holds NULL, every list that an entry
    pointed at is deleted, and a list that no entry pointed at is left as it
    was. *)
Theorem destroyAliasVectorMap_frees_every_clique (al : AliasVectorMap) :
  cliquesConsistent al →
  ∃ al', destroyAliasVectorMap al = Done al'
         ∧ (∀ k, is_Some (entries al !! k) → entries al' !! k = Some NULL)
         ∧ (∀ k, entries al !! k = None → entries al' !! k = None)
         ∧ (∀ k p, entries al !! k = Some p → p ≠ NULL →
                   lists al' !! p = None)
         ∧ (∀ q, (∀ k, entries al !! k ≠ Some q) →
                 lists al' !! q = lists al !! q).
Proof.
  intros Hcons.
  destruct (destroyAliasVectorMap_consistent al Hcons)
    as (al' & Hrun & (Ha & Hb & Hc & Hd & He & Hf) & Hnull).
  exists al'. split; [done|]. split; [done|].
  split; [intros k; apply Ha|]. split.
  - intros k p Hk Hp. apply (Hd k p Hk Hp). apply Hnull. by eexists.
  - intros q Hq. destruct (He q) as [Hn|Heq]; [|done].
    destruct (Hf q Hn) as [Hn'|(_ & k & Hk)]; [congruence|].
    by destruct (Hq k).
Qed.


Lemma destroyAliasVectorMap_frees_every_clique_witness :
  ∃ al', destroyAliasVectorMap Scenario.merged_xy = Done al'
         ∧ (∀ k, is_Some (entries Scenario.merged_xy !! k) →
                 entries al' !! k = Some NULL)
         ∧ (∀ k, entries Scenario.merged_xy !! k = None →
                 entries al' !! k = None)
         ∧ (∀ k p, entries Scenario.merged_xy !! k = Some p → p ≠ NULL →
                   lists al' !! p = None)
         ∧ (∀ q, (∀ k, entries Scenario.merged_xy !! k ≠ Some q) →
                 lists al' !! q = lists Scenario.merged_xy !! q).
Proof.
  apply (destroyAliasVectorMap_frees_every_clique Scenario.merged_xy).
  apply merged_xy_consistent.
Defined.

(** ** What a scan never undoes *)

Lemma forEach_preserves {A S : Type} (P : S → S → Prop)
    (f : S → A → Result S) :
  (∀ s, P s s) → (∀ a b c, P a b → P b c → P a c) →
  (∀ s x s', f s x = Done s' → P s s') →
  ∀ l s s', forEach f l s = Done s' → P s s'.
Proof.
  intros Hrefl Htrans Hstep l.
  induction l as [|x l IH]; intros s s' Hrun.
  - injection Hrun as <-. apply Hrefl.
  - cbn [forEach] in Hrun. destruct (f s x) as [s1| | |] eqn:Hx; try done.
    unbind in Hrun. eapply Htrans; [by eapply Hstep|by apply IH].
Qed.

Lemma grows_refl v : grows v v.
Proof. by split. Qed.

Lemma grows_trans u v w : grows u v → grows v w → grows u w.
Proof.
  intros [Hl1 Hb1] [Hl2 Hb2]. split; [congruence|].
  intros j Hj. by apply Hb2, Hb1.
Qed.

Lemma grows_set v i : grows v (BitVec_set v i).
Proof.
  split; [apply BitVec_set_length|].
  intros j Hj. destruct (decide (i = j)) as [->|Hne].
  - apply BitVec_get_set_eq. by apply BitVec_get_true_lt.
  - by rewrite BitVec_get_set_ne.
Qed.

Lemma processConstructor_grows call se g symbolIndex g' :
  processConstructor call se g symbolIndex = Done g' → grows g g'.
Proof.
  unfold processConstructor.
  destruct (isMoveOrAssign call); [|intros [= <-]; apply grows_refl].
  destruct (get call 2) as [rhs| | |]; try done. unbind.
  destruct (toCallExpr rhs) as [rhsCall|]; [|intros [= <-]; apply grows_refl].
  destruct (isConstructor rhsCall); [|intros [= <-]; apply grows_refl].
  destruct (symbolIndex_at symbolIndex (var se)) as [i| | |]; try done. unbind.
  destruct (BitVec_get g i); [done|]. simpl.
  intros [= <-]. apply grows_set.
Qed.

Lemma processMove_advances flag fuel call se st symbolIndex ms :
  processMove flag fuel call se st symbolIndex = Done ms →
  grows (ms_gen st) (ms_gen ms)
  ∧ ∃ w, ms_warnings ms = ms_warnings st ++ w ∧ (flag = false → w = []).
Proof.
  assert (Hsame : grows (ms_gen st) (ms_gen st)
                  ∧ ∃ w, ms_warnings st = ms_warnings st ++ w
                         ∧ (flag = false → w = [])).
  { split; [apply grows_refl|]. exists []. by rewrite app_nil_r. }
  unfold processMove.
  destruct (isMoveOrAssign call); [|by intros [= <-]].
  destruct (get call 1) as [e1| | |]; try done. unbind.
  destruct (toSymExpr e1) as [lhs|]; [|by intros [= <-]].
  destruct (decide (se_id lhs = se_id se)); [|by intros [= <-]].
  destruct (get call 2) as [e2| | |]; try done. unbind.
  destruct (toSymExpr e2) as [rhs|]; [|by intros [= <-]].
  destruct (symbolIndex_at symbolIndex (var lhs)) as [li| | |]; try done.
  unbind.
  destruct (symbolIndex_at symbolIndex (var rhs)) as [ri| | |]; try done.
  unbind.
  destruct (BitVec_get (ms_gen st) li); [done|]. simpl.
  destruct (BitVec_get (ms_gen st) ri); simpl;
    destruct (mergeAliases fuel (var rhs) (var lhs) (ms_aliases st));
    try done; intros [= <-]; simpl.
  - split; [apply grows_set|]. exists []. by rewrite app_nil_r.
  - split; [apply grows_refl|]. destruct flag.
    + by exists [var rhs].
    + exists []. by rewrite app_nil_r.
Qed.

Lemma processDestructor_clique_grows se k al symbolIndex k' :
  processDestructor_clique se k al symbolIndex = Done k' → grows k k'.
Proof.
  unfold processDestructor_clique.
  destruct (members al (var se)) as [l| | |]; try done. unbind.
  apply (forEach_preserves grows).
  - apply grows_refl.
  - apply grows_trans.
  - intros s x s'. unfold processDestructor_step.
    destruct (symbolIndex_at symbolIndex x) as [i| | |]; try done. unbind.
    destruct (BitVec_get s i); [done|]. simpl.
    intros [= <-]. apply grows_set.
Qed.

Lemma processDestructor_grows call se k al symbolIndex k' :
  processDestructor call se k al symbolIndex = Done k' → grows k k'.
Proof.
  unfold processDestructor.
  destruct (isResolved call) as [fn|].
  - destruct (FLAG_DESTRUCTOR fn); [|intros [= <-]; apply grows_refl].
    destruct (get call 1) as [e1| | |]; try done. unbind.
    destruct (INT_ASSERT _ _); try done. unbind.
    apply processDestructor_clique_grows.
  - destruct (isPrimitive call PRIM_RETURN);
      [|intros [= <-]; apply grows_refl].
    apply processDestructor_clique_grows.
Qed.

Lemma advances_refl flag st : advances flag st st.
Proof.
  split; [apply grows_refl|]. split; [apply grows_refl|].
  exists []. by rewrite app_nil_r.
Qed.

Lemma advances_trans flag a b c :
  advances flag a b → advances flag b c → advances flag a c.
Proof.
  intros (Hg1 & Hk1 & w1 & Hw1 & Hf1) (Hg2 & Hk2 & w2 & Hw2 & Hf2).
  split; [by eapply grows_trans|]. split; [by eapply grows_trans|].
  exists (w1 ++ w2). split.
  - by rewrite Hw2, Hw1, app_assoc.
  - intros Hflag. by rewrite Hf1, Hf2.
Qed.

Lemma computeTransitions_symExpr_advances flag fuel root symbolIndex st se st' :
  computeTransitions_symExpr flag fuel root symbolIndex st se = Done st' →
  advances flag st st'.
Proof.
  unfold computeTransitions_symExpr.
  destruct (symbolIndex !! sym_id (var se));
    [|intros [= <-]; apply advances_refl].
  destruct (parentExprIn root (se_id se) ≫= toCallExpr) as [call|];
    [|intros [= <-]; apply advances_refl].
  destruct (processConstructor call se (gen st) symbolIndex)
    as [g1| | |] eqn:Hc; try done. unbind.
  destruct (processMove flag fuel call se _ symbolIndex)
    as [ms| | |] eqn:Hm; try done. unbind.
  destruct (processDestructor call se (kill st) (ms_aliases ms) symbolIndex)
    as [k'| | |] eqn:Hd; try done. unbind.
  intros [= <-].
  apply processConstructor_grows in Hc.
  apply processMove_advances in Hm as [Hg Hw]. simpl in Hg, Hw.
  apply processDestructor_grows in Hd.
  split; [by eapply grows_trans|]. split; [done|]. done.
Qed.

Lemma computeTransitions_bb_advances flag fuel root bb symbolIndex st st' :
  computeTransitions_bb flag fuel root bb symbolIndex st = Done st' →
  advances flag st st'.
Proof.
  unfold computeTransitions_bb.
  apply (forEach_preserves (advances flag));
    [apply advances_refl|apply advances_trans|].
  intros s expr s'. unfold computeTransitions_symExprs.
  apply (forEach_preserves (advances flag));
    [apply advances_refl|apply advances_trans|].
  intros s1 se s1'. apply computeTransitions_symExpr_advances.
Qed.

Lemma Forall2_grows_refl (F : FlowSet) : Forall2 grows F F.
Proof. induction F; constructor; [apply grows_refl|done]. Qed.

Lemma Forall2_grows_trans (F G H : FlowSet) :
  Forall2 grows F G → Forall2 grows G H → Forall2 grows F H.
Proof.
  intros HFG. revert H. induction HFG as [|u v F G Huv _ IH]; intros H HGH.
  - by inversion HGH.
  - inversion HGH as [|? w ? H' Hvw HGH']; subst.
    constructor; [by eapply grows_trans|by apply IH].
Qed.

Lemma Forall2_grows_insert (F : FlowSet) i v v' :
  F !! i = Some v → grows v v' → Forall2 grows F (<[i := v']> F).
Proof.
  intros Hi Hg. rewrite <- (list_insert_id F i v Hi) at 1.
  apply Forall2_insert; [apply Forall2_grows_refl|done].
Qed.

Lemma advancesFn_refl flag st : advancesFn flag st st.
Proof.
  split; [apply Forall2_grows_refl|]. split; [apply Forall2_grows_refl|].
  exists []. by rewrite app_nil_r.
Qed.

Lemma advancesFn_trans flag a b c :
  advancesFn flag a b → advancesFn flag b c → advancesFn flag a c.
Proof.
  intros (Hg1 & Hk1 & w1 & Hw1 & Hf1) (Hg2 & Hk2 & w2 & Hw2 & Hf2).
  split; [by eapply Forall2_grows_trans|].
  split; [by eapply Forall2_grows_trans|].
  exists (w1 ++ w2). split.
  - by rewrite Hw2, Hw1, app_assoc.
  - intros Hflag. by rewrite Hf1, Hf2.
Qed.

Lemma computeTransitions_fn_advances flag fuel root bbs symbolIndex st st' :
  computeTransitions_fn flag fuel root bbs symbolIndex st = Done st' →
  advancesFn flag st st'.
Proof.
  unfold computeTransitions_fn.
  apply (forEach_preserves (advancesFn flag));
    [apply advancesFn_refl|apply advancesFn_trans|].
  intros s i s'.
  destruct (bbs !! i) as [bb|]; [|done]. unbind.
  unfold flowSet_at.
  destruct (GEN s !! i) as [g|] eqn:Hg; [|done].
  destruct (KILL s !! i) as [k|] eqn:Hk; [|done]. unbind.
  destruct (computeTransitions_bb flag fuel root bb symbolIndex _)
    as [t| | |] eqn:Ht; try done. unbind.
  intros [= <-].
  apply computeTransitions_bb_advances in Ht as (Hgg & Hkk & Hw).
  simpl in Hgg, Hkk, Hw.
  split; [by eapply Forall2_grows_insert|].
  split; [by eapply Forall2_grows_insert|done].
Qed.

(** X8.  The scan of the blocks of a function only ever adds: when it
    completes there are as many GEN and KILL vectors as before, each of the
    length it had and with every bit still set that was set, and the warning
    log is the old log with the new warnings appended.  No recognizer clears
    a bit. *)
Theorem computeTransitions_never_clears_a_bit
    (flag : bool) (fuel : nat) (root : Expr) (bbs : list BasicBlock)
    (symbolIndex : SymbolIndexMap) (st st' : FnTransitions) :
  computeTransitions_fn flag fuel root bbs symbolIndex st = Done st' →
  Forall2 grows (GEN st) (GEN st') ∧ Forall2 grows (KILL st) (KILL st')
  ∧ ∃ w, fn_warnings st' = fn_warnings st ++ w.
Proof.
  intros Hrun.
  apply computeTransitions_fn_advances in Hrun as (Hg & Hk & w & Hw & _).
  split; [done|]. split; [done|]. by exists w.
Qed.

Lemma computeTransitions_never_clears_a_bit_witness :
  ∃ st', computeTransitions_fn true 10 (EBlock 0 Scenario.stmtsOwnedCopy)
           [mkBB Scenario.stmtsOwnedCopy [] []] Scenario.index3
           Scenario.startFn3 = Done st'
         ∧ Forall2 grows (GEN Scenario.startFn3) (GEN st')
         ∧ Forall2 grows (KILL Scenario.startFn3) (KILL st')
         ∧ ∃ w, fn_warnings st' = fn_warnings Scenario.startFn3 ++ w.
Proof.
  eexists. split; [vm_compute; reflexivity|].
  apply (computeTransitions_never_clears_a_bit true 10
           (EBlock 0 Scenario.stmtsOwnedCopy)
           [mkBB Scenario.stmtsOwnedCopy [] []] Scenario.index3).
  vm_compute. reflexivity.
Defined.

(** ** The shape of the analysis *)

Lemma createFlowSet_shape nbbs size :
  length (createFlowSet nbbs size) = nbbs
  ∧ Forall (λ v, length v = size) (createFlowSet nbbs size).
Proof.
  unfold createFlowSet, BitVec_new. split; [apply length_replicate|].
  apply Forall_replicate, length_replicate.
Qed.

Lemma Forall2_grows_shape (F G : FlowSet) size :
  Forall2 grows F G → Forall (λ v, length v = size) F →
  length G = length F ∧ Forall (λ v, length v = size) G.
Proof.
  intros HFG. induction HFG as [|u v F G [Hlen _] _ IH]; intros HF.
  - by split.
  - apply Forall_cons in HF as [Hu HF]. destruct (IH HF) as [Hl HG].
    split; [simpl; by rewrite Hl|]. constructor; [congruence|done].
Qed.

Lemma analyse_shape flag fuel buildBasicBlocks fn a :
  analyse flag fuel buildBasicBlocks fn = Done a →
  an_symbols a = filter (λ s, admitted s = true) (def_sym <$> defExprsOf fn)
  ∧ (length (an_GEN a) = length (buildBasicBlocks fn)
     ∧ Forall (λ v, length v = length (an_symbols a)) (an_GEN a))
  ∧ (length (an_KILL a) = length (buildBasicBlocks fn)
     ∧ Forall (λ v, length v = length (an_symbols a)) (an_KILL a))
  ∧ (flag = false → an_warnings a = []).
Proof.
  unfold analyse.
  destruct (extractSymbols_inv fn) as (ex & Hex & Hsyms & _).
  rewrite Hex. unbind.
  destruct (computeTransitions_fn _ _ _ _ _ _) as [t| | |] eqn:Ht; try done.
  unbind.
  destruct (forwardFlowAnalysis _ _ _ _ _ _) as [[IN OUT]| | |]; try done.
  intros [= <-]. simpl.
  apply computeTransitions_fn_advances in Ht as (Hg & Hk & w & Hw & Hoff).
  simpl in Hg, Hk, Hw.
  destruct (createFlowSet_shape (length (buildBasicBlocks fn))
              (length (symbols ex))) as [Hn Hsz].
  split; [done|].
  split; [|split].
  - destruct (Forall2_grows_shape _ _ _ Hg Hsz) as [Hl HF].
    split; [congruence|done].
  - destruct (Forall2_grows_shape _ _ _ Hk Hsz) as [Hl HF].
    split; [congruence|done].
  - intros Hflag. rewrite Hw. by apply Hoff.
Qed.

(** X9.  When the analysis of a function completes, GEN and KILL hold one
    vector for each basic block, every one of them of the length of the
    symbol vector; so, for whatever IN and OUT vectors the placement is
    given together with them, every set bit of a need vector
    IN[i] + GEN[i] - KILL[i] - OUT[i] is the index of a symbol, and the read
    of symbols[j] in the placement loop stays within the vector. *)
Theorem analysis_vectors_fit_symbols
    (flag : bool) (fuel : nat) (buildBasicBlocks : Fn → list BasicBlock)
    (fn : Fn) (a : Analysis) :
  analyse flag fuel buildBasicBlocks fn = Done a →
  length (an_GEN a) = length (buildBasicBlocks fn)
  ∧ length (an_KILL a) = length (buildBasicBlocks fn)
  ∧ Forall (λ v, length v = length (an_symbols a)) (an_GEN a)
  ∧ Forall (λ v, length v = length (an_symbols a)) (an_KILL a)
  ∧ ∀ (IN OUT : FlowSet) i in_ g k out j,
      IN !! i = Some in_ → an_GEN a !! i = Some g →
      an_KILL a !! i = Some k → OUT !! i = Some out →
      BitVec_get (in_ +ᵇ g -ᵇ k -ᵇ out) j = true →
      ∃ sym, vector_at (an_symbols a) j = Done sym.
Proof.
  intros Hrun.
  destruct (analyse_shape _ _ _ _ _ Hrun)
    as (_ & [HlG HG] & [HlK HK] & _).
  split; [done|]. split; [done|]. split; [done|]. split; [done|].
  intros IN OUT i in_ g k out j Hin Hg Hk Hout Hbit.
  apply BitVec_get_true_lt in Hbit.
  unfold BitVec_difference, BitVec_union in Hbit.
  rewrite !length_zip_with in Hbit.
  assert (Hlen : length g = length (an_symbols a)).
  { rewrite Forall_forall in HG. apply HG.
    by eapply list_elem_of_lookup_2. }
  unfold vector_at.
  destruct (an_symbols a !! j) as [sym|] eqn:Hsym; [by exists sym|].
  apply lookup_ge_None in Hsym. lia.
Qed.

Lemma analysis_vectors_fit_symbols_witness :
  ∃ a,
    analyse true 10 Scenario.oneBlock (Scenario.fnOf Scenario.stmtsA) = Done a
    ∧ an_symbols a = [Scenario.x]
    ∧ an_GEN a = [[true]] ∧ an_KILL a = [[false]]
    ∧ BitVec_get ([true] +ᵇ [true] -ᵇ [false] -ᵇ [false]) 0 = true
    ∧ ∃ sym, vector_at (an_symbols a) 0 = Done sym.
Proof.
  eexists. split; [vm_compute; reflexivity|].
  split; [reflexivity|]. split; [reflexivity|]. split; [reflexivity|].
  split; [reflexivity|].
  destruct (analysis_vectors_fit_symbols true 10 Scenario.oneBlock
              (Scenario.fnOf Scenario.stmtsA) _ eq_refl)
    as (_ & _ & _ & _ & Hfit).
  apply (Hfit [[true]] [[false]] 0 [true] [true] [false] [false] 0);
    reflexivity.
Defined.

(** ** The warning switch *)

Lemma insertAutoDestroy_fn_quiet adm fuel buildBasicBlocks fn r :
  insertAutoDestroy_fn false adm fuel buildBasicBlocks fn = Done r →
  r.2 = [].
Proof.
  unfold insertAutoDestroy_fn.
  destruct (analyse false fuel buildBasicBlocks fn) as [a| | |] eqn:Ha;
    try done. unbind.
  destruct (insertAutoDestroy_flow _ _ _ _ _ _ _ _) as [fn'| | |]; try done.
  unbind.
  destruct (destroyAliasVectorMap _) as [al| | |]; try done. unbind.
  intros [= <-]. simpl.
  by apply analyse_shape in Ha as (_ & _ & _ & Hoff); apply Hoff.
Qed.

(** X10.  With the ownership-warning switch off, a run of the pass over a
    program that completes has reported no warning, whatever the functions
    hold. *)
Theorem no_warning_when_switch_is_off
    (adm : Type_ → FnSymbol) (fuel : nat)
    (buildBasicBlocks : Fn → list BasicBlock)
    (gFnSymbols fns' : list Fn) (w : list Symbol) :
  insertAutoCopyAutoDestroy false adm fuel buildBasicBlocks gFnSymbols
    = Done (fns', w) →
  w = [].
Proof.
  unfold insertAutoCopyAutoDestroy, insertAutoDestroy.
  intros Hrun.
  assert (Hquiet : (@nil Fn, @nil Symbol).2 = [] → (fns', w).2 = []);
    [|by apply Hquiet].
  revert Hrun.
  apply (forEach_preserves (λ (a b : list Fn * list Symbol),
                              a.2 = [] → b.2 = [])).
  - done.
  - intros a b c Hab Hbc Ha. by apply Hbc, Hab.
  - intros acc fn acc'.
    destruct (FLAG_FUNCTION_PROTOTYPE (fn_sym fn)).
    { by intros [= <-]. }
    destruct (insertAutoDestroy_fn false adm fuel buildBasicBlocks fn)
      as [[fn' w']| | |] eqn:Hfn; try done. unbind.
    intros [= <-] Hacc. simpl. rewrite Hacc.
    by apply insertAutoDestroy_fn_quiet in Hfn.
Qed.

Lemma no_warning_when_switch_is_off_witness :
  ∃ fns', insertAutoCopyAutoDestroy false Scenario.autoDestroyMap 10
            Scenario.oneBlock
            [Scenario.fnOf Scenario.stmtsF; Scenario.fnOf Scenario.stmtsA]
          = Done (fns', []).
Proof.
  assert (Hrun : ∃ fns' w,
            insertAutoCopyAutoDestroy false Scenario.autoDestroyMap 10
              Scenario.oneBlock
              [Scenario.fnOf Scenario.stmtsF; Scenario.fnOf Scenario.stmtsA]
            = Done (fns', w))
    by (eexists _, _; vm_compute; reflexivity).
  destruct Hrun as (fns' & w & Hrun). exists fns'.
  rewrite <- (no_warning_when_switch_is_off Scenario.autoDestroyMap 10
                Scenario.oneBlock _ fns' w Hrun).
  exact Hrun.
Defined.

(** ** The warning switch changes the warnings only *)

Lemma sameOutcome_bind {A1 A2 B1 B2 : Type} (R : A1 → A2 → Prop)
    (R' : B1 → B2 → Prop) (m1 : Result A1) (m2 : Result A2)
    (k1 : A1 → Result B1) (k2 : A2 → Result B2) :
  sameOutcome R m1 m2 →
  (∀ a b, R a b → sameOutcome R' (k1 a) (k2 b)) →
  sameOutcome R' (m1 ≫= k1) (m2 ≫= k2).
Proof.
  intros Hm Hk. destruct m1, m2; try done. unbind. by apply Hk.
Qed.

Lemma sameOutcome_refl {A : Type} (r : Result A) : sameOutcome eq r r.
Proof. by destruct r. Qed.

Lemma sameOutcome_forEach {A S1 S2 : Type} (R : S1 → S2 → Prop)
    (f1 : S1 → A → Result S1) (f2 : S2 → A → Result S2) :
  (∀ s1 s2 x, R s1 s2 → sameOutcome R (f1 s1 x) (f2 s2 x)) →
  ∀ l s1 s2, R s1 s2 → sameOutcome R (forEach f1 l s1) (forEach f2 l s2).
Proof.
  intros Hstep l. induction l as [|x l IH]; intros s1 s2 HR; [done|].
  cbn [forEach]. eapply sameOutcome_bind; [by apply Hstep|]. apply IH.
Qed.

Lemma sameOutcome_map {A B C : Type} (R : A → B → Prop) (f : A → C)
    (g : B → C) (r1 : Result A) (r2 : Result B) :
  sameOutcome R r1 r2 → (∀ a b, R a b → f a = g b) →
  Result_map f r1 = Result_map g r2.
Proof.
  intros Hr Hfg. destruct r1, r2; try done; simpl in *; try congruence.
  f_equal. by apply Hfg.
Qed.

Lemma processMove_flag flag1 flag2 fuel call se st1 st2 symbolIndex :
  ms_gen st1 = ms_gen st2 → ms_aliases st1 = ms_aliases st2 →
  sameOutcome (λ m1 m2, ms_gen m1 = ms_gen m2 ∧ ms_aliases m1 = ms_aliases m2)
    (processMove flag1 fuel call se st1 symbolIndex)
    (processMove flag2 fuel call se st2 symbolIndex).
Proof.
  intros Hg Ha. unfold processMove.
  destruct (isMoveOrAssign call); [|done].
  destruct (get call 1) as [e1| | |]; try done. unbind.
  destruct (toSymExpr e1) as [lhs|]; [|done].
  destruct (decide (se_id lhs = se_id se)); [|done].
  destruct (get call 2) as [e2| | |]; try done. unbind.
  destruct (toSymExpr e2) as [rhs|]; [|done].
  destruct (symbolIndex_at symbolIndex (var lhs)) as [li| | |]; try done.
  unbind.
  destruct (symbolIndex_at symbolIndex (var rhs)) as [ri| | |]; try done.
  unbind. rewrite <- Hg, <- Ha.
  destruct (BitVec_get (ms_gen st1) li); [done|]. simpl.
  destruct (BitVec_get (ms_gen st1) ri); simpl;
    by destruct (mergeAliases fuel (var rhs) (var lhs) (ms_aliases st1)).
Qed.

Lemma computeTransitions_symExpr_flag flag1 flag2 fuel root symbolIndex
    st1 st2 se :
  sameButWarnings st1 st2 →
  sameOutcome sameButWarnings
    (computeTransitions_symExpr flag1 fuel root symbolIndex st1 se)
    (computeTransitions_symExpr flag2 fuel root symbolIndex st2 se).
Proof.
  intros (Hg & Hk & Ha). unfold computeTransitions_symExpr.
  destruct (symbolIndex !! sym_id (var se)); [|done].
  destruct (parentExprIn root (se_id se) ≫= toCallExpr) as [call|]; [|done].
  rewrite <- Hg, <- Hk.
  destruct (processConstructor call se (gen st1) symbolIndex)
    as [g1| | |]; try done. unbind.
  eapply sameOutcome_bind.
  { apply (processMove_flag flag1 flag2); simpl; done. }
  intros m1 m2 [Hmg Hma]. rewrite <- Hmg, <- Hma.
  by destruct (processDestructor call se (kill st1) (ms_aliases m1)
                 symbolIndex).
Qed.

Lemma computeTransitions_bb_flag flag1 flag2 fuel root bb symbolIndex st1 st2 :
  sameButWarnings st1 st2 →
  sameOutcome sameButWarnings
    (computeTransitions_bb flag1 fuel root bb symbolIndex st1)
    (computeTransitions_bb flag2 fuel root bb symbolIndex st2).
Proof.
  unfold computeTransitions_bb. apply sameOutcome_forEach.
  intros s1 s2 expr. unfold computeTransitions_symExprs.
  apply sameOutcome_forEach.
  intros t1 t2 se. apply computeTransitions_symExpr_flag.
Qed.

Lemma computeTransitions_fn_flag flag1 flag2 fuel root bbs symbolIndex st1 st2 :
  GEN st1 = GEN st2 → KILL st1 = KILL st2 → fn_aliases st1 = fn_aliases st2 →
  sameOutcome (λ t1 t2, GEN t1 = GEN t2 ∧ KILL t1 = KILL t2
                        ∧ fn_aliases t1 = fn_aliases t2)
    (computeTransitions_fn flag1 fuel root bbs symbolIndex st1)
    (computeTransitions_fn flag2 fuel root bbs symbolIndex st2).
Proof.
  intros Hg Hk Ha. unfold computeTransitions_fn.
  apply sameOutcome_forEach; [|done].
  clear. intros s1 s2 i (Hg & Hk & Ha).
  destruct (bbs !! i) as [bb|]; [|done]. unbind.
  rewrite <- Hg, <- Hk. unfold flowSet_at.
  destruct (GEN s1 !! i) as [g|]; [|done].
  destruct (KILL s1 !! i) as [k|]; [|done]. unbind.
  eapply sameOutcome_bind.
  { apply (computeTransitions_bb_flag flag1 flag2). by split. }
  intros t1 t2 (Htg & Htk & Hta). simpl. by rewrite Htg, Htk, Hta.
Qed.

Lemma insertAutoDestroy_fn_flag flag1 flag2 adm fuel buildBasicBlocks fn :
  sameOutcome (λ r1 r2 : Fn * list Symbol, r1.1 = r2.1)
    (insertAutoDestroy_fn flag1 adm fuel buildBasicBlocks fn)
    (insertAutoDestroy_fn flag2 adm fuel buildBasicBlocks fn).
Proof.
  unfold insertAutoDestroy_fn.
  eapply (sameOutcome_bind
            (λ a1 a2, an_symbols a1 = an_symbols a2 ∧ an_GEN a1 = an_GEN a2
                      ∧ an_KILL a1 = an_KILL a2 ∧ an_IN a1 = an_IN a2
                      ∧ an_OUT a1 = an_OUT a2
                      ∧ an_aliases a1 = an_aliases a2)).
  - unfold analyse.
    destruct (extractSymbols fn) as [ex| | |]; try done. unbind.
    eapply sameOutcome_bind.
    { by apply (computeTransitions_fn_flag flag1 flag2). }
    intros t1 t2 (Hg & Hk & Ha). rewrite <- Hg, <- Hk, <- Ha.
    destruct (forwardFlowAnalysis _ _ _ _ _ _) as [[IN OUT]| | |]; try done.
  - intros a1 a2 (Hs & Hg & Hk & Hi & Ho & Ha).
    rewrite <- Hs, <- Hg, <- Hk, <- Hi, <- Ho, <- Ha.
    destruct (insertAutoDestroy_flow _ _ _ _ _ _ _ _) as [fn'| | |]; try done.
    unbind.
    by destruct (destroyAliasVectorMap _).
Qed.

(** X11.  The ownership-warning switch changes nothing but the warnings:
    over the same program, a run with the switch on and a run with it off
    end the same way (both complete, or both stop in the same error), and
    when they complete they leave the same functions. *)
Theorem warning_switch_changes_warnings_only
    (flag1 flag2 : bool) (adm : Type_ → FnSymbol) (fuel : nat)
    (buildBasicBlocks : Fn → list BasicBlock) (gFnSymbols : list Fn) :
  Result_map fst
    (insertAutoCopyAutoDestroy flag1 adm fuel buildBasicBlocks gFnSymbols)
  = Result_map fst
      (insertAutoCopyAutoDestroy flag2 adm fuel buildBasicBlocks gFnSymbols).
Proof.
  apply (sameOutcome_map (λ r1 r2 : list Fn * list Symbol, r1.1 = r2.1));
    [|done].
  unfold insertAutoCopyAutoDestroy, insertAutoDestroy.
  apply sameOutcome_forEach; [|done].
  intros acc1 acc2 fn Hacc.
  destruct (FLAG_FUNCTION_PROTOTYPE (fn_sym fn)).
  { simpl. by rewrite Hacc. }
  eapply sameOutcome_bind; [apply (insertAutoDestroy_fn_flag flag1 flag2)|].
  intros [fn1 w1] [fn2 w2] Hfn. simpl in *. by rewrite Hacc, Hfn.
Qed.

(** ** The constructor recognizer and the copies it does not see *)

(** The scan of the left operand of [move lhs, f(...)]. *)
Lemma scan_lhs_of_construction
    (flag : bool) (fuel : nat) (root : Expr) (symbolIndex : SymbolIndexMap)
    (st : Transitions) (id rid : nat) (tag : PrimitiveTag) (ty : Type_)
    (lhs : SymExpr) (rcallee : Callee) (rargs : list Expr) (li : nat) :
  tag = PRIM_MOVE ∨ tag = PRIM_ASSIGN →
  parentExprIn root (se_id lhs)
    = Some (ECall id (Primitive tag ty) [ESym lhs; ECall rid rcallee rargs]) →
  symbolIndex !! sym_id (var lhs) = Some li →
  computeTransitions_symExpr flag fuel root symbolIndex st lhs
  = if isConstructor (mkCallExpr rid rcallee rargs)
    then if BitVec_get (gen st) li then IntFatal AssertGenClear
         else Done {| gen := BitVec_set (gen st) li; kill := kill st;
                      tr_aliases := tr_aliases st; warnings := warnings st |}
    else Done st.
Proof.
  intros Htag Hpl Hli.
  unfold computeTransitions_symExpr. rewrite Hli, Hpl.
  change (Some (ECall id (Primitive tag ty)
                  [ESym lhs; ECall rid rcallee rargs]) ≫= toCallExpr)
    with (Some (mkCallExpr id (Primitive tag ty)
                  [ESym lhs; ECall rid rcallee rargs])).
  cbv beta iota.
  unfold processConstructor. rewrite copy_isMoveOrAssign by done.
  change (get (mkCallExpr id (Primitive tag ty)
                 [ESym lhs; ECall rid rcallee rargs]) 2)
    with (Done (ECall rid rcallee rargs)).
  unbind. cbn [toCallExpr].
  assert (Hmove : ∀ g,
            processMove flag fuel
              (mkCallExpr id (Primitive tag ty)
                 [ESym lhs; ECall rid rcallee rargs]) lhs
              {| ms_gen := g; ms_aliases := tr_aliases st;
                 ms_warnings := warnings st |} symbolIndex
            = Done {| ms_gen := g; ms_aliases := tr_aliases st;
                      ms_warnings := warnings st |}).
  { intros g. unfold processMove. rewrite copy_isMoveOrAssign by done.
    change (get (mkCallExpr id (Primitive tag ty)
                   [ESym lhs; ECall rid rcallee rargs]) 1)
      with (Done (ESym lhs)).
    unbind. cbn [toSymExpr]. rewrite decide_True by done.
    change (get (mkCallExpr id (Primitive tag ty)
                   [ESym lhs; ECall rid rcallee rargs]) 2)
      with (Done (ECall rid rcallee rargs)).
    unbind. done. }
  destruct (isConstructor (mkCallExpr rid rcallee rargs)).
  - unfold symbolIndex_at. rewrite Hli. unbind.
    destruct (BitVec_get (gen st) li); [done|]. cbn [negb INT_ASSERT]. unbind.
    rewrite Hmove. unbind. cbn [ms_gen ms_aliases ms_warnings].
    by rewrite copy_processDestructor.
  - rewrite Hmove. unbind. cbn [ms_gen ms_aliases ms_warnings].
    rewrite copy_processDestructor by done. by destruct st.
Qed.

(** X12.  Let [move lhs, f(...)] (or the same with assign) have a tracked
    symbol on its left and a call on its right.  When the call returns a
    class (the return type of the function it resolves to, or the result
    type of the primitive, is a class), the scan of the left operand leaves
    the state as it is.  Otherwise it stops in the assertion on the GEN bit
    when the bit of the symbol is already set, and else sets that bit of GEN
    and changes nothing else: KILL, the alias map and the warnings stay as
    they were. *)
Theorem constructor_recognizer_sets_gen_once
    (flag : bool) (fuel : nat) (root : Expr) (symbolIndex : SymbolIndexMap)
    (st : Transitions) (id rid : nat) (tag : PrimitiveTag) (ty : Type_)
    (lhs : SymExpr) (rcallee : Callee) (rargs : list Expr) (li : nat) :
  tag = PRIM_MOVE ∨ tag = PRIM_ASSIGN →
  parentExprIn root (se_id lhs)
    = Some (ECall id (Primitive tag ty) [ESym lhs; ECall rid rcallee rargs]) →
  symbolIndex !! sym_id (var lhs) = Some li →
  computeTransitions_symExpr flag fuel root symbolIndex st lhs
  = if returnsClass rcallee then Done st
    else if BitVec_get (gen st) li then IntFatal AssertGenClear
         else Done {| gen := BitVec_set (gen st) li; kill := kill st;
                      tr_aliases := tr_aliases st; warnings := warnings st |}.
Proof.
  intros Htag Hpl Hli.
  rewrite (scan_lhs_of_construction flag fuel root symbolIndex st id rid tag
             ty lhs rcallee rargs li Htag Hpl Hli).
  assert (Hctor : isConstructor (mkCallExpr rid rcallee rargs)
                  = negb (returnsClass rcallee)).
  { unfold isConstructor, isResolved, typeInfo, isClass, returnsClass.
    destruct rcallee as [fn|ptag pty]; cbn [call_callee]; [|done].
    done. }
  rewrite Hctor. by destruct (returnsClass rcallee).
Qed.

Lemma constructor_recognizer_sets_gen_once_witness :
  computeTransitions_symExpr true 10 (EBlock 0 Scenario.stmtsA)
    Scenario.index1 Scenario.start1 (mkSymExpr 3 Scenario.x)
  = Done {| gen := [true]; kill := [false];
            tr_aliases := Scenario.singleton1; warnings := [] |}
  ∧ computeTransitions_symExpr true 10 (EBlock 0 Scenario.stmtsA)
      Scenario.index1
      {| gen := [true]; kill := [false]; tr_aliases := Scenario.singleton1;
         warnings := [] |} (mkSymExpr 3 Scenario.x)
    = IntFatal AssertGenClear
  ∧ computeTransitions_symExpr true 10 (EBlock 0 Scenario.stmtsClassCall)
      Scenario.index1 Scenario.start1 (mkSymExpr 3 Scenario.x)
    = Done Scenario.start1.
Proof.
  split; [|split].
  - rewrite (constructor_recognizer_sets_gen_once true 10
               (EBlock 0 Scenario.stmtsA) Scenario.index1 Scenario.start1
               2 4 PRIM_MOVE Scenario.tVoid (mkSymExpr 3 Scenario.x)
               (Resolved Scenario.ctor) [] 0);
      [reflexivity|by left|reflexivity|reflexivity].
  - rewrite (constructor_recognizer_sets_gen_once true 10
               (EBlock 0 Scenario.stmtsA) Scenario.index1
               {| gen := [true]; kill := [false];
                  tr_aliases := Scenario.singleton1; warnings := [] |}
               2 4 PRIM_MOVE Scenario.tVoid (mkSymExpr 3 Scenario.x)
               (Resolved Scenario.ctor) [] 0);
      [reflexivity|by left|reflexivity|reflexivity].
  - rewrite (constructor_recognizer_sets_gen_once true 10
               (EBlock 0 Scenario.stmtsClassCall) Scenario.index1
               Scenario.start1
               2 4 PRIM_MOVE Scenario.tVoid (mkSymExpr 3 Scenario.x)
               (Resolved Scenario.newC) [] 0);
      [reflexivity|by left|reflexivity|reflexivity].
Defined.

(** X13.  Let [move y, x] (or [assign y, x]) copy a tracked x whose GEN bit
    is set into a tracked y whose GEN bit is clear, x and y being in two
    different live cliques.  The scan of the statement completes: the GEN
    bit of y is set and the bit of x stays set, so both own the value; KILL
    is unchanged, x and y both read the merged clique, and no warning is
    reported, whatever the switch says. *)
Theorem owned_copy_shares_ownership
    (flag : bool) (fuel : nat) (root : Expr)
    (symbolIndex : SymbolIndexMap) (st : Transitions)
    (id : nat) (tag : PrimitiveTag) (ty : Type_) (lhs rhs : SymExpr)
    (li ri : nat) (ol al : list Symbol) :
  tag = PRIM_MOVE ∨ tag = PRIM_ASSIGN →
  parentExprIn root (se_id lhs)
    = Some (ECall id (Primitive tag ty) [ESym lhs; ESym rhs]) →
  parentExprIn root (se_id rhs)
    = Some (ECall id (Primitive tag ty) [ESym lhs; ESym rhs]) →
  se_id lhs ≠ se_id rhs →
  symbolIndex !! sym_id (var lhs) = Some li →
  symbolIndex !! sym_id (var rhs) = Some ri →
  BitVec_get (gen st) ri = true →
  BitVec_get (gen st) li = false →
  li < length (gen st) →
  aliases_at (tr_aliases st) (var rhs) ≠ aliases_at (tr_aliases st) (var lhs) →
  lists (tr_aliases st) !! aliases_at (tr_aliases st) (var rhs) = Some ol →
  lists (tr_aliases st) !! aliases_at (tr_aliases st) (var lhs) = Some al →
  length al < fuel →
  ∃ gen' aliases',
    computeTransitions_symExprs flag fuel root
      (collectSymExprsSTL (ECall id (Primitive tag ty) [ESym lhs; ESym rhs]))
      symbolIndex st
    = Done {| gen := gen'; kill := kill st; tr_aliases := aliases';
              warnings := warnings st |}
    ∧ BitVec_get gen' li = true ∧ BitVec_get gen' ri = true
    ∧ (∀ j, j ≠ li → BitVec_get gen' j = BitVec_get (gen st) j)
    ∧ members aliases' (var rhs) = Done (ol ++ al)
    ∧ members aliases' (var lhs) = Done (ol ++ al).
Proof.
  intros Htag Hpl Hpr Hids Hli Hri Hgr Hgl Hlt Hne Hol Hal Hfuel.
  destruct (mergeAliases fuel (var rhs) (var lhs) (tr_aliases st))
    as [aliases'| | |] eqn:Hmerge;
    try (rewrite (mergeAliases_distinct fuel _ _ _ ol al) in Hmerge by done;
         discriminate).
  destruct (members_mergeAliases_distinct fuel _ _ _ ol al aliases'
              Hne Hol Hal Hfuel Hmerge) as [Hmr Hml].
  exists (BitVec_set (gen st) li), aliases'.
  split; [|split; [|split; [|split; [|done]]]].
  - unfold computeTransitions_symExprs.
    change (collectSymExprsSTL
              (ECall id (Primitive tag ty) [ESym lhs; ESym rhs]))
      with [lhs; rhs].
    cbn [forEach].
    rewrite (scan_lhs_of_copy flag fuel root symbolIndex id tag ty
               lhs rhs li ri st Htag Hpl Hli Hri Hgl).
    rewrite Hmerge, Hgr. unbind.
    by rewrite (scan_rhs_of_copy flag fuel root symbolIndex id tag ty
                  lhs rhs ri _ Htag Hpr Hri Hids).
  - by apply BitVec_get_set_eq.
  - destruct (decide (li = ri)) as [->|Hlr]; [congruence|].
    by rewrite BitVec_get_set_ne.
  - intros j Hj. by rewrite BitVec_get_set_ne.
Qed.

Lemma owned_copy_shares_ownership_witness :
  ∃ gen' aliases',
    computeTransitions_symExprs false 10 (EBlock 0 Scenario.stmtsF)
      (collectSymExprsSTL Scenario.copyF) Scenario.index3
      {| gen := [true; false; false]; kill := [false; false; false];
         tr_aliases := Scenario.singletons; warnings := [] |}
    = Done {| gen := gen'; kill := [false; false; false];
              tr_aliases := aliases'; warnings := [] |}
    ∧ BitVec_get gen' 1 = true ∧ BitVec_get gen' 0 = true
    ∧ (∀ j, j ≠ 1 → BitVec_get gen' j = BitVec_get [true; false; false] j)
    ∧ members aliases' Scenario.x = Done ([Scenario.x] ++ [Scenario.y])
    ∧ members aliases' Scenario.y = Done ([Scenario.x] ++ [Scenario.y]).
Proof.
  apply (owned_copy_shares_ownership false 10
           (EBlock 0 Scenario.stmtsF) Scenario.index3
           {| gen := [true; false; false]; kill := [false; false; false];
              tr_aliases := Scenario.singletons; warnings := [] |}
           20 PRIM_MOVE Scenario.tVoid
           (mkSymExpr 21 Scenario.y) (mkSymExpr 22 Scenario.x) 1 0
           [Scenario.x] [Scenario.y]).
  - by left.
  - reflexivity.
  - reflexivity.
  - vm_compute. lia.
  - reflexivity.
  - reflexivity.
  - reflexivity.
  - reflexivity.
  - simpl. lia.
  - vm_compute. lia.
  - reflexivity.
  - reflexivity.
  - simpl. lia.
Defined.

(** X14.  A bitwise copy into a tracked symbol from a symbol that is not
    tracked (a global, a reference, a variable that is not a record) ends the
    scan: symbolIndex.at(rsym) finds no key and throws, before any assertion
    is tested and whatever GEN holds. *)
Theorem copy_from_untracked_symbol_throws
    (flag : bool) (fuel : nat) (root : Expr)
    (symbolIndex : SymbolIndexMap) (st : Transitions)
    (id : nat) (tag : PrimitiveTag) (ty : Type_) (lhs rhs : SymExpr)
    (li : nat) :
  tag = PRIM_MOVE ∨ tag = PRIM_ASSIGN →
  parentExprIn root (se_id lhs)
    = Some (ECall id (Primitive tag ty) [ESym lhs; ESym rhs]) →
  symbolIndex !! sym_id (var lhs) = Some li →
  symbolIndex !! sym_id (var rhs) = None →
  computeTransitions_symExprs flag fuel root
    (collectSymExprsSTL (ECall id (Primitive tag ty) [ESym lhs; ESym rhs]))
    symbolIndex st
  = Undefined MapAt.
Proof.
  intros Htag Hpl Hli Hri.
  unfold computeTransitions_symExprs.
  change (collectSymExprsSTL
            (ECall id (Primitive tag ty) [ESym lhs; ESym rhs]))
    with [lhs; rhs].
  cbn [forEach].
  assert (Hlhs : computeTransitions_symExpr flag fuel root symbolIndex st lhs
                 = Undefined MapAt); [|by rewrite Hlhs].
  unfold computeTransitions_symExpr. rewrite Hli, Hpl.
  change (Some (ECall id (Primitive tag ty) [ESym lhs; ESym rhs])
          ≫= toCallExpr)
    with (Some (mkCallExpr id (Primitive tag ty) [ESym lhs; ESym rhs])).
  cbv beta iota.
  rewrite copy_processConstructor by done. unbind.
  unfold processMove. rewrite copy_isMoveOrAssign by done.
  change (get (mkCallExpr id (Primitive tag ty) [ESym lhs; ESym rhs]) 1)
    with (Done (ESym lhs)).
  unbind. cbn [toSymExpr]. rewrite decide_True by done.
  change (get (mkCallExpr id (Primitive tag ty) [ESym lhs; ESym rhs]) 2)
    with (Done (ESym rhs)).
  unbind. cbn [toSymExpr].
  unfold symbolIndex_at. rewrite Hli, Hri. done.
Qed.

Lemma copy_from_untracked_symbol_throws_witness :
  computeTransitions_symExprs true 10 (EBlock 0 Scenario.stmtsFromClass)
    (collectSymExprsSTL
       (ECall 70 (Primitive PRIM_MOVE Scenario.tVoid)
          [ESym (mkSymExpr 71 Scenario.x); ESym (mkSymExpr 72 Scenario.c)]))
    Scenario.index1 Scenario.start1
  = Undefined MapAt.
Proof.
  apply (copy_from_untracked_symbol_throws true 10
           (EBlock 0 Scenario.stmtsFromClass) Scenario.index1 Scenario.start1
           70 PRIM_MOVE Scenario.tVoid
           (mkSymExpr 71 Scenario.x) (mkSymExpr 72 Scenario.c) 0).
  - by left.
  - reflexivity.
  - reflexivity.
  - reflexivity.
Defined.

(** X15.  A bitwise copy out of a tracked symbol into a symbol that is not
    tracked goes unseen: the scan of the statement completes and leaves GEN,
    KILL, the alias map and the warnings as they were. *)
Theorem copy_into_untracked_symbol_is_ignored
    (flag : bool) (fuel : nat) (root : Expr)
    (symbolIndex : SymbolIndexMap) (st : Transitions)
    (id : nat) (tag : PrimitiveTag) (ty : Type_) (lhs rhs : SymExpr)
    (ri : nat) :
  tag = PRIM_MOVE ∨ tag = PRIM_ASSIGN →
  parentExprIn root (se_id rhs)
    = Some (ECall id (Primitive tag ty) [ESym lhs; ESym rhs]) →
  se_id lhs ≠ se_id rhs →
  symbolIndex !! sym_id (var lhs) = None →
  symbolIndex !! sym_id (var rhs) = Some ri →
  computeTransitions_symExprs flag fuel root
    (collectSymExprsSTL (ECall id (Primitive tag ty) [ESym lhs; ESym rhs]))
    symbolIndex st
  = Done st.
Proof.
  intros Htag Hpr Hids Hli Hri.
  unfold computeTransitions_symExprs.
  change (collectSymExprsSTL
            (ECall id (Primitive tag ty) [ESym lhs; ESym rhs]))
    with [lhs; rhs].
  cbn [forEach].
  assert (Hlhs : computeTransitions_symExpr flag fuel root symbolIndex st lhs
                 = Done st).
  { unfold computeTransitions_symExpr. by rewrite Hli. }
  rewrite Hlhs. unbind.
  by rewrite (scan_rhs_of_copy flag fuel root symbolIndex id tag ty
                lhs rhs ri _ Htag Hpr Hri Hids).
Qed.

Lemma copy_into_untracked_symbol_is_ignored_witness :
  computeTransitions_symExprs true 10 (EBlock 0 Scenario.stmtsIntoClass)
    (collectSymExprsSTL
       (ECall 80 (Primitive PRIM_MOVE Scenario.tVoid)
          [ESym (mkSymExpr 81 Scenario.c); ESym (mkSymExpr 82 Scenario.x)]))
    Scenario.index1 Scenario.start1
  = Done Scenario.start1.
Proof.
  apply (copy_into_untracked_symbol_is_ignored true 10
           (EBlock 0 Scenario.stmtsIntoClass) Scenario.index1 Scenario.start1
           80 PRIM_MOVE Scenario.tVoid
           (mkSymExpr 81 Scenario.c) (mkSymExpr 82 Scenario.x) 0).
  - by left.
  - reflexivity.
  - vm_compute. lia.
  - reflexivity.
  - reflexivity.
Defined.

(** X16.  The scan reacts to three kinds of parent only.  A reference whose
    parent is not a call, or is a call that is neither a move or assign
    primitive, nor a call of a function flagged as a destructor, nor the
    return primitive, leaves GEN, KILL, the alias map and the warnings as
    they were: handing a tracked symbol to an ordinary function transfers
    nothing. *)
Theorem scan_ignores_other_parents
    (flag : bool) (fuel : nat) (root : Expr) (symbolIndex : SymbolIndexMap)
    (st : Transitions) (se : SymExpr) :
  (∀ call, parentExprIn root (se_id se) ≫= toCallExpr = Some call →
           isMoveOrAssign call = false ∧ isDestructorCall call = false
           ∧ isReturnCall call = false) →
  computeTransitions_symExpr flag fuel root symbolIndex st se = Done st.
Proof.
  intros Hother. unfold computeTransitions_symExpr.
  destruct (symbolIndex !! sym_id (var se)); [|done].
  destruct (parentExprIn root (se_id se) ≫= toCallExpr) as [call|]; [|done].
  destruct (Hother call eq_refl) as (Hmove & Hdes & Hret).
  unfold processConstructor, processMove, processDestructor.
  rewrite Hmove. unbind. cbn [ms_gen ms_aliases ms_warnings].
  unfold isDestructorCall in Hdes. unfold isReturnCall in Hret.
  destruct (isResolved call) as [fn|].
  - rewrite Hdes. by destruct st.
  - rewrite Hret. by destruct st.
Qed.

Lemma scan_ignores_other_parents_witness :
  computeTransitions_symExpr true 10 (EBlock 0 Scenario.stmtsPlainCall)
    Scenario.index1 Scenario.start1 (mkSymExpr 91 Scenario.x)
  = Done Scenario.start1.
Proof.
  apply (scan_ignores_other_parents true 10
           (EBlock 0 Scenario.stmtsPlainCall) Scenario.index1
           Scenario.start1 (mkSymExpr 91 Scenario.x)).
  intros call Hcall. vm_compute in Hcall. injection Hcall as <-.
  vm_compute. done.
Defined.

(** ** Copies within a clique and second constructions *)

(** X17.  A bitwise copy between two tracked symbols that already share
    their alias list never completes: with the GEN bit of the left symbol
    clear, the scan of [move y, x] reaches mergeAliases, whose loop appends
    to the list it runs over.  No amount of fuel lets the scan return. *)
Theorem copy_within_a_clique_never_returns
    (flag : bool) (fuel : nat) (root : Expr)
    (symbolIndex : SymbolIndexMap) (st : Transitions)
    (id : nat) (tag : PrimitiveTag) (ty : Type_) (lhs rhs : SymExpr)
    (li ri : nat) (l : list Symbol) :
  tag = PRIM_MOVE ∨ tag = PRIM_ASSIGN →
  parentExprIn root (se_id lhs)
    = Some (ECall id (Primitive tag ty) [ESym lhs; ESym rhs]) →
  symbolIndex !! sym_id (var lhs) = Some li →
  symbolIndex !! sym_id (var rhs) = Some ri →
  BitVec_get (gen st) li = false →
  aliases_at (tr_aliases st) (var rhs) = aliases_at (tr_aliases st) (var lhs) →
  lists (tr_aliases st) !! aliases_at (tr_aliases st) (var rhs) = Some l →
  l ≠ [] →
  computeTransitions_symExprs flag fuel root
    (collectSymExprsSTL (ECall id (Primitive tag ty) [ESym lhs; ESym rhs]))
    symbolIndex st
  = OutOfFuel.
Proof.
  intros Htag Hpl Hli Hri Hgl Hsame Hl Hne.
  unfold computeTransitions_symExprs.
  change (collectSymExprsSTL
            (ECall id (Primitive tag ty) [ESym lhs; ESym rhs]))
    with [lhs; rhs].
  cbn [forEach].
  rewrite (scan_lhs_of_copy flag fuel root symbolIndex id tag ty
             lhs rhs li ri st Htag Hpl Hli Hri Hgl).
  by rewrite (mergeAliases_same_list fuel _ _ _ l Hsame Hl Hne).
Qed.

Lemma copy_within_a_clique_never_returns_witness :
  computeTransitions_symExprs true 1000 (EBlock 0 Scenario.stmtsF)
    (collectSymExprsSTL Scenario.copyF) Scenario.index3
    {| gen := [false; false; false]; kill := [false; false; false];
       tr_aliases := Scenario.merged_xy; warnings := [] |}
  = OutOfFuel.
Proof.
  apply (copy_within_a_clique_never_returns true 1000
           (EBlock 0 Scenario.stmtsF) Scenario.index3
           {| gen := [false; false; false]; kill := [false; false; false];
              tr_aliases := Scenario.merged_xy; warnings := [] |}
           20 PRIM_MOVE Scenario.tVoid
           (mkSymExpr 21 Scenario.y) (mkSymExpr 22 Scenario.x) 1 0
           [Scenario.x; Scenario.y]).
  - by left.
  - reflexivity.
  - reflexivity.
  - reflexivity.
  - reflexivity.
  - reflexivity.
  - reflexivity.
  - done.
Defined.

Lemma forEach_app {A S : Type} (f : S → A → Result S) (l1 l2 : list A)
    (s : S) :
  forEach f (l1 ++ l2) s = forEach f l1 s ≫= forEach f l2.
Proof.
  revert s. induction l1 as [|x l1 IH]; intros s; [done|].
  cbn [forEach app]. destruct (f s x) as [s'| | |]; try done. unbind.
  apply IH.
Qed.

(** X18.  Within a block a symbol is constructed at most once.  Let the GEN
    bit of a tracked symbol be set, and let the scan of the expressions [es]
    of the block complete; then the scan of the block [es], followed by
    [move lhs, f(...)] with that symbol on the left and a call that does not
    return a class on the right, stops in the assertion on the GEN bit,
    whatever [es] holds: a destruction in between does not clear the bit. *)
Theorem second_construction_in_block_aborts
    (flag : bool) (fuel : nat) (root : Expr) (symbolIndex : SymbolIndexMap)
    (st st' : Transitions) (es es' : list Expr) (ins_ outs_ : list nat)
    (id rid : nat) (tag : PrimitiveTag) (ty : Type_)
    (lhs : SymExpr) (rcallee : Callee) (rargs : list Expr) (li : nat) :
  tag = PRIM_MOVE ∨ tag = PRIM_ASSIGN →
  parentExprIn root (se_id lhs)
    = Some (ECall id (Primitive tag ty) [ESym lhs; ECall rid rcallee rargs]) →
  symbolIndex !! sym_id (var lhs) = Some li →
  isConstructor (mkCallExpr rid rcallee rargs) = true →
  BitVec_get (gen st) li = true →
  computeTransitions_bb flag fuel root (mkBB es ins_ outs_) symbolIndex st
    = Done st' →
  computeTransitions_bb flag fuel root
    (mkBB (es ++ ECall id (Primitive tag ty)
                   [ESym lhs; ECall rid rcallee rargs] :: es') ins_ outs_)
    symbolIndex st
  = IntFatal AssertGenClear.
Proof.
  intros Htag Hpl Hli Hctor Hbit Hrun.
  assert (Hstill : BitVec_get (gen st') li = true).
  { apply computeTransitions_bb_advances in Hrun as ([_ Hbits] & _).
    by apply Hbits. }
  unfold computeTransitions_bb in *. cbn [exprs] in *.
  rewrite forEach_app, Hrun. unbind. cbn [forEach].
  assert (Hstmt : computeTransitions_symExprs flag fuel root
                    (collectSymExprsSTL
                       (ECall id (Primitive tag ty)
                          [ESym lhs; ECall rid rcallee rargs]))
                    symbolIndex st' = IntFatal AssertGenClear);
    [|by rewrite Hstmt].
  unfold computeTransitions_symExprs.
  change (collectSymExprsSTL
            (ECall id (Primitive tag ty) [ESym lhs; ECall rid rcallee rargs]))
    with (lhs :: (flat_map collectSymExprsSTL rargs ++ [])).
  cbn [forEach].
  rewrite (scan_lhs_of_construction flag fuel root symbolIndex st' id rid
             tag ty lhs rcallee rargs li Htag Hpl Hli).
  by rewrite Hctor, Hstill.
Qed.

Lemma second_construction_in_block_aborts_witness :
  computeTransitions_bb true 10 (EBlock 0 Scenario.stmtsE)
    (mkBB ([Scenario.destruct_ 5 (Scenario.ref 6 Scenario.x)]
           ++ ECall 8 (Primitive PRIM_MOVE Scenario.tVoid)
                [ESym (mkSymExpr 9 Scenario.x);
                 ECall 10 (Resolved Scenario.ctor) []]
              :: [Scenario.return_ 7]) [] [])
    Scenario.index1
    {| gen := [true]; kill := [false]; tr_aliases := Scenario.singleton1;
       warnings := [] |}
  = IntFatal AssertGenClear.
Proof.
  apply (second_construction_in_block_aborts true 10
           (EBlock 0 Scenario.stmtsE) Scenario.index1
           {| gen := [true]; kill := [false];
              tr_aliases := Scenario.singleton1; warnings := [] |}
           {| gen := [true]; kill := [true];
              tr_aliases := Scenario.singleton1; warnings := [] |}
           [Scenario.destruct_ 5 (Scenario.ref 6 Scenario.x)]
           [Scenario.return_ 7] [] []
           8 10 PRIM_MOVE Scenario.tVoid (mkSymExpr 9 Scenario.x)
           (Resolved Scenario.ctor) [] 0).
  - by left.
  - reflexivity.
  - reflexivity.
  - reflexivity.
  - reflexivity.
  - vm_compute. reflexivity.
Defined.

(** The scan of a reference under a destructor call or a return. *)
Lemma scan_destroyed_reference flag fuel root symbolIndex st r call ms :
  is_Some (symbolIndex !! sym_id (var r)) →
  parentExprIn root (se_id r) ≫= toCallExpr = Some call →
  isReturnCall call = true
  ∨ (isDestructorCall call = true ∧ firstActualIs call r) →
  members (tr_aliases st) (var r) = Done ms →
  computeTransitions_symExpr flag fuel root symbolIndex st r
  = kill' ← forEach (processDestructor_step symbolIndex) ms (kill st) ;
    Done {| gen := gen st; kill := kill'; tr_aliases := tr_aliases st;
            warnings := warnings st |}.
Proof.
  intros [ix Hix] Hparent Hkind Hms.
  assert (Hnm : isMoveOrAssign call = false).
  { destruct Hkind as [?|[? _]]; [by apply isReturnCall_not_move
                                 |by apply isDestructorCall_not_move]. }
  unfold computeTransitions_symExpr. rewrite Hix, Hparent.
  unfold processConstructor, processMove. rewrite Hnm. unbind.
  cbn [ms_gen ms_aliases ms_warnings].
  assert (Hpd : processDestructor call r (kill st) (tr_aliases st) symbolIndex
                = forEach (processDestructor_step symbolIndex) ms (kill st)).
  { unfold processDestructor, processDestructor_clique.
    unfold isDestructorCall, isReturnCall in Hkind.
    destruct (isResolved call) as [fn|].
    - destruct Hkind as [?|[Hd (e1 & Hget & Hid)]]; [done|].
      rewrite Hd, Hget. unbind. rewrite bool_decide_eq_true_2 by done.
      simpl. rewrite Hms. by unbind.
    - destruct Hkind as [Hr|[? _]]; [|done]. rewrite Hr, Hms. by unbind. }
  by rewrite Hpd.
Qed.

(** X19.  Within a block a symbol is destroyed at most once.  Let a KILL bit
    be set, and let the scan of the expressions [es] of the block complete;
    then the scan of [es] followed by a destructor call on a reference r (or
    a return that holds r), the clique of r holding the symbol of that bit,
    stops in the assertion on the KILL bit.  After a bitwise copy, the
    destruction of both copies in one block is such a case. *)
Theorem second_destruction_in_block_aborts
    (flag : bool) (fuel : nat) (root : Expr) (symbolIndex : SymbolIndexMap)
    (st st' : Transitions) (es es' : list Expr) (ins_ outs_ : list nat)
    (stmt : Expr) (r : SymExpr) (rest : list SymExpr) (call : CallExpr)
    (ms : list Symbol) (idxs : list nat) (k : nat) :
  is_Some (symbolIndex !! sym_id (var r)) →
  parentExprIn root (se_id r) ≫= toCallExpr = Some call →
  isReturnCall call = true
  ∨ (isDestructorCall call = true ∧ firstActualIs call r) →
  collectSymExprsSTL stmt = r :: rest →
  BitVec_get (kill st) k = true →
  computeTransitions_bb flag fuel root (mkBB es ins_ outs_) symbolIndex st
    = Done st' →
  members (tr_aliases st') (var r) = Done ms →
  indexedBy symbolIndex ms idxs → k ∈ idxs →
  computeTransitions_bb flag fuel root (mkBB (es ++ stmt :: es') ins_ outs_)
    symbolIndex st
  = IntFatal AssertKillClear.
Proof.
  intros Hidx Hparent Hkind Hcollect Hbit Hrun Hms Hind Hk.
  assert (Hstill : BitVec_get (kill st') k = true).
  { apply computeTransitions_bb_advances in Hrun as (_ & [_ Hbits] & _).
    by apply Hbits. }
  unfold computeTransitions_bb in *. cbn [exprs] in *.
  rewrite forEach_app, Hrun. unbind. cbn [forEach].
  assert (Hstmt : computeTransitions_symExprs flag fuel root
                    (collectSymExprsSTL stmt) symbolIndex st'
                  = IntFatal AssertKillClear); [|by rewrite Hstmt].
  unfold computeTransitions_symExprs. rewrite Hcollect. cbn [forEach].
  rewrite (scan_destroyed_reference flag fuel root symbolIndex st' r call ms
             Hidx Hparent Hkind Hms).
  rewrite (processDestructor_loop_abort symbolIndex ms idxs (kill st') Hind);
    [done|].
  by exists k.
Qed.

Lemma second_destruction_in_block_aborts_witness :
  computeTransitions_bb true 10 (EBlock 0 Scenario.stmtsDouble)
    (mkBB ([Scenario.copyF; Scenario.destruct_ 26 (Scenario.ref 27 Scenario.x)]
           ++ Scenario.destruct_ 28 (Scenario.ref 29 Scenario.y) :: []) [] [])
    Scenario.index3 Scenario.start3
  = IntFatal AssertKillClear
  ∧ computeTransitions_bb true 10 (EBlock 0 Scenario.stmtsDouble)
      (mkBB ([EDef 3 Scenario.z]
             ++ Scenario.destruct_ 28 (Scenario.ref 29 Scenario.y) :: []) [] [])
      Scenario.index3
      {| gen := [false; false; false]; kill := [true; true; false];
         tr_aliases := Scenario.merged_xy; warnings := [] |}
    = IntFatal AssertKillClear.
Proof.
  split.
  - vm_compute. reflexivity.
  - apply (second_destruction_in_block_aborts true 10
             (EBlock 0 Scenario.stmtsDouble) Scenario.index3
             {| gen := [false; false; false]; kill := [true; true; false];
                tr_aliases := Scenario.merged_xy; warnings := [] |}
             {| gen := [false; false; false]; kill := [true; true; false];
                tr_aliases := Scenario.merged_xy; warnings := [] |}
             [EDef 3 Scenario.z] [] [] []
             (Scenario.destruct_ 28 (Scenario.ref 29 Scenario.y))
             (mkSymExpr 29 Scenario.y) []
             (mkCallExpr 28 (Resolved Scenario.dtorR)
                [Scenario.ref 29 Scenario.y])
             [Scenario.x; Scenario.y] [0; 1] 1).
    + by eexists.
    + reflexivity.
    + right. split; [reflexivity|]. eexists. split; reflexivity.
    + reflexivity.
    + reflexivity.
    + vm_compute. reflexivity.
    + reflexivity.
    + repeat constructor.
    + apply (bool_decide_unpack (1 ∈ [0; 1])). vm_compute. exact I.
Defined.

(** ** Set-up and tear-down together *)

Lemma lookup_map_insert_new {V : Type} (k : nat) (v : V) (m : gmap nat V) :
  map_insert_new k v m !! k = Some (default v (m !! k)).
Proof.
  unfold map_insert_new. destruct (m !! k) as [v0|] eqn:Hk.
  - by rewrite Hk.
  - by rewrite lookup_insert_eq.
Qed.

Lemma extractSymbols_step_admit_eq st def :
  admitted (def_sym def) = true → extractedInv st →
  extractSymbols_step st def
  = Done {| symbols := symbols st ++ [def_sym def];
            symbolIndex := map_insert_new (sym_id (def_sym def))
                             (length (symbols st)) (symbolIndex st);
            aliases :=
              {| entries := map_insert_new (sym_id (def_sym def))
                              (next_list (aliases st)) (entries (aliases st));
                 lists := <[next_list (aliases st) := [def_sym def]]>
                            (lists (aliases st));
                 next_list := S (next_list (aliases st)) |} |}.
Proof.
  intros Hadm (Ha & _).
  set (sym := def_sym def) in *.
  assert (Hstep : extractSymbols_step st def
    = (index ← symbolIndex_at
                 (map_insert_new (sym_id sym) (length (symbols st))
                    (symbolIndex st)) sym ;
       _ ← INT_ASSERT (bool_decide (sym_id <$> (symbols st ++ [sym]) !! index
                                    = Some (sym_id sym))) AssertSymbolIndex ;
       Done {| symbols := symbols st ++ [sym];
               symbolIndex := map_insert_new (sym_id sym)
                                (length (symbols st)) (symbolIndex st);
               aliases :=
                 {| entries := map_insert_new (sym_id sym)
                                 (next_list (aliases st))
                                 (entries (aliases st));
                    lists := <[next_list (aliases st) := [sym]]>
                               (lists (aliases st));
                    next_list := S (next_list (aliases st)) |} |})).
  { unfold admitted in Hadm. unfold extractSymbols_step. fold sym.
    destruct (sym_kind sym); simpl in *; try done;
      destruct (FLAG_EXTERN (sym_type sym)); simpl in *; try done;
      by rewrite Hadm. }
  rewrite Hstep. clear Hstep.
  unfold symbolIndex_at. rewrite lookup_map_insert_new. unbind.
  assert (Hat : sym_id <$> (symbols st ++ [sym])
                  !! default (length (symbols st))
                       (symbolIndex st !! sym_id sym)
                = Some (sym_id sym)).
  { destruct (symbolIndex st !! sym_id sym) as [i0|] eqn:Hidx; simpl.
    - destruct (Ha _ _ Hidx) as (s0 & Hs0 & Hid0).
      rewrite (lookup_app_l_Some _ _ _ _ Hs0). simpl. by rewrite Hid0.
    - by rewrite list_lookup_middle. }
  rewrite Hat. by rewrite bool_decide_eq_true_2.
Qed.

Lemma extractSymbols_loop_no_leak defs st :
  extractedInv st →
  (NoDup (sym_id <$> symbols st) →
   ∀ q, is_Some (lists (aliases st) !! q) →
        ∃ k, entries (aliases st) !! k = Some q) →
  ∃ st', forEach extractSymbols_step defs st = Done st'
         ∧ extractedInv st'
         ∧ (NoDup (sym_id <$> symbols st') →
            ∀ q, is_Some (lists (aliases st') !! q) →
                 ∃ k, entries (aliases st') !! k = Some q).
Proof.
  revert st. induction defs as [|def defs IH]; intros st Hinv Hleak.
  { by exists st. }
  cbn [forEach].
  destruct (admitted (def_sym def)) eqn:Hadm.
  2:{ rewrite (extractSymbols_step_skip st def Hadm). unbind. by apply IH. }
  destruct (extractSymbols_step_admit st def Hadm Hinv)
    as (st1 & Hstep & Hsyms & Hinv1).
  rewrite Hstep. unbind. apply IH; [done|].
  rewrite (extractSymbols_step_admit_eq st def Hadm Hinv) in Hstep.
  injection Hstep as <-. simpl.
  destruct Hinv as (Ha & Hb & Hc & Hd & He).
  rewrite fmap_app. intros Hnd q Hq.
  apply NoDup_app in Hnd as (Hnd & Hnew & _).
  assert (Hfresh : entries (aliases st) !! sym_id (def_sym def) = None).
  { destruct (entries (aliases st) !! sym_id (def_sym def)) as [p|] eqn:Hp;
      [|done].
    destruct (Hc _ _ Hp) as (_ & _ & s & _ & Hid & Hin).
    destruct (Hnew (sym_id (def_sym def))).
    - apply list_elem_of_fmap. by exists s.
    - simpl. left. }
  unfold map_insert_new. rewrite Hfresh.
  destruct (decide (q = next_list (aliases st))) as [->|Hne].
  - exists (sym_id (def_sym def)). apply lookup_insert_eq.
  - rewrite lookup_insert_ne in Hq by done.
    destruct (Hleak Hnd q Hq) as [k Hk]. exists k.
    rewrite lookup_insert_ne; [done|]. congruence.
Qed.

(** X20.  Set-up and tear-down fit together: when no symbol is defined twice
    in the function, destroyAliasVectorMap on the alias map that
    extractSymbols has built completes, sets the entry of every symbol to
    NULL and deletes every list that was allocated; none is left behind. *)
Theorem extractSymbols_then_destroy_frees_all (fn : Fn) (ex : Extracted) :
  extractSymbols fn = Done ex →
  NoDup (sym_id <$> symbols ex) →
  ∃ al', destroyAliasVectorMap (aliases ex) = Done al'
         ∧ lists al' = ∅
         ∧ ∀ s, s ∈ symbols ex → entries al' !! sym_id s = Some NULL.
Proof.
  intros Hrun Hnd.
  destruct (extractSymbols_loop_no_leak (defExprsOf fn) emptyExtracted
              extractedInv_empty) as (ex' & Hrun' & Hinv & Hleak).
  { intros _ q [l Hl]. simpl in Hl. by rewrite lookup_empty in Hl. }
  unfold extractSymbols in Hrun. fold (defExprsOf fn) in Hrun.
  rewrite Hrun in Hrun'. injection Hrun' as <-.
  destruct (destroyAliasVectorMap_consistent (aliases ex)
              (extractedInv_consistent ex Hinv))
    as (al' & Hdes & (_ & _ & _ & Hd & He & _) & Hnull).
  destruct Hinv as (Ha & Hb & Hc & Hdom & _).
  exists al'. split; [done|]. split.
  - apply map_eq. intros q. rewrite lookup_empty.
    destruct (He q) as [Hn|Heq]; [done|].
    destruct (lists (aliases ex) !! q) as [l|] eqn:Hq; [|done].
    destruct (Hleak Hnd q) as [k Hk]; [by eexists|].
    destruct (Hc _ _ Hk) as (Hqn & _).
    apply (Hd k q Hk Hqn). apply Hnull. by eexists.
  - intros s Hs. apply Hnull, Hdom, Hb, Hs.
Qed.

Lemma extractSymbols_then_destroy_frees_all_witness :
  ∃ al', destroyAliasVectorMap Scenario.singletons = Done al'
         ∧ lists al' = ∅
         ∧ ∀ s, s ∈ [Scenario.x; Scenario.y; Scenario.z] →
                entries al' !! sym_id s = Some NULL.
Proof.
  apply (extractSymbols_then_destroy_frees_all
           (Scenario.fnOf Scenario.defs)
           {| symbols := [Scenario.x; Scenario.y; Scenario.z];
              symbolIndex := Scenario.index3;
              aliases := Scenario.singletons |}).
  - vm_compute. reflexivity.
  - apply (bool_decide_unpack (NoDup [10; 11; 12])). vm_compute. exact I.
Defined.

(** ** The loop over the functions of the program *)

Lemma insertAutoDestroy_loop_skips flag adm fuel buildBasicBlocks
    (fns : list Fn) (acc1 acc2 : list Fn * list Symbol) :
  acc1.2 = acc2.2 →
  sameOutcome (λ r1 r2 : list Fn * list Symbol, r1.2 = r2.2)
    (forEach (λ acc fn,
                if FLAG_FUNCTION_PROTOTYPE (fn_sym fn)
                then Done (acc.1 ++ [fn], acc.2)
                else
                  '(fn', w) ← insertAutoDestroy_fn flag adm fuel
                                buildBasicBlocks fn ;
                  Done (acc.1 ++ [fn'], acc.2 ++ w))
       fns acc1)
    (forEach (λ acc fn,
                if FLAG_FUNCTION_PROTOTYPE (fn_sym fn)
                then Done (acc.1 ++ [fn], acc.2)
                else
                  '(fn', w) ← insertAutoDestroy_fn flag adm fuel
                                buildBasicBlocks fn ;
                  Done (acc.1 ++ [fn'], acc.2 ++ w))
       (filter (λ fn, FLAG_FUNCTION_PROTOTYPE (fn_sym fn) = false) fns) acc2).
Proof.
  revert acc1 acc2. induction fns as [|fn fns IH]; intros acc1 acc2 Hacc.
  { done. }
  rewrite filter_cons. cbn [forEach].
  destruct (FLAG_FUNCTION_PROTOTYPE (fn_sym fn)) eqn:Hproto.
  - rewrite decide_False by done. unbind. by apply IH.
  - rewrite decide_True by done. cbn [forEach]. rewrite Hproto.
    destruct (insertAutoDestroy_fn flag adm fuel buildBasicBlocks fn)
      as [[fn' w]| | |]; try done. unbind.
    apply IH. simpl. by rewrite Hacc.
Qed.

Lemma insertAutoDestroy_loop_keeps flag adm fuel buildBasicBlocks
    (fns : list Fn) (acc acc' : list Fn * list Symbol) :
  forEach (λ acc fn,
             if FLAG_FUNCTION_PROTOTYPE (fn_sym fn)
             then Done (acc.1 ++ [fn], acc.2)
             else
               '(fn', w) ← insertAutoDestroy_fn flag adm fuel
                             buildBasicBlocks fn ;
               Done (acc.1 ++ [fn'], acc.2 ++ w))
    fns acc = Done acc' →
  ∃ out, acc'.1 = acc.1 ++ out
         ∧ Forall2 (λ fn fn', FLAG_FUNCTION_PROTOTYPE (fn_sym fn) = true →
                              fn' = fn) fns out.
Proof.
  revert acc. induction fns as [|fn fns IH]; intros acc Hrun.
  { injection Hrun as <-. exists []. split; [by rewrite app_nil_r|done]. }
  cbn [forEach] in Hrun.
  destruct (FLAG_FUNCTION_PROTOTYPE (fn_sym fn)) eqn:Hproto.
  - unbind in Hrun. apply IH in Hrun as (out & Hout & Hall). simpl in Hout.
    exists (fn :: out). split; [by rewrite Hout, <- app_assoc|].
    by constructor.
  - destruct (insertAutoDestroy_fn flag adm fuel buildBasicBlocks fn)
      as [[fn' w]| | |]; try done. unbind in Hrun.
    apply IH in Hrun as (out & Hout & Hall). simpl in Hout.
    exists (fn' :: out). split; [by rewrite Hout, <- app_assoc|].
    constructor; [|done]. intros Hp. congruence.
Qed.

(** X21.  The loop over the functions of the program skips prototypes: the
    warnings, or the error in which the pass stops, are those of the program
    with the prototypes taken out; and when the pass completes, the list of
    functions has the length it had and every prototype is where it was,
    untouched. *)
Theorem prototypes_are_skipped
    (flag : bool) (adm : Type_ → FnSymbol) (fuel : nat)
    (buildBasicBlocks : Fn → list BasicBlock) (gFnSymbols : list Fn) :
  Result_map snd
    (insertAutoDestroy flag adm fuel buildBasicBlocks gFnSymbols)
  = Result_map snd
      (insertAutoDestroy flag adm fuel buildBasicBlocks
         (filter (λ fn, FLAG_FUNCTION_PROTOTYPE (fn_sym fn) = false)
            gFnSymbols))
  ∧ ∀ fns' w,
      insertAutoDestroy flag adm fuel buildBasicBlocks gFnSymbols
        = Done (fns', w) →
      length fns' = length gFnSymbols
      ∧ ∀ i fn, gFnSymbols !! i = Some fn →
                FLAG_FUNCTION_PROTOTYPE (fn_sym fn) = true →
                fns' !! i = Some fn.
Proof.
  split.
  - apply (sameOutcome_map (λ r1 r2 : list Fn * list Symbol, r1.2 = r2.2));
      [|done].
    unfold insertAutoDestroy. by apply insertAutoDestroy_loop_skips.
  - intros fns' w Hrun. unfold insertAutoDestroy in Hrun.
    apply insertAutoDestroy_loop_keeps in Hrun as (out & Hout & Hall).
    simpl in Hout. subst out.
    split; [symmetry; by eapply Forall2_length|].
    intros i fn Hi Hp.
    destruct (Forall2_lookup_l _ _ _ _ _ Hall Hi) as (fn' & Hi' & Hkeep).
    rewrite Hi'. f_equal. by apply Hkeep.
Qed.

Lemma prototypes_are_skipped_witness :
  ∃ fns' w,
    insertAutoDestroy true Scenario.autoDestroyMap 10 Scenario.oneBlock
      [Scenario.protoFn; Scenario.fnOf Scenario.stmtsF] = Done (fns', w)
    ∧ length fns' = 2 ∧ fns' !! 0 = Some Scenario.protoFn.
Proof.
  assert (Hrun : ∃ fns' w,
            insertAutoDestroy true Scenario.autoDestroyMap 10
              Scenario.oneBlock
              [Scenario.protoFn; Scenario.fnOf Scenario.stmtsF]
            = Done (fns', w))
    by (eexists _, _; vm_compute; reflexivity).
  destruct Hrun as (fns' & w & Hrun). exists fns', w.
  split; [exact Hrun|].
  destruct (prototypes_are_skipped true Scenario.autoDestroyMap 10
              Scenario.oneBlock
              [Scenario.protoFn; Scenario.fnOf Scenario.stmtsF])
    as [_ Hkeep].
  destruct (Hkeep fns' w Hrun) as [Hlen Hproto].
  split; [exact Hlen|].
  apply (Hproto 0 Scenario.protoFn); reflexivity.
Defined.

(** ** The placement only inserts *)

Lemma insertInList_count before tgt new l :
  Forall (λ s, ∀ s', insertAt before tgt new s = Some s' →
                     stmtCount s' = S (stmtCount s + stmtCount new)) l →
  ∀ l', insertInList (insertAt before tgt new) before tgt new l = Some l' →
        length l' + sum_list (map stmtCount l')
        = S (length l + sum_list (map stmtCount l) + stmtCount new).
Proof.
  intros Hall. induction Hall as [|s r Hs _ IH]; intros l'; [done|].
  cbn [insertInList].
  destruct (decide (exprId s = tgt)) as [_|_].
  { intros [= <-]. destruct before; simpl; lia. }
  destruct (insertAt before tgt new s) as [s'|] eqn:Hins.
  { intros [= <-]. specialize (Hs s' eq_refl). simpl. lia. }
  destruct (insertInList (insertAt before tgt new) before tgt new r)
    as [r'|] eqn:Hr; [|done].
  intros [= <-]. specialize (IH r' eq_refl). simpl. lia.
Qed.

Lemma insertAt_count before tgt new e e' :
  insertAt before tgt new e = Some e' →
  stmtCount e' = S (stmtCount e + stmtCount new).
Proof.
  revert e'. induction e as [| | | |id c t f _ IHt IHf|id body IH]
    using Expr_nested_ind; intros e'; try done; cbn [insertAt].
  - destruct (insertAt before tgt new t) as [t'|].
    { intros [= <-]. cbn [stmtCount]. rewrite (IHt t' eq_refl). lia. }
    destruct (insertAt before tgt new f) as [f'|]; [|done].
    intros [= <-]. cbn [stmtCount]. rewrite (IHf f' eq_refl). lia.
  - destruct (insertInList (insertAt before tgt new) before tgt new body)
      as [body'|] eqn:Hbody; [|done].
    intros [= <-]. cbn [stmtCount].
    by apply (insertInList_count before tgt new body).
Qed.

Lemma insertAutoDestroy_bits_count adm stmt isjump to_kill symbols js :
  ∀ fn fn',
    forEach (insertAutoDestroy_bit adm stmt isjump to_kill symbols) js fn
      = Done fn' →
    fn_sym fn' = fn_sym fn ∧ fn_formals fn' = fn_formals fn
    ∧ stmtCount (fn_body fn')
      = stmtCount (fn_body fn)
        + length (filter (λ j, BitVec_get to_kill j = true) js)
    ∧ next_expr fn'
      = next_expr fn
        + 2 * length (filter (λ j, BitVec_get to_kill j = true) js).
Proof.
  induction js as [|j js IH]; intros fn fn' Hrun.
  { injection Hrun as <-. simpl. repeat split; lia. }
  cbn [forEach] in Hrun. rewrite filter_cons.
  destruct (BitVec_get to_kill j) eqn:Hbit.
  2:{ rewrite insertAutoDestroy_bit_clear in Hrun by done. unbind in Hrun.
      rewrite decide_False by done. by apply IH. }
  rewrite decide_True by done.
  destruct (insertAutoDestroy_bit adm stmt isjump to_kill symbols fn j)
    as [fn1| | |] eqn:Hstep; try done. unbind in Hrun.
  destruct (IH fn1 fn' Hrun) as (Hs & Hf & Hc & Hn).
  assert (Hone : fn_sym fn1 = fn_sym fn ∧ fn_formals fn1 = fn_formals fn
                 ∧ stmtCount (fn_body fn1) = S (stmtCount (fn_body fn))
                 ∧ next_expr fn1 = S (S (next_expr fn))).
  { unfold insertAutoDestroy_bit in Hstep. rewrite Hbit in Hstep.
    destruct (vector_at symbols j) as [sym| | |]; try done. unbind in Hstep.
    destruct stmt as [s|]; [|done].
    unfold insertBefore, insertAfter in Hstep.
    destruct isjump.
    - destruct (insertAt true (exprId s) _ (fn_body fn)) as [body'|] eqn:Hins;
        [|done].
      unbind in Hstep. injection Hstep as <-. simpl.
      apply insertAt_count in Hins. simpl in Hins.
      repeat split; try done. lia.
    - destruct (insertAt false (exprId s) _ (fn_body fn)) as [body'|] eqn:Hins;
        [|done].
      unbind in Hstep. injection Hstep as <-. simpl.
      apply insertAt_count in Hins. simpl in Hins.
      repeat split; try done. lia. }
  destruct Hone as (Hs1 & Hf1 & Hc1 & Hn1).
  split; [congruence|]. split; [congruence|]. simpl. split; lia.
Qed.

Lemma insertAutoDestroy_block_count adm bbs GEN KILL IN OUT symbols fn fn' i :
  insertAutoDestroy_block adm bbs GEN KILL IN OUT symbols fn i = Done fn' →
  fn_sym fn' = fn_sym fn ∧ fn_formals fn' = fn_formals fn
  ∧ stmtCount (fn_body fn')
    = stmtCount (fn_body fn) + insertedIn bbs GEN KILL IN OUT i
  ∧ next_expr fn'
    = next_expr fn + 2 * insertedIn bbs GEN KILL IN OUT i.
Proof.
  unfold insertAutoDestroy_block, insertedIn, flowSet_at.
  destruct (bbs !! i) as [bb|]; [|done]. unbind.
  destruct (IN !! i) as [in_|]; [|done].
  destruct (GEN !! i) as [g|]; [|done].
  destruct (KILL !! i) as [k|]; [|done].
  destruct (OUT !! i) as [out|]; [|done]. unbind.
  unfold insertAutoDestroy_bb.
  destruct (last (exprs bb)) as [last_|].
  2:{ intros [= <-]. repeat split; lia. }
  intros Hrun. apply insertAutoDestroy_bits_count in Hrun.
  fold (needIndices (in_ +ᵇ g -ᵇ k -ᵇ out)) in Hrun.
  by rewrite length_needIndices in Hrun.
Qed.

(** X22.  The placement only inserts.  For whatever flow sets, when
    insertAutoDestroy(fn, GEN, KILL, IN, OUT, symbols) completes, the symbol
    and the formals of the function are as they were, the number of
    statements of the body has grown by exactly the number of set need bits
    of the blocks that are not empty, and every inserted call has taken two
    fresh addresses. *)
Theorem placement_only_inserts
    (adm : Type_ → FnSymbol) (bbs : list BasicBlock)
    (GEN KILL IN OUT : FlowSet) (symbols : SymbolVector) (fn fn' : Fn) :
  insertAutoDestroy_flow adm bbs GEN KILL IN OUT symbols fn = Done fn' →
  let n := sum_list (insertedIn bbs GEN KILL IN OUT <$> seq 0 (length bbs)) in
  fn_sym fn' = fn_sym fn ∧ fn_formals fn' = fn_formals fn
  ∧ stmtCount (fn_body fn') = stmtCount (fn_body fn) + n
  ∧ next_expr fn' = next_expr fn + 2 * n.
Proof.
  unfold insertAutoDestroy_flow. cbv zeta.
  generalize (seq 0 (length bbs)). intros idxs.
  revert fn. induction idxs as [|i idxs IH]; intros fn Hrun.
  { injection Hrun as <-. simpl. repeat split; lia. }
  cbn [forEach] in Hrun.
  destruct (insertAutoDestroy_block adm bbs GEN KILL IN OUT symbols fn i)
    as [fn1| | |] eqn:Hstep; try done. unbind in Hrun.
  apply insertAutoDestroy_block_count in Hstep as (Hs1 & Hf1 & Hc1 & Hn1).
  destruct (IH fn1 Hrun) as (Hs & Hf & Hc & Hn).
  rewrite fmap_cons.
  change (sum_list (insertedIn bbs GEN KILL IN OUT i
                    :: (insertedIn bbs GEN KILL IN OUT <$> idxs)))
    with (insertedIn bbs GEN KILL IN OUT i
          + sum_list (insertedIn bbs GEN KILL IN OUT <$> idxs)).
  split; [congruence|]. split; [congruence|]. split; lia.
Qed.

Lemma placement_only_inserts_witness :
  ∃ fn',
    insertAutoDestroy_flow Scenario.autoDestroyMap
      (Scenario.oneBlock (Scenario.fnOf Scenario.stmtsJump))
      [[true; true]] [[false; false]] [[false; false]] [[false; false]]
      [Scenario.x; Scenario.y] (Scenario.fnOf Scenario.stmtsJump) = Done fn'
    ∧ fn_sym fn' = fn_sym (Scenario.fnOf Scenario.stmtsJump)
    ∧ fn_formals fn' = fn_formals (Scenario.fnOf Scenario.stmtsJump)
    ∧ stmtCount (fn_body fn')
      = stmtCount (fn_body (Scenario.fnOf Scenario.stmtsJump)) + 2
    ∧ next_expr fn' = next_expr (Scenario.fnOf Scenario.stmtsJump) + 2 * 2.
Proof.
  eexists. split; [vm_compute; reflexivity|].
  apply (placement_only_inserts Scenario.autoDestroyMap
           (Scenario.oneBlock (Scenario.fnOf Scenario.stmtsJump))
           [[true; true]] [[false; false]] [[false; false]] [[false; false]]
           [Scenario.x; Scenario.y] (Scenario.fnOf Scenario.stmtsJump)).
  vm_compute. reflexivity.
Defined.

(** ** The loop over the blocks *)























